(** * AILeague: the fatigue / injury-risk estimator and its frame loop

    A shallow embedding of
    - [src/fatigue_risk_estimator/fatigue_risk_estimator.py]
      (class [FatigueRiskEstimator]: [update_metrics], [_compute_fatigue]),
    - [src/main.py] ([run_pipeline], step 8: possession and per-frame risk
      update; step 9: the risk overlay; step 11: the JSON summary),
    - [src/streamlit_app.py] (the roster names and the risk gauges),
    - [src/app.py] ([estimate_injury_risk]).

    Numbers.  Python floats and numpy float64 values are modelled by their
    exact values: every finite float is a rational, so samples and
    sub-metrics live in [Q] and the arithmetic is the unrounded one.  The
    three IEEE special values a numpy division can produce are kept
    explicit ([fval]).  Only the logistic curve needs [exp]; the risk
    percentage is therefore a real number ([fval R]).  Rounding error and
    the sign of zero are not modelled there.  Where the rounding decides
    a statement (the monotonicity of the scorer), the two lines of the
    scorer are modelled a second time with every operation rounded to
    binary64 ([F64], [score_f64], [risk_pct_f64]). *)

From Stdlib Require Import ZArith QArith Qround Reals Psatz Lia List String.
From Stdlib Require Import Qminmax Qreals Qpower Qabs DecimalString.
From Stdlib Require DecimalZ.
From stdpp Require Import base option list gmap fin_maps.

Open Scope Z_scope.

(* ===================================================================== *)
(** ** Float values with the IEEE special cases                          *)
(* ===================================================================== *)

Inductive fval (A : Type) : Type :=
  | Fin (a : A)
  | PInf
  | NInf
  | NaN.
Arguments Fin {A} a.
Arguments PInf {A}.
Arguments NInf {A}.
Arguments NaN {A}.

Module F.

(** Comparison of a rational with zero, as a three-way sign. *)
Definition sgn (q : Q) : comparison := (q ?= 0)%Q.

Definition opp (x : fval Q) : fval Q :=
  match x with
  | Fin a => Fin (- a)%Q
  | PInf => NInf
  | NInf => PInf
  | NaN => NaN
  end.

Definition add (x y : fval Q) : fval Q :=
  match x, y with
  | NaN, _ | _, NaN => NaN
  | Fin a, Fin b => Fin (a + b)%Q
  | PInf, NInf | NInf, PInf => NaN
  | PInf, _ | _, PInf => PInf
  | NInf, _ | _, NInf => NInf
  end.

Definition sub (x y : fval Q) : fval Q := add x (opp y).

(** The infinity whose sign is the product of the two signs; NaN when
    one factor is zero. *)
Definition inf_of_signs (s t : comparison) : fval Q :=
  match s, t with
  | Eq, _ | _, Eq => NaN
  | Gt, Gt | Lt, Lt => PInf
  | _, _ => NInf
  end.

Definition sign_of (x : fval Q) : comparison :=
  match x with
  | Fin a => sgn a
  | PInf => Gt
  | NInf => Lt
  | NaN => Eq
  end.

Definition mul (x y : fval Q) : fval Q :=
  match x, y with
  | NaN, _ | _, NaN => NaN
  | Fin a, Fin b => Fin (a * b)%Q
  | _, _ => inf_of_signs (sign_of x) (sign_of y)
  end.

(** numpy's float64 division: a zero divisor gives NaN for [0/0] and an
    infinity otherwise (a RuntimeWarning, not an exception). *)
Definition div (x y : fval Q) : fval Q :=
  match x, y with
  | NaN, _ | _, NaN => NaN
  | Fin a, Fin b =>
      if Qeq_bool b 0 then
        match sgn a with Eq => NaN | Gt => PInf | Lt => NInf end
      else Fin (a / b)%Q
  | Fin _, _ => Fin 0%Q
  | PInf, Fin b => match sgn b with Lt => NInf | _ => PInf end
  | NInf, Fin b => match sgn b with Lt => PInf | _ => NInf end
  | _, _ => NaN
  end.

(** [np.clip(x, lo, hi)] = [minimum(maximum(x, lo), hi)]; NaN stays NaN. *)
Definition clip (x : fval Q) (lo hi : Q) : fval Q :=
  match x with
  | NaN => NaN
  | PInf => Fin hi
  | NInf => Fin (Qmin lo hi)
  | Fin a => Fin (Qmin (Qmax a lo) hi)
  end.

End F.

(* ===================================================================== *)
(** ** The numpy and Python helpers the estimator calls                  *)
(* ===================================================================== *)

Definition Qgtb (a b : Q) : bool := negb (Qle_bool a b).

Definition Qsum (l : list Q) : Q := fold_right Qplus 0%Q l.

(** [l[i:]] for a Python [int] index [i] (negative: counted from the end,
    clamped at both ends). *)
Definition py_slice_from {A} (l : list A) (i : Z) : list A :=
  let n := Z.of_nat (length l) in
  let start := if i <? 0 then Z.max (n + i) 0 else Z.min i n in
  drop (Z.to_nat start) l.

Fixpoint insert_sorted (x : Q) (l : list Q) : list Q :=
  match l with
  | [] => [x]
  | y :: l' => if Qle_bool x y then x :: l else y :: insert_sorted x l'
  end.

Definition np_sort (l : list Q) : list Q := fold_right insert_sorted [] l.

(** [np.mean]: NaN on an empty array. *)
Definition np_mean (l : list Q) : fval Q :=
  match l with
  | [] => NaN
  | _ => Fin (Qsum l / inject_Z (Z.of_nat (length l)))%Q
  end.

(** [np.percentile(l, p)], default (linear) method: in the sorted array,
    the value at virtual index [(n-1) * p/100], interpolated between its
    two neighbours.  NaN on an empty array. *)
Definition np_percentile (l : list Q) (p : Q) : fval Q :=
  match l with
  | [] => NaN
  | _ =>
      let a := np_sort l in
      let n := Z.of_nat (length a) in
      let vidx := (inject_Z (n - 1) * (p / 100))%Q in
      let lo := Qfloor vidx in
      let hi := Z.min (lo + 1) (n - 1) in
      let g := (vidx - inject_Z lo)%Q in
      let alo := nth (Z.to_nat lo) a 0%Q in
      let ahi := nth (Z.to_nat hi) a 0%Q in
      Fin (alo + (ahi - alo) * g)%Q
  end.

(** [np.diff]: differences of consecutive elements. *)
Fixpoint np_diff (l : list Q) : list Q :=
  match l with
  | x :: (y :: _) as l' => (y - x)%Q :: np_diff l'
  | _ => []
  end.

(** [np.sum(arr > t)]: how many elements are strictly above [t]. *)
Definition count_gt (l : list Q) (t : Q) : Z :=
  Z.of_nat (length (List.filter (fun x => Qgtb x t) l)).

(* ===================================================================== *)
(** ** Configuration                                                     *)
(* ===================================================================== *)

Definition SPRINT_SPEED : Q := 7.
Definition ACCEL_THRESHOLD : Q := 2.
Definition WINDOW_SEC : Z := 30.

Inductive metric : Type :=
  | speed_drop | sprint_count | accel_events | posture_deg | stride_reduction.

(** The weight table, in the order the dictionary lists (and iterates) it. *)
Definition METRIC_WEIGHTS : list (metric * Q) :=
  [ (speed_drop,       0.30%Q);
    (sprint_count,     0.25%Q);
    (accel_events,     0.15%Q);
    (posture_deg,      0.20%Q);
    (stride_reduction, 0.10%Q) ].

(* ===================================================================== *)
(** ** Per-frame track records                                           *)
(* ===================================================================== *)

(** A Python value used as a possession label: the string ["none"] or
    whatever the team assigner stored under ["team"]. *)
Inductive pyval : Type :=
  | VStr (s : string)
  | VInt (z : Z).

Module Track.
(** One entity's record in one frame: a dict; a key that is absent (or
    holds [None]) is [None] here. *)
Record t : Type := mk {
  bbox     : Q * Q * Q * Q;
  speed    : option Q;          (* km/h *)
  distance : option Q;          (* m *)
  risk     : option (fval R);
  team     : option pyval;
  name     : option string;
  has_ball : option bool
}.

Definition set_risk (r : fval R) (trk : t) : t :=
  mk (bbox trk) (speed trk) (distance trk) (Some r)
     (team trk) (name trk) (has_ball trk).

Definition set_has_ball (b : bool) (trk : t) : t :=
  mk (bbox trk) (speed trk) (distance trk) (risk trk)
     (team trk) (name trk) (Some b).
End Track.

(** A frame's track set: entity id -> record. *)
Abbreviation frame := (gmap Z Track.t).

(* ===================================================================== *)
(** ** class FatigueRiskEstimator                                        *)
(* ===================================================================== *)

Module FatigueRiskEstimator.

(** The object's state.  [fps] is a frame rate, a positive integer (the
    pipeline builds the estimator with [fps=24]); [window] is set once in
    [__init__] from it and never assigned again. *)
Record t : Type := mk {
  fps     : positive;
  history : gmap Z (list Q);      (* defaultdict(list):  pid -> speeds, m/s *)
  risk    : gmap Z (fval R)       (* defaultdict(float): pid -> last risk *)
}.

Definition init (fps : positive) : t := mk fps ∅ ∅.

Definition window (self : t) : Z := WINDOW_SEC * Z.pos (fps self).

(** Reading a defaultdict: the stored value, or the factory's default.
    (A read of a missing key also stores the default under that key; for
    [risk] that is written out in [update_one], because the summary
    iterates the keys.) *)
Definition history_of (self : t) (pid : Z) : list Q :=
  default [] (history self !! pid).

Definition risk_of (self : t) (pid : Z) : fval R :=
  default (Fin 0%R) (risk self !! pid).

Definition set_history (pid : Z) (h : list Q) (self : t) : t :=
  mk (fps self) (<[pid := h]> (history self)) (risk self).

Definition set_risk (pid : Z) (r : fval R) (self : t) : t :=
  mk (fps self) (history self) (<[pid := r]> (risk self)).

(** The metrics dictionary of [_compute_fatigue], for a history [speeds]. *)
Definition metrics (self : t) (speeds : list Q) (k : metric) : fval Q :=
  match k with
  | speed_drop =>
      let baseline := np_percentile speeds 90 in
      let recent := np_mean (py_slice_from speeds ((- window self) `div` 2)) in
      F.clip (F.div (F.sub baseline recent) baseline) 0 1
  | sprint_count =>
      let sprint_count := count_gt speeds SPRINT_SPEED in
      F.clip (F.div (Fin (inject_Z sprint_count))
                    (Fin (inject_Z WINDOW_SEC / 10)%Q)) 0 1
  | accel_events =>
      let accel := map (fun d => (d * inject_Z (Z.pos (fps self)))%Q)
                       (np_diff speeds) in
      let accel_events := count_gt accel ACCEL_THRESHOLD in
      F.clip (F.div (Fin (inject_Z accel_events))
                    (Fin (inject_Z WINDOW_SEC / 5)%Q)) 0 1
  | posture_deg => Fin 0%Q
  | stride_reduction => Fin 0%Q
  end.

(** [sum(metrics[k] * METRIC_WEIGHTS[k] for k in METRIC_WEIGHTS)]:
    Python's [sum] starts from 0 and adds left to right. *)
Definition score (m : metric -> fval Q) : fval Q :=
  fold_left (fun acc kw => F.add acc (F.mul (m kw.1) (Fin kw.2)))
            METRIC_WEIGHTS (Fin 0%Q).

(** [100 / (1 + np.exp(-10*(score-0.5)))].  For an infinite score
    [np.exp] gives 0 or inf, and the quotient 100 or 0. *)
Definition risk_pct (score : fval Q) : fval R :=
  match score with
  | Fin s => Fin (100 / (1 + exp (-10 * (Q2R s - 0.5))))%R
  | PInf => Fin 100%R
  | NInf => Fin 0%R
  | NaN => NaN
  end.

Definition _compute_fatigue (self : t) (pid : Z) : fval R :=
  let speeds := history_of self pid in
  if (Z.of_nat (length speeds) <? 5) then Fin 0%R
  else risk_pct (score (metrics self speeds)).

(** The body of the loop of [update_metrics] for one item of
    [tracks.items()].  The last line reads [self.risk[pid]]: on a missing
    key the defaultdict stores 0.0 under it and returns it, hence the
    final [set_risk]. *)
Definition update_one (frame_idx : Z) (st : t * frame) (item : Z * Track.t)
  : t * frame :=
  let '(self, tracks) := st in
  let '(pid, trk) := item in
  match Track.speed trk with
  | None => (self, tracks)                                   (* continue *)
  | Some spd =>
      let spd_mps := (spd / 3.6)%Q in
      let h := history_of self pid ++ [spd_mps] in
      let h := if (window self <? Z.of_nat (length h))
               then py_slice_from h (- window self) else h in
      let self := set_history pid h self in
      let self :=
        if (frame_idx `mod` window self =? 0) || (frame_idx =? 0)
        then set_risk pid (_compute_fatigue self pid) self
        else self in
      let r := risk_of self pid in
      (set_risk pid r self, <[pid := Track.set_risk r trk]> tracks)
  end.

(** The loop over [tracks.items()].  Each item touches its own entity
    only, in the estimator and in the track set, so the order in which
    the items come does not matter (lemma [fold_update_one_at] below). *)
Definition update_metrics (self : t) (frame_idx : Z) (tracks : frame)
  : t * frame :=
  fold_left (update_one frame_idx) (map_to_list tracks) (self, tracks).

End FatigueRiskEstimator.

(* ===================================================================== *)
(** ** main.py: run_pipeline, steps 8 and 11                             *)
(* ===================================================================== *)

(** [round(x, ndigits)] on a float: the nearest multiple of
    [10^-ndigits] of the exact value, ties to the even one. *)
Definition round_half_even (y : Q) : Z :=
  let f := Qfloor y in
  match ((y - inject_Z f) ?= (1 # 2))%Q with
  | Lt => f
  | Gt => f + 1
  | Eq => if Z.even f then f else f + 1
  end.

Definition py_round (x : Q) (ndigits : nat) : Q :=
  let m := inject_Z (10 ^ Z.of_nat ndigits) in
  (inject_Z (round_half_even (x * m)) / m)%Q.

Definition round_half_even_R (y : R) : Z :=
  let f := Int_part y in
  if Rlt_dec (frac_part y) (1 / 2) then f
  else if Rlt_dec (1 / 2) (frac_part y) then f + 1
  else if Z.even f then f else f + 1.

Definition py_round_R (x : fval R) (ndigits : nat) : fval R :=
  match x with
  | Fin r =>
      let m := IZR (10 ^ Z.of_nat ndigits) in
      Fin (IZR (round_half_even_R (r * m)) / m)%R
  | _ => x
  end.

(** [str(pid)] for a Python [int]. *)
Definition py_str (z : Z) : string := NilZero.string_of_int (Z.to_int z).

Module Pipeline.

Abbreviation bbox := (Q * Q * Q * Q)%type.

(** The part of the [tracks] dictionary the two steps read:
    [tracks["players"]], one track set per frame, and [tracks["ball"]],
    per frame either the empty dict ([None]) or [{1: {"bbox": b}}]
    ([Some b]). *)
Record tracks : Type := mk_tracks {
  players : list frame;
  ball    : list (option bbox)
}.

(** What the loop of step 8 has built so far. *)
Record loop_state : Type := mk_state {
  risk_est          : FatigueRiskEstimator.t;
  done_players      : list frame;     (* the frames already updated *)
  team_ball_control : list pyval
}.

(** One player's entry of the summary. *)
Record summary_row : Type := mk_row {
  name       : string;
  speed_kmh  : Q;
  distance_m : Q;
  risk_pct   : fval R
}.

(** ["none" if f_idx == 0 else team_ball_control[-1]];
    [None] is the IndexError of [[-1]] on an empty list. *)
Definition carry_forward (f_idx : nat) (tbc : list pyval) : option pyval :=
  if Nat.eqb f_idx 0 then Some (VStr "none") else last tbc.

Section step8.

(** [PlayerBallAssigner.assign_ball_to_player], a collaborator that is
    not part of the core: the id of the owner, or [-1]. *)
Variable assign_ball_to_player : frame -> bbox -> Z.

(** The body of the loop of step 8 for frame [f_idx].  [None] is a
    Python exception (IndexError, KeyError). *)
Definition frame_step (ball : list (option bbox)) (f_idx : nat)
    (player_track : frame) (st : loop_state) : option loop_state :=
  let '(est, player_track) :=
    FatigueRiskEstimator.update_metrics (risk_est st) (Z.of_nat f_idx)
                                        player_track in
  ball_f ← ball !! f_idx;
  match ball_f with
  | None =>
      lbl ← carry_forward f_idx (team_ball_control st);
      Some (mk_state est (done_players st ++ [player_track])
                     (team_ball_control st ++ [lbl]))
  | Some ball_bbox =>
      let owner_pid := assign_ball_to_player player_track ball_bbox in
      if negb (owner_pid =? -1) then
        trk ← player_track !! owner_pid;
        let player_track :=
          <[owner_pid := Track.set_has_ball true trk]> player_track in
        lbl ← Track.team trk;
        Some (mk_state est (done_players st ++ [player_track])
                       (team_ball_control st ++ [lbl]))
      else
        lbl ← carry_forward f_idx (team_ball_control st);
        Some (mk_state est (done_players st ++ [player_track])
                       (team_ball_control st ++ [lbl]))
  end.

(** [for f_idx, player_track in enumerate(tracks["players"])],
    from frame [f_idx] on. *)
Fixpoint frames_loop (ball : list (option bbox)) (f_idx : nat)
    (rest : list frame) (st : loop_state) : option loop_state :=
  match rest with
  | [] => Some st
  | player_track :: rest' =>
      st' ← frame_step ball f_idx player_track st;
      frames_loop ball (S f_idx) rest' st'
  end.

Definition step8 (trs : tracks) : option loop_state :=
  frames_loop (ball trs) 0 (players trs)
              (mk_state (FatigueRiskEstimator.init 24) [] []).

End step8.

(** Step 11, the backward scan for one player over the frames in
    reverse order: the first record with a speed gives the snapshot.
    [None] is the KeyError of [trk["distance"]]. *)
Fixpoint scan_back (frames_rev : list frame) (pid : Z)
  : option (Q * Q * fval R) :=
  match frames_rev with
  | [] => Some (0%Q, 0%Q, Fin 0%R)
  | fr :: rest =>
      match fr !! pid with
      | Some trk =>
          match Track.speed trk with
          | Some speed =>
              dist ← Track.distance trk;
              Some (speed, dist, default (Fin 0%R) (Track.risk trk))
          | None => scan_back rest pid
          end
      | None => scan_back rest pid
      end
  end.

Definition snapshot (players : list frame) (pid : Z)
  : option (Q * Q * fval R) :=
  scan_back (rev players) pid.

Definition make_row (players : list frame) (pid : Z) : option summary_row :=
  '(speed, dist, risk) ← snapshot players pid;
  first_frame ← players !! 0%nat;
  let name := default ("P" ++ py_str pid)%string
                      (first_frame !! pid ≫= Track.name) in
  Some (mk_row name (py_round speed 2) (py_round dist 2)
               (py_round_R risk 1)).

(** [summary], keyed by the player id (the JSON key is [str(pid)]);
    one row for every key of [risk_est.risk]. *)
Definition summary (est : FatigueRiskEstimator.t) (players : list frame)
  : option (gmap Z summary_row) :=
  rows ← mapM (fun pid => row ← make_row players pid; Some (pid, row))
              (map_to_list (FatigueRiskEstimator.risk est)).*1;
  Some (list_to_map rows).

End Pipeline.

(* ===================================================================== *)
(** ** The scorer as the specification words it                          *)
(* ===================================================================== *)

Module Spec.

(** The weight of each metric. *)
Definition weight (k : metric) : Q :=
  match k with
  | speed_drop => 0.30
  | sprint_count => 0.25
  | accel_events => 0.15
  | posture_deg => 0.20
  | stride_reduction => 0.10
  end%Q.

(** [score = sum over the five metrics of weight_m * normalized_m]. *)
Definition weighted_sum (m : metric -> Q) : Q :=
  (weight speed_drop * m speed_drop
   + weight sprint_count * m sprint_count
   + weight accel_events * m accel_events
   + weight posture_deg * m posture_deg
   + weight stride_reduction * m stride_reduction)%Q.

(** [risk = 100 / (1 + exp(-10 * (score - 0.5)))]. *)
Definition logistic (s : R) : R := (100 / (1 + exp (-10 * (s - 0.5))))%R.

(** The most recent [n] elements of a sequence, in their order. *)
Definition most_recent {A} (n : nat) (l : list A) : list A :=
  drop (length l - n) l.

End Spec.

(** Five finite sub-metrics as the [metrics] dictionary of the scorer. *)
Definition finite_metrics (m : metric -> Q) : metric -> fval Q :=
  fun k => Fin (m k).

(** The same sub-metrics with the speed-drop replaced by [x]. *)
Definition with_speed_drop (x : Q) (m : metric -> Q) : metric -> Q :=
  fun k => match k with speed_drop => x | _ => m k end.

(* ===================================================================== *)
(** ** The estimator along the frame loop                                *)
(* ===================================================================== *)

(** The calls [risk_est.update_metrics(f_idx, player_track)] the loop of
    step 8 makes for consecutive frames, the first of index [f_idx]. *)
Fixpoint update_frames (self : FatigueRiskEstimator.t) (f_idx : Z)
    (frames : list frame) : FatigueRiskEstimator.t * list frame :=
  match frames with
  | [] => (self, [])
  | player_track :: rest =>
      let '(self, player_track) :=
        FatigueRiskEstimator.update_metrics self f_idx player_track in
      let '(self, rest) := update_frames self (f_idx + 1) rest in
      (self, player_track :: rest)
  end.

(** The sample a frame holds for an entity: its speed in m/s, if the
    entity is in the frame and has a speed. *)
Definition sample_of (fr : frame) (pid : Z) : list Q :=
  match fr !! pid ≫= Track.speed with
  | Some spd => [(spd / 3.6)%Q]
  | None => []
  end.

(** All the samples of an entity over a sequence of frames, oldest first. *)
Definition samples_of (frames : list frame) (pid : Z) : list Q :=
  concat (map (fun fr => sample_of fr pid) frames).

(** A record after [update_metrics] wrote the risk [r], which it does
    only when the record has a speed. *)
Definition written (r : fval R) (trk : Track.t) : Track.t :=
  match Track.speed trk with
  | Some _ => Track.set_risk r trk
  | None => trk
  end.

(** Two states of the loop of [update_metrics] that hold the same for
    entity [pid]. *)
Definition same_at (pid : Z) (s1 s2 : FatigueRiskEstimator.t * frame) : Prop :=
  FatigueRiskEstimator.fps s1.1 = FatigueRiskEstimator.fps s2.1 /\
  FatigueRiskEstimator.history s1.1 !! pid
    = FatigueRiskEstimator.history s2.1 !! pid /\
  FatigueRiskEstimator.risk s1.1 !! pid
    = FatigueRiskEstimator.risk s2.1 !! pid /\
  s1.2 !! pid = s2.2 !! pid.

(* ===================================================================== *)
(** ** Well-formed track records                                         *)
(* ===================================================================== *)

(** The speed estimator writes ["speed"] and ["distance"] together: a
    record that has a speed has a distance. *)
Definition kinematics_ok (trk : Track.t) : bool :=
  match Track.speed trk, Track.distance trk with
  | Some _, None => false
  | _, _ => true
  end.

(** The entity has a non-missing speed in the frame. *)
Definition has_speed (fr : frame) (pid : Z) : bool :=
  match fr !! pid ≫= Track.speed with Some _ => true | None => false end.

(* ===================================================================== *)
(** ** The possession rule as the specification words it                 *)
(* ===================================================================== *)

(** The previous frame's label, or ["none"] at frame 0. *)
Definition previous_label (f : nat) (labels : list pyval) : option pyval :=
  if Nat.eqb f 0 then Some (VStr "none") else labels !! (f - 1)%nat.

(** The label of frame [f], whose ball entry is [ball_f] and whose track
    set (after the risk update) is [fr]: carried forward when there is no
    ball or no owner, the owner's team otherwise. *)
Definition possession_rule (assign : frame -> Pipeline.bbox -> Z)
    (labels : list pyval) (f : nat) (ball_f : option Pipeline.bbox)
    (fr : frame) (lbl : pyval) : Prop :=
  match ball_f with
  | None => Some lbl = previous_label f labels
  | Some bb =>
      if assign fr bb =? -1 then Some lbl = previous_label f labels
      else fr !! assign fr bb ≫= Track.team = Some lbl
  end.

(** What the loop of step 8 needs of its input to run to the end: a ball
    entry for frame [f], and an owner, when there is one, that is in the
    frame and has a team. *)
Definition frame_ready (assign : frame -> Pipeline.bbox -> Z)
    (ball : list (option Pipeline.bbox)) (f : nat) (fr : frame) : Prop :=
  exists ball_f, ball !! f = Some ball_f /\
    match ball_f with
    | None => True
    | Some bb => assign fr bb <> -1 ->
                 is_Some (fr !! assign fr bb ≫= Track.team)
    end.

(* ===================================================================== *)
(** ** The values a stored risk can take                                 *)
(* ===================================================================== *)

(** NaN, the 0.0 of a short history, or a point of the logistic curve for
    a score between 0 and 0.7. *)
Definition risk_in_range (x : fval R) : Prop :=
  x = NaN \/ x = Fin 0%R \/
  exists r, x = Fin r /\
            (100 / (1 + exp 5) <= r)%R /\ (r <= 100 / (1 + exp (-2)))%R.


(* ===================================================================== *)
(** ** Steps 8 and 11 together                                           *)
(* ===================================================================== *)

(** What the possession half of the loop body does to a frame's track
    set, the risk update done: ["has_ball"] set on the owner, if any. *)
Definition mark_owner (assign : frame -> Pipeline.bbox -> Z)
    (ball_f : option Pipeline.bbox) (fr : frame) : frame :=
  match ball_f with
  | None => fr
  | Some bb =>
      if assign fr bb =? -1 then fr
      else alter (Track.set_has_ball true) (assign fr bb) fr
  end.

(** The fields of a record that the summary exports as they are. *)
Definition exported_fields (trk : Track.t)
  : option Q * option Q * option string :=
  (Track.speed trk, Track.distance trk, Track.name trk).

(** Two track sets with the same entities and the same exported fields. *)
Definition same_exported (out fr : frame) : Prop :=
  forall pid, exported_fields <$> out !! pid = exported_fields <$> fr !! pid.

(** [run_pipeline] from step 8 to the summary of step 11: the summary is
    built from the estimator and the track sets the loop of step 8 leaves.
    (Steps 9 and 10 in between draw and save; they read the tracks.) *)
Definition run_stats (assign : frame -> Pipeline.bbox -> Z)
    (trs : Pipeline.tracks) : option (gmap Z Pipeline.summary_row) :=
  st ← Pipeline.step8 assign trs;
  Pipeline.summary (Pipeline.risk_est st) (Pipeline.done_players st).


(* ===================================================================== *)
(** ** FatigueRiskEstimator.draw and the risk overlay of step 9          *)
(* ===================================================================== *)

(** [x >= t] for a float [x] and a finite [t]: false when [x] is NaN. *)
Definition fge (x : fval R) (t : R) : bool :=
  match x with
  | Fin r => if Rle_dec t r then true else false
  | PInf => true
  | NInf => false
  | NaN => false
  end.

(** [int(x)] for a float: truncation toward zero. *)
Definition py_int (q : Q) : Z := Z.quot (Qnum q) (Z.pos (Qden q)).

(** A call of [cv2.putText]: the text, its origin and its BGR colour (the
    font, scale 0.55 and thickness 2 are constants). *)
Record put_text : Type := mk_put_text {
  text  : string;
  org   : Z * Z;
  color : Z * Z * Z
}.

(** [(0, 0, 255) if risk >= 70 else (0, 165, 255) if risk >= 40 else
    (0, 200, 0)]: red, amber, green. *)
Definition draw_color (risk : fval R) : Z * Z * Z :=
  if fge risk 70 then (0, 0, 255)
  else if fge risk 40 then (0, 165, 255)
  else (0, 200, 0).

Section draw.

(** Python's float formatting [f"{risk:5.1f}"]. *)
Variable format_5_1f : fval R -> string.

(** [FatigueRiskEstimator.draw(frame, bbox, risk)]: the text it puts on
    the frame, if any. *)
Definition draw (bbox : Q * Q * Q * Q) (risk : option (fval R))
  : option put_text :=
  match risk with
  | None => None
  | Some risk =>
      let '(x, y, _, _) := bbox in
      let y := (y + 60)%Q in
      let txt := (format_5_1f risk ++ "% risk")%string in
      Some (mk_put_text txt (py_int x, py_int y) (draw_color risk))
  end.

(** The risk overlay of step 9 for one frame: one call of [draw] for each
    record that has a risk. *)
Definition overlay_frame (fr : frame) : list put_text :=
  omap (fun item : Z * Track.t =>
          risk ← Track.risk item.2;
          draw (Track.bbox item.2) (Some risk))
       (map_to_list fr).

End draw.

(* ===================================================================== *)
(** ** streamlit_app.py: what the dashboard does with the statistics     *)
(* ===================================================================== *)

(** [row["risk_pct"] >= 63], the test of the substitution alert. *)
Definition substitute_now (risk_pct : fval R) : bool := fge risk_pct 63.

(** [row["risk_pct"] / 100]. *)
Definition percent_of (risk_pct : fval R) : fval R :=
  match risk_pct with
  | Fin r => Fin (r / 100)%R
  | _ => risk_pct
  end.

(** What the gauge loop puts on the page: [st.write] of a name,
    [st.progress] of a percentage, [st.error] of the alert. *)
Inductive element : Type :=
  | StWrite (name : string)
  | StProgress (percent : fval R)
  | StError (name : string) (risk_pct : fval R).

Section gauges.

(** [st.progress(percent, ...)] of Streamlit, which is not part of the
    repository: whether the call accepts the value ([true]) or raises.
    The other Streamlit calls of the loop ([st.columns], [st.write],
    [st.error]) are taken to return. *)
Variable st_progress : fval R -> bool.

(** The loop [for pid, row in stats.items()] of the risk gauges, over the
    rows (name, risk_pct) in the order of the file: the elements put on
    the page, and whether the loop ran to its end ([false]: the exception
    of [st.progress] left it).  The three assignments to [bar_color] are
    not modelled: nothing reads the variable. *)
Fixpoint risk_gauges (rows : list (string * fval R))
  : list element * bool :=
  match rows with
  | [] => ([], true)
  | row :: rest =>
      let percent := percent_of row.2 in
      if st_progress percent then
        let alert :=
          if substitute_now row.2 then [StError row.1 row.2] else [] in
        let '(page, finished) := risk_gauges rest in
        (StWrite row.1 :: StProgress percent :: alert ++ page, finished)
      else ([StWrite row.1], false)
  end.

End gauges.

(** The names of the players an alert is shown for. *)
Definition alerted (page : list element) : list string :=
  omap (fun e => match e with StError name _ => Some name | _ => None end)
       page.

(** The names of the rows that pass the test of the alert. *)
Definition over_threshold (rows : list (string * fval R)) : list string :=
  (filter (fun row : string * fval R => substitute_now row.2 = true) rows).*1.

(** [enumerate(l)], counting from [i]. *)
Fixpoint enumerate_from {A} (i : nat) (l : list A) : list (nat * A) :=
  match l with
  | [] => []
  | x :: l' => (i, x) :: enumerate_from (S i) l'
  end.

(** [{i + 1: n for i, n in enumerate(names)}]. *)
Definition id_map (names : list string) : gmap Z string :=
  fold_left (fun m p => <[Z.of_nat p.1 + 1 := p.2]> m)
            (enumerate_from 0 names) ∅.

(** [int(s)] on the decimal spellings [str] writes for an integer (an
    optional minus sign, then digits); [None] is the ValueError.  Python
    accepts more spellings (surrounding blanks, a plus sign, underscores),
    none of which [str] writes. *)
Definition py_int_of_str (s : string) : option Z :=
  Z.of_int <$> NilZero.int_of_string s.

(** [row["name"] = id_map.get(int(pid), row["name"])] for the row under
    the JSON key [pid]. *)
Definition roster_name (names : list string) (pid : string) (name : string)
  : option string :=
  k ← py_int_of_str pid;
  Some (default name (id_map names !! k)).

(* ===================================================================== *)
(** ** app.py: estimate_injury_risk                                      *)
(* ===================================================================== *)

(** [round(x, ndigits)] for a finite float. *)
Definition py_round_real (x : R) (ndigits : nat) : R :=
  let m := IZR (10 ^ Z.of_nat ndigits) in
  (IZR (round_half_even_R (x * m)) / m)%R.

(** A Python [int] that fits numpy's [int64]. *)
Definition is_int64 (z : Z) : bool := (- 2 ^ 63 <=? z) && (z <? 2 ^ 63).

Definition int64_point (p : Z * Z) : bool := is_int64 p.1 && is_int64 p.2.

(** The result of an [int64] operation whose exact result is [z]: numpy
    wraps around without a warning. *)
Definition wrap64 (z : Z) : Z := (z + 2 ^ 63) `mod` 2 ^ 64 - 2 ^ 63.

(** [np.linalg.norm(np.array(a) - np.array(b))] for two points whose
    coordinates fit [int64], the dtype [np.array] then gives them (as for
    the pixel offsets [process_video] passes): the subtraction is the
    [int64] one, and [norm] converts the difference to float before it
    squares.  (For larger coordinates numpy picks another dtype; that
    case is outside this model.) *)
Definition np_norm_diff (a b : Z * Z) : R :=
  sqrt (IZR (wrap64 (a.1 - b.1) ^ 2 + wrap64 (a.2 - b.2) ^ 2)).

(** [estimate_injury_risk(keypoints)].  An index out of range raises
    inside the [try], and the bare [except] returns 0.0. *)
Definition estimate_injury_risk (keypoints : option (list (Z * Z))) : R :=
  match keypoints with
  | None => 0%R
  | Some keypoints =>
      match keypoints !! 25%nat, keypoints !! 26%nat,
            keypoints !! 27%nat, keypoints !! 28%nat with
      | Some left_knee, Some right_knee, Some left_ankle, Some right_ankle =>
          let leg_movement :=
            (np_norm_diff left_knee left_ankle
             + np_norm_diff right_knee right_ankle)%R in
          let risk := Rmin 1 (leg_movement / 300) in
          py_round_real risk 2
      | _, _, _, _ => 0%R
      end
  end.

(** [is_injured = risk_prob >= risk_threshold] in [process_video]. *)
Definition is_injured (risk_prob risk_threshold : R) : bool :=
  if Rle_dec risk_threshold risk_prob then true else false.


(* ===================================================================== *)
(** ** A small run, used to exercise the statements about whole runs     *)
(* ===================================================================== *)

(** Four frames: player 4 (team 1) has a speed in frames 0 and 2, player 5
    (team 2) never has one; the ball is seen in frames 1 and 2. *)
Definition example_tracks : Pipeline.tracks :=
  let a := Track.mk (0, 0, 10, 20)%Q (Some 18%Q) (Some 3%Q) None
                    (Some (VInt 1)) None None in
  let b := Track.mk (5, 5, 10, 20)%Q None None None
                    (Some (VInt 2)) None None in
  Pipeline.mk_tracks
    [ {[ 4 := a ]}; {[ 5 := b ]}; {[ 4 := a; 5 := b ]}; ∅ ]
    [ None; Some (0, 0, 1, 1)%Q; Some (0, 0, 1, 1)%Q; None ].

(** An assigner that gives the ball to player 4 whenever it is there. *)
Definition example_assign (fr : frame) (bb : Pipeline.bbox) : Z :=
  if decide (is_Some (fr !! 4)) then 4 else -1.


(* ===================================================================== *)
(** ** float64 arithmetic, and the scorer as the machine runs it         *)
(* ===================================================================== *)

(** The exact model above drops the rounding of every operation.  Here
    the rounding is kept: a finite binary64 number is the rational it
    denotes, and every operation returns the exact result rounded to the
    nearest binary64 number, ties to the even significand (IEEE 754), or
    an infinity on overflow.  (The sign of zero is not modelled.) *)
Module F64.

(** [floor(log2 q)] for a positive rational. *)
Definition Qlog2 (q : Q) : Z :=
  let k := Z.log2 (Qnum q) - Z.log2 (Z.pos (Qden q)) in
  if Qle_bool (2 ^ k) q then k else k - 1.

(** The unit in the last place at [q]: 53 significant bits, and the fixed
    spacing [2^-1074] of the subnormal numbers below [2^-1022]. *)
Definition ulp (q : Q) : Q := (2 ^ (Z.max (Qlog2 (Qabs q)) (-1022) - 52))%Q.

(** Rounding to the nearest multiple of the unit in the last place, ties
    to the even significand; the exponent is not bounded above here. *)
Definition rnd (q : Q) : Q :=
  Qred (inject_Z (round_half_even (q / ulp q)) * ulp q).

(** The float64 result for an exact result [x]: a rounded value of
    magnitude [2^1024] or more overflows to an infinity. *)
Definition round (x : fval Q) : fval Q :=
  match x with
  | Fin q =>
      let r := rnd q in
      if Qle_bool (2 ^ 1024) r then PInf
      else if Qle_bool r (- 2 ^ 1024) then NInf
      else Fin r
  | _ => x
  end.

Definition add (x y : fval Q) : fval Q := round (F.add x y).
Definition sub (x y : fval Q) : fval Q := round (F.sub x y).
Definition mul (x y : fval Q) : fval Q := round (F.mul x y).
Definition div (x y : fval Q) : fval Q := round (F.div x y).

(** A decimal literal of the source: the nearest binary64 number. *)
Definition lit (q : Q) : fval Q := round (Fin q).

End F64.

(** Line 101 in float64, [sum(metrics[k] * METRIC_WEIGHTS[k] for k in
    METRIC_WEIGHTS)]: the weights are the binary64 numbers nearest 0.30,
    0.25, ...; each product is rounded, and [sum] adds the products from
    the left, starting from the integer 0, rounding after each addition. *)
Definition score_f64 (m : metric -> fval Q) : fval Q :=
  fold_left (fun acc kw => F64.add acc (F64.mul (m kw.1) (F64.lit kw.2)))
            METRIC_WEIGHTS (Fin 0%Q).

Section np_exp.

(** [np.exp] on a finite argument (the C library's [exp], not part of
    the repository). *)
Variable np_exp : Q -> fval Q.

(** [np.exp]: the value at the special arguments is fixed by IEEE 754. *)
Definition np_exp_f64 (x : fval Q) : fval Q :=
  match x with
  | Fin u => np_exp u
  | PInf => PInf
  | NInf => Fin 0%Q
  | NaN => NaN
  end.

(** Line 104 in float64, [100 / (1 + np.exp(-10*(score-0.5)))]. *)
Definition risk_pct_f64 (score : fval Q) : fval Q :=
  F64.div (Fin 100%Q)
    (F64.add (Fin 1%Q)
       (np_exp_f64 (F64.mul (Fin (-10)%Q) (F64.sub score (F64.lit 0.5%Q))))).

End np_exp.

(** One term of the float64 sum, and the float64 score, on finite metrics
    and as long as nothing overflows (lemma [score_f64_finite]). *)
Definition score_step (v : metric -> Q) (acc : Q) (kw : metric * Q) : Q :=
  F64.rnd (acc + F64.rnd (v kw.1 * F64.rnd kw.2)).

Definition score_q (v : metric -> Q) : Q :=
  fold_left (score_step v) METRIC_WEIGHTS 0%Q.

(* ===================================================================== *)
(** ** Arithmetic lemmas                                                 *)
(* ===================================================================== *)

Import FatigueRiskEstimator.

Lemma clip01_range (a : Q) :
  (0 <= Qmin (Qmax a 0) 1)%Q /\ (Qmin (Qmax a 0) 1 <= 1)%Q.
Proof.
  split.
  - apply Q.min_glb; [apply Q.le_max_r | discriminate].
  - apply Q.le_min_r.
Qed.

(** Clipping to [0, 1] gives NaN or a finite value of [0, 1]. *)
Lemma clip01_cases (x : fval Q) :
  F.clip x 0 1 = NaN \/
  exists c, F.clip x 0 1 = Fin c /\ (0 <= c)%Q /\ (c <= 1)%Q.
Proof.
  destruct x as [a| | |]; simpl; [right|right|right|left; reflexivity].
  - exists (Qmin (Qmax a 0) 1). split; [reflexivity | apply clip01_range].
  - exists 1%Q. repeat split; discriminate.
  - exists (Qmin 0 1). repeat split; discriminate.
Qed.

(** A count divided by a nonzero constant and clipped is finite, in [0, 1]. *)
Lemma clip_div_const (n : Z) (d : Q) :
  Qeq_bool d 0 = false ->
  exists c, F.clip (F.div (Fin (inject_Z n)) (Fin d)) 0 1 = Fin c
            /\ (0 <= c)%Q /\ (c <= 1)%Q.
Proof.
  intros Hd. simpl. rewrite Hd. simpl.
  eexists. split; [reflexivity | apply clip01_range].
Qed.

Lemma score_finite (m : metric -> Q) :
  score (finite_metrics m) =
  Fin (0 + m speed_drop * 0.30 + m sprint_count * 0.25
       + m accel_events * 0.15 + m posture_deg * 0.20
       + m stride_reduction * 0.10)%Q.
Proof. reflexivity. Qed.

Lemma score_weighted_sum (m : metric -> Q) :
  exists s, score (finite_metrics m) = Fin s /\ (s == Spec.weighted_sum m)%Q.
Proof.
  eexists. split; [apply score_finite |].
  unfold Spec.weighted_sum, Spec.weight. ring.
Qed.

Lemma score_nan (m : metric -> fval Q) :
  m speed_drop = NaN -> score m = NaN.
Proof.
  intros H. unfold score. simpl. rewrite H. simpl.
  destruct (F.mul (m sprint_count) (Fin 0.25%Q)),
    (F.mul (m accel_events) (Fin 0.15%Q)),
    (F.mul (m posture_deg) (Fin 0.20%Q)),
    (F.mul (m stride_reduction) (Fin 0.10%Q)); reflexivity.
Qed.

Lemma risk_pct_logistic (s : Q) :
  FatigueRiskEstimator.risk_pct (Fin s) = Fin (Spec.logistic (Q2R s)).
Proof. reflexivity. Qed.

Lemma logistic_increasing (s1 s2 : R) :
  (s1 < s2)%R -> (Spec.logistic s1 < Spec.logistic s2)%R.
Proof.
  intros Hlt. unfold Spec.logistic.
  assert (He : (exp (-10 * (s2 - 0.5)) < exp (-10 * (s1 - 0.5)))%R)
    by (apply exp_increasing; lra).
  pose proof (exp_pos (-10 * (s2 - 0.5))) as Hp2.
  pose proof (exp_pos (-10 * (s1 - 0.5))) as Hp1.
  unfold Rdiv. apply Rmult_lt_compat_l; [lra |].
  apply Rinv_lt_contravar; [| lra].
  apply Rmult_lt_0_compat; lra.
Qed.

Lemma logistic_range (s : R) :
  (0 < Spec.logistic s < 100)%R.
Proof.
  unfold Spec.logistic.
  pose proof (exp_pos (-10 * (s - 0.5))) as Hp.
  split.
  - apply Rdiv_lt_0_compat; lra.
  - apply Rmult_lt_reg_r with (1 + exp (-10 * (s - 0.5)))%R; [lra |].
    unfold Rdiv. rewrite Rmult_assoc, Rinv_l by lra. lra.
Qed.

Lemma logistic_midpoint : Spec.logistic 0.5 = 50%R.
Proof.
  unfold Spec.logistic.
  replace (-10 * (0.5 - 0.5))%R with 0%R by lra.
  rewrite exp_0. lra.
Qed.

(* ===================================================================== *)
(** ** The shape of the metrics of a long enough history                 *)
(* ===================================================================== *)

Lemma score_ext (m1 m2 : metric -> fval Q) :
  (forall k, m1 k = m2 k) -> score m1 = score m2.
Proof. intros H. unfold score. simpl. rewrite !H. reflexivity. Qed.

Lemma half_window_negative (self : t) : (- window self) `div` 2 < 0.
Proof.
  unfold window, WINDOW_SEC.
  apply Z.div_lt_upper_bound; lia.
Qed.

Lemma py_slice_from_neg_nonempty {A} (l : list A) (i : Z) :
  i < 0 -> l <> [] -> py_slice_from l i <> [].
Proof.
  intros Hi Hl. unfold py_slice_from.
  assert (Hn : (0 < length l)%nat) by (destruct l; [congruence | simpl; lia]).
  replace (i <? 0) with true by (symmetry; apply Z.ltb_lt; exact Hi).
  intros Hd. apply (f_equal length) in Hd.
  rewrite length_drop in Hd. simpl in Hd. lia.
Qed.

Lemma np_percentile_finite (l : list Q) (p : Q) :
  l <> [] -> exists b, np_percentile l p = Fin b.
Proof. destruct l; [congruence |]. intros _. eexists. reflexivity. Qed.

Lemma np_mean_finite (l : list Q) :
  l <> [] -> exists r, np_mean l = Fin r.
Proof. destruct l; [congruence |]. intros _. eexists. reflexivity. Qed.

(** The baseline and the recent mean of a non-empty history are finite,
    and the speed-drop is the clipped quotient of the two. *)
Lemma speed_drop_shape (self : t) (speeds : list Q) :
  speeds <> [] ->
  exists b r,
    np_percentile speeds 90 = Fin b /\
    np_mean (py_slice_from speeds ((- window self) `div` 2)) = Fin r /\
    metrics self speeds speed_drop =
      F.clip (F.div (Fin (b + - r)%Q) (Fin b)) 0 1.
Proof.
  intros Hne.
  destruct (np_percentile_finite speeds 90 Hne) as [b Hb].
  destruct (np_mean_finite (py_slice_from speeds ((- window self) `div` 2)))
    as [r Hr].
  { apply py_slice_from_neg_nonempty; [apply half_window_negative | exact Hne]. }
  exists b, r. repeat split; try assumption.
  unfold metrics. rewrite Hb, Hr. reflexivity.
Qed.

(** With a nonzero baseline the speed-drop is a finite value of [0, 1]. *)
Lemma speed_drop_finite (self : t) (speeds : list Q) (b : Q) :
  speeds <> [] ->
  np_percentile speeds 90 = Fin b -> ~ (b == 0)%Q ->
  exists c, metrics self speeds speed_drop = Fin c /\ (0 <= c)%Q /\ (c <= 1)%Q.
Proof.
  intros Hne Hb Hnz.
  destruct (speed_drop_shape self speeds Hne) as (b' & r & Hb' & _ & Hsd).
  rewrite Hb in Hb'. injection Hb' as <-.
  rewrite Hsd. simpl.
  destruct (Qeq_bool b 0) eqn:E.
  - apply Qeq_bool_iff in E. contradiction.
  - simpl. eexists. split; [reflexivity | apply clip01_range].
Qed.

Lemma sprint_norm_finite (self : t) (speeds : list Q) :
  exists c, metrics self speeds sprint_count = Fin c /\ (0 <= c)%Q /\ (c <= 1)%Q.
Proof. unfold metrics. apply clip_div_const. reflexivity. Qed.

Lemma accel_norm_finite (self : t) (speeds : list Q) :
  exists c, metrics self speeds accel_events = Fin c /\ (0 <= c)%Q /\ (c <= 1)%Q.
Proof. unfold metrics. apply clip_div_const. reflexivity. Qed.

(** Every history has either five finite sub-metrics in [0, 1] (the two
    placeholders being 0) or a NaN speed-drop. *)
Lemma metrics_cases (self : t) (speeds : list Q) :
  (exists m : metric -> Q,
     (forall k, metrics self speeds k = Fin (m k)) /\
     (forall k, (0 <= m k)%Q /\ (m k <= 1)%Q) /\
     m posture_deg = 0%Q /\ m stride_reduction = 0%Q)
  \/ metrics self speeds speed_drop = NaN.
Proof.
  destruct (clip01_cases
              (F.div (F.sub (np_percentile speeds 90)
                            (np_mean (py_slice_from speeds
                                        ((- window self) `div` 2))))
                     (np_percentile speeds 90))) as [Hnan | (c & Hc & Hc0 & Hc1)].
  - right. exact Hnan.
  - left.
    destruct (sprint_norm_finite self speeds) as (sn & Hsn & Hsn0 & Hsn1).
    destruct (accel_norm_finite self speeds) as (an & Han & Han0 & Han1).
    exists (fun k => match k with
                     | speed_drop => c
                     | sprint_count => sn
                     | accel_events => an
                     | posture_deg => 0%Q
                     | stride_reduction => 0%Q
                     end).
    split; [| split; [| split; reflexivity]].
    + intros []; try assumption; reflexivity.
    + intros []; split; try assumption; discriminate.
Qed.

Lemma compute_fatigue_long (self : t) (pid : Z) :
  (5 <= length (history_of self pid))%nat ->
  _compute_fatigue self pid =
    FatigueRiskEstimator.risk_pct (score (metrics self (history_of self pid))).
Proof.
  intros H. unfold _compute_fatigue.
  replace (Z.of_nat (length (history_of self pid)) <? 5) with false;
    [reflexivity |].
  symmetry. apply Z.ltb_ge. lia.
Qed.

Lemma compute_fatigue_finite_metrics (self : t) (pid : Z) (m : metric -> Q) :
  (5 <= length (history_of self pid))%nat ->
  (forall k, metrics self (history_of self pid) k = Fin (m k)) ->
  _compute_fatigue self pid = Fin (Spec.logistic (Q2R (Spec.weighted_sum m))).
Proof.
  intros Hlen Hm. rewrite compute_fatigue_long by exact Hlen.
  rewrite (score_ext _ (finite_metrics m)) by exact Hm.
  destruct (score_weighted_sum m) as (s & Hs & Heq).
  rewrite Hs, risk_pct_logistic. f_equal. f_equal. apply Qeq_eqR. exact Heq.
Qed.

Lemma weighted_sum_range (m : metric -> Q) :
  (forall k, (0 <= m k)%Q /\ (m k <= 1)%Q) ->
  (0 <= Q2R (Spec.weighted_sum m) <= 1)%R.
Proof.
  intros Hm.
  assert (H0 : (0 <= Spec.weighted_sum m)%Q /\ (Spec.weighted_sum m <= 1)%Q).
  { unfold Spec.weighted_sum, Spec.weight.
    pose proof (Hm speed_drop). pose proof (Hm sprint_count).
    pose proof (Hm accel_events). pose proof (Hm posture_deg).
    pose proof (Hm stride_reduction). split; lra. }
  destruct H0 as [Hlo Hhi].
  apply Qle_Rle in Hlo. apply Qle_Rle in Hhi.
  replace (Q2R 0) with 0%R in Hlo by (unfold Q2R; simpl; lra).
  replace (Q2R 1) with 1%R in Hhi by (unfold Q2R; simpl; lra).
  split; assumption.
Qed.

Lemma compute_fatigue_short (self : t) (pid : Z) :
  (length (history_of self pid) < 5)%nat ->
  _compute_fatigue self pid = Fin 0%R.
Proof.
  intros H. unfold _compute_fatigue.
  replace (Z.of_nat (length (history_of self pid)) <? 5) with true;
    [reflexivity |].
  symmetry. apply Z.ltb_lt. lia.
Qed.

Lemma history_of_missing (self : t) (pid : Z) :
  history self !! pid = None -> history_of self pid = [].
Proof. intros H. unfold history_of. rewrite H. reflexivity. Qed.

(** A history whose baseline and recent mean are both zero has a NaN
    speed-drop: the quotient is [0/0]. *)
Lemma speed_drop_zero_over_zero (self : t) (speeds : list Q) (b r : Q) :
  np_percentile speeds 90 = Fin b ->
  np_mean (py_slice_from speeds ((- window self) `div` 2)) = Fin r ->
  (b == 0)%Q -> (r == 0)%Q ->
  metrics self speeds speed_drop = NaN.
Proof.
  intros Hb Hr Hb0 Hr0. unfold metrics. rewrite Hb, Hr. simpl.
  replace (Qeq_bool b 0) with true by (symmetry; apply Qeq_bool_iff; exact Hb0).
  unfold F.sgn.
  replace (b + - r ?= 0)%Q with Eq; [reflexivity |].
  symmetry. apply Qeq_alt. rewrite Hb0, Hr0. reflexivity.
Qed.

(** A risk computed from a long enough history is never the value 0.0. *)
Lemma compute_fatigue_long_nonzero (self : t) (pid : Z) :
  (5 <= length (history_of self pid))%nat ->
  _compute_fatigue self pid <> Fin 0%R.
Proof.
  intros Hlen.
  destruct (metrics_cases self (history_of self pid))
    as [(v & Hv & _) | Hnan].
  - rewrite (compute_fatigue_finite_metrics self pid v Hlen Hv).
    intros Heq. injection Heq as Heq.
    pose proof (logistic_range (Q2R (Spec.weighted_sum v))). lra.
  - rewrite compute_fatigue_long by exact Hlen.
    rewrite score_nan by exact Hnan. discriminate.
Qed.

(* ===================================================================== *)
(** ** Numeric bounds on [exp 5]                                         *)
(* ===================================================================== *)

Lemma exp_double_lower (a c t t2 : R) :
  (t2 = t + t)%R -> (0 < a)%R -> (a <= exp t)%R -> (c <= a * a)%R ->
  (c <= exp t2)%R.
Proof. intros -> Ha Hle Hc. rewrite exp_plus. nra. Qed.

Lemma exp_double_upper (b c t t2 : R) :
  (t2 = t + t)%R -> (exp t <= b)%R -> (b * b <= c)%R -> (exp t2 <= c)%R.
Proof.
  intros -> Hle Hc. rewrite exp_plus. pose proof (exp_pos t). nra.
Qed.

(** [(1 + 5/2048)^2048 <= e^5], squaring eleven times and rounding down. *)
Lemma exp_5_lower : (147 < exp 5)%R.
Proof.
  assert (H0 : (1.002441406250 <= exp (5 / 2048))%R).
  { left. replace 1.002441406250%R with (1 + 5 / 2048)%R by lra.
    apply exp_ineq1. lra. }
  assert (H1 : (1.004888772964 <= exp (5 / 1024))%R)
    by (apply (exp_double_lower 1.002441406250 _ (5 / 2048)); [lra | lra | exact H0 | lra]).
  assert (H2 : (1.009801446029 <= exp (5 / 512))%R)
    by (apply (exp_double_lower 1.004888772964 _ (5 / 1024)); [lra | lra | exact H1 | lra]).
  assert (H3 : (1.019698960402 <= exp (5 / 256))%R)
    by (apply (exp_double_lower 1.009801446029 _ (5 / 512)); [lra | lra | exact H2 | lra]).
  assert (H4 : (1.039785969844 <= exp (5 / 128))%R)
    by (apply (exp_double_lower 1.019698960402 _ (5 / 256)); [lra | lra | exact H3 | lra]).
  assert (H5 : (1.081154863084 <= exp (5 / 64))%R)
    by (apply (exp_double_lower 1.039785969844 _ (5 / 128)); [lra | lra | exact H4 | lra]).
  assert (H6 : (1.168895837970 <= exp (5 / 32))%R)
    by (apply (exp_double_lower 1.081154863084 _ (5 / 64)); [lra | lra | exact H5 | lra]).
  assert (H7 : (1.366317480023 <= exp (5 / 16))%R)
    by (apply (exp_double_lower 1.168895837970 _ (5 / 32)); [lra | lra | exact H6 | lra]).
  assert (H8 : (1.866823456216 <= exp (5 / 8))%R)
    by (apply (exp_double_lower 1.366317480023 _ (5 / 16)); [lra | lra | exact H7 | lra]).
  assert (H9 : (3.485029816678 <= exp (5 / 4))%R)
    by (apply (exp_double_lower 1.866823456216 _ (5 / 8)); [lra | lra | exact H8 | lra]).
  assert (H10 : (12.145432823134 <= exp (5 / 2))%R)
    by (apply (exp_double_lower 3.485029816678 _ (5 / 4)); [lra | lra | exact H9 | lra]).
  assert (H11 : (147.511538461260 <= exp 5)%R)
    by (apply (exp_double_lower 12.145432823134 _ (5 / 2)); [lra | lra | exact H10 | lra]).
  lra.
Qed.

(** [e^5 <= (1 / (1 - 5/2048))^2048], squaring eleven times and rounding
    up. *)
Lemma exp_5_upper : (exp 5 < 150)%R.
Proof.
  assert (H0 : (exp (5 / 2048) <= 1.002447381303)%R).
  { pose proof (exp_ineq1 (- (5 / 2048))) as Hm.
    pose proof (exp_pos (5 / 2048)) as Hp.
    assert (He : (exp (5 / 2048) * exp (- (5 / 2048)) = 1)%R).
    { rewrite <- exp_plus. replace (5 / 2048 + - (5 / 2048))%R with 0%R by lra.
      apply exp_0. }
    assert (Hm' : (1 + - (5 / 2048) < exp (- (5 / 2048)))%R)
      by (apply Hm; lra).
    nra. }
  assert (H1 : (exp (5 / 1024) <= 1.004900752282)%R)
    by (apply (exp_double_upper 1.002447381303 _ (5 / 2048)); [lra | exact H0 | lra]).
  assert (H2 : (exp (5 / 512) <= 1.009825521937)%R)
    by (apply (exp_double_upper 1.004900752282 _ (5 / 1024)); [lra | exact H1 | lra]).
  assert (H3 : (exp (5 / 256) <= 1.019747584756)%R)
    by (apply (exp_double_upper 1.009825521937 _ (5 / 512)); [lra | exact H2 | lra]).
  assert (H4 : (exp (5 / 128) <= 1.039885136616)%R)
    by (apply (exp_double_upper 1.019747584756 _ (5 / 256)); [lra | exact H3 | lra]).
  assert (H5 : (exp (5 / 64) <= 1.081361097355)%R)
    by (apply (exp_double_upper 1.039885136616 _ (5 / 128)); [lra | exact H4 | lra]).
  assert (H6 : (exp (5 / 32) <= 1.169341822873)%R)
    by (apply (exp_double_upper 1.081361097355 _ (5 / 64)); [lra | exact H5 | lra]).
  assert (H7 : (exp (5 / 16) <= 1.367360298720)%R)
    by (apply (exp_double_upper 1.169341822873 _ (5 / 32)); [lra | exact H6 | lra]).
  assert (H8 : (exp (5 / 8) <= 1.869674186516)%R)
    by (apply (exp_double_upper 1.367360298720 _ (5 / 16)); [lra | exact H7 | lra]).
  assert (H9 : (exp (5 / 4) <= 3.495681563725)%R)
    by (apply (exp_double_upper 1.869674186516 _ (5 / 8)); [lra | exact H8 | lra]).
  assert (H10 : (exp (5 / 2) <= 12.219789594967)%R)
    by (apply (exp_double_upper 3.495681563725 _ (5 / 4)); [lra | exact H9 | lra]).
  assert (H11 : (exp 5 <= 149.323257745264)%R)
    by (apply (exp_double_upper 12.219789594967 _ (5 / 2)); [lra | exact H10 | lra]).
  lra.
Qed.

(** The two ends of the logistic curve on [0, 1]: about 0.67 and 99.33. *)
Lemma logistic_ends :
  (0.66 < 100 / (1 + exp 5) < 0.68)%R /\
  (99.32 < 100 / (1 + exp (-5)) < 99.34)%R.
Proof.
  pose proof exp_5_lower as Hlo. pose proof exp_5_upper as Hhi.
  assert (He : (exp 5 * exp (-5) = 1)%R).
  { rewrite <- exp_plus. replace (5 + -5)%R with 0%R by lra. apply exp_0. }
  pose proof (exp_pos (-5)) as Hp.
  assert (Hm : (1 / 150 < exp (-5) < 1 / 147)%R) by (split; nra).
  split; split.
  - apply Rmult_lt_reg_r with (1 + exp 5)%R; [lra |].
    unfold Rdiv. rewrite Rmult_assoc, Rinv_l by lra. lra.
  - apply Rmult_lt_reg_r with (1 + exp 5)%R; [lra |].
    unfold Rdiv. rewrite Rmult_assoc, Rinv_l by lra. lra.
  - apply Rmult_lt_reg_r with (1 + exp (-5))%R; [lra |].
    unfold Rdiv. rewrite Rmult_assoc, Rinv_l by lra. lra.
  - apply Rmult_lt_reg_r with (1 + exp (-5))%R; [lra |].
    unfold Rdiv. rewrite Rmult_assoc, Rinv_l by lra. lra.
Qed.

(* ===================================================================== *)
(** ** Claims about [_compute_fatigue]                                   *)
(* ===================================================================== *)

(** C5.  An entity whose History Window holds fewer than 5 samples has a
    computed risk of exactly 0.0, a defined value; so has an entity for
    which no sample was ever recorded (no entry in [history]). *)
Theorem compute_fatigue_insufficient_history (self : t) (pid : Z) :
  (length (history_of self pid) < 5)%nat \/ history self !! pid = None ->
  _compute_fatigue self pid = Fin 0%R.
Proof.
  intros [Hlen | Hnone]; apply compute_fatigue_short; [exact Hlen |].
  rewrite history_of_missing by exact Hnone. simpl. lia.
Qed.

Lemma compute_fatigue_insufficient_history_witness :
  _compute_fatigue (mk 24 {[ 1 := [2; 3; 2.5]%Q ]} ∅) 1 = Fin 0%R
  /\ _compute_fatigue (init 24) 1 = Fin 0%R.
Proof.
  split.
  - apply compute_fatigue_insufficient_history. left. vm_compute. lia.
  - apply compute_fatigue_insufficient_history. right. reflexivity.
Defined.

(** C2 (the code at the failing input).  Five samples of speed 0: the
    90th-percentile baseline is 0, the quotient [(baseline - recent) /
    baseline] is [0/0], and the NaN goes through the clip, the weighted
    sum and the logistic curve: the risk returned is NaN, not a value of
    the 0-100 scale.  So a player seen standing still from frame 716 on
    gets NaN written into its record at frame 720. *)
Theorem compute_fatigue_zero_baseline_nan :
  let self := mk 24 {[ 7 := [0; 0; 0; 0; 0]%Q ]} ∅ in
  (exists b, np_percentile (history_of self 7) 90 = Fin b /\ (b == 0)%Q)
  /\ metrics self (history_of self 7) speed_drop = NaN
  /\ _compute_fatigue self 7 = NaN
  /\ (let still := Track.mk (0, 0, 10, 20)%Q (Some 0%Q) (Some 12%Q)
                            None None None None in
      let before := mk 24 {[ 7 := [0; 0; 0; 0]%Q ]} {[ 7 := Fin 0%R ]} in
      (update_metrics before 720 {[ 7 := still ]}).2 !! 7
      = Some (Track.set_risk NaN still)).
Proof.
  intros self.
  assert (Hh : history_of self 7 = [0; 0; 0; 0; 0]%Q) by reflexivity.
  assert (Hsd : metrics self (history_of self 7) speed_drop = NaN).
  { rewrite Hh. vm_compute. reflexivity. }
  split; [| split; [| split]].
  - rewrite Hh. eexists. split; [reflexivity |]. vm_compute. reflexivity.
  - exact Hsd.
  - rewrite compute_fatigue_long by (rewrite Hh; simpl; lia).
    rewrite score_nan by exact Hsd. reflexivity.
  - vm_compute. reflexivity.
Qed.

(** C6.  For a history of at least 5 samples the risk returned is
    [100 / (1 + exp(-10 * (score - 0.5)))], [score] being the weighted sum
    of the five normalized metrics with the weights 0.30, 0.25, 0.15, 0.20
    and 0.10, which sum to 1; a score of exactly 0.5 gives exactly 50.
    (Every history has five finite metrics or a NaN speed-drop, and a NaN
    speed-drop gives a NaN score and risk.) *)
Theorem compute_fatigue_is_weighted_logistic (self : t) (pid : Z) :
  (5 <= length (history_of self pid))%nat ->
  let m := metrics self (history_of self pid) in
  (forall v : metric -> Q, (forall k, m k = Fin (v k)) ->
     _compute_fatigue self pid = Fin (Spec.logistic (Q2R (Spec.weighted_sum v))))
  /\ (m speed_drop = NaN -> _compute_fatigue self pid = NaN)
  /\ ((exists v : metric -> Q, forall k, m k = Fin (v k)) \/ m speed_drop = NaN)
  /\ (Spec.weight speed_drop + Spec.weight sprint_count
      + Spec.weight accel_events + Spec.weight posture_deg
      + Spec.weight stride_reduction == 1)%Q
  /\ (forall s, score m = Fin s -> (s == 0.5)%Q ->
        _compute_fatigue self pid = Fin 50%R).
Proof.
  intros Hlen m. repeat split.
  - intros v Hv. apply compute_fatigue_finite_metrics; assumption.
  - intros Hnan. rewrite compute_fatigue_long by exact Hlen.
    fold m. rewrite score_nan by exact Hnan. reflexivity.
  - destruct (metrics_cases self (history_of self pid))
      as [(v & Hv & _) | Hnan]; [left; exists v; exact Hv | right; exact Hnan].
  - intros s Hs Hhalf. rewrite compute_fatigue_long by exact Hlen.
    fold m. rewrite Hs, risk_pct_logistic. f_equal.
    rewrite (Qeq_eqR _ _ Hhalf).
    replace (Q2R 0.5) with 0.5%R by (unfold Q2R; simpl; lra).
    apply logistic_midpoint.
Qed.

Lemma compute_fatigue_is_weighted_logistic_witness :
  let self := mk 24 {[ 1 := [2; 2; 2; 2; 2; 2]%Q ]} ∅ in
  (5 <= length (history_of self 1))%nat /\
  forall v : metric -> Q,
    (forall k, metrics self (history_of self 1) k = Fin (v k)) ->
    _compute_fatigue self 1 = Fin (Spec.logistic (Q2R (Spec.weighted_sum v))).
Proof.
  intros self.
  assert (Hlen : (5 <= length (history_of self 1))%nat) by (vm_compute; lia).
  split; [exact Hlen |].
  exact (proj1 (compute_fatigue_is_weighted_logistic self 1 Hlen)).
Defined.

(* ===================================================================== *)
(** ** float64: rounding to nearest never reverses an order              *)
(* ===================================================================== *)

Lemma Qfloor_unique (x : Q) (k : Z) :
  (inject_Z k <= x)%Q -> (x < inject_Z (k + 1))%Q -> Qfloor x = k.
Proof.
  intros Hlo Hhi.
  pose proof (Qfloor_le x) as H1. pose proof (Qlt_floor x) as H2.
  assert (A : (inject_Z k < inject_Z (Qfloor x + 1))%Q) by lra.
  assert (B : (inject_Z (Qfloor x) < inject_Z (k + 1))%Q) by lra.
  rewrite <- Zlt_Qlt in A, B. lia.
Qed.

Lemma round_half_even_cases (y : Q) :
  let f := Qfloor y in
  (round_half_even y = f /\ (y - inject_Z f <= 1 # 2)%Q) \/
  (round_half_even y = f + 1 /\ (1 # 2 <= y - inject_Z f)%Q).
Proof.
  intros f. unfold round_half_even. fold f.
  destruct (Qcompare_spec (y - inject_Z f) (1 # 2)) as [H | H | H].
  - destruct (Z.even f); [left | right]; split; try reflexivity; lra.
  - left. split; [reflexivity | lra].
  - right. split; [reflexivity | lra].
Qed.

Lemma round_half_even_le (y : Q) (k : Z) :
  (y <= inject_Z k)%Q -> round_half_even y <= k.
Proof.
  intros Hy. pose proof (Qfloor_le y) as H1. pose proof (Qlt_floor y) as H2.
  assert (Hf : Qfloor y <= k).
  { assert (A : (inject_Z (Qfloor y) <= inject_Z k)%Q) by lra.
    rewrite <- Zle_Qle in A. exact A. }
  destruct (round_half_even_cases y) as [[-> _] | [-> Hh]]; [exact Hf |].
  destruct (Z.eq_dec (Qfloor y) k) as [E | E]; [| lia].
  exfalso. rewrite E in Hh. lra.
Qed.

Lemma round_half_even_ge (y : Q) (k : Z) :
  (inject_Z k <= y)%Q -> k <= round_half_even y.
Proof.
  intros Hy. pose proof (Qfloor_le y) as H1. pose proof (Qlt_floor y) as H2.
  assert (Hf : k <= Qfloor y).
  { assert (A : (inject_Z k < inject_Z (Qfloor y + 1))%Q) by lra.
    rewrite <- Zlt_Qlt in A. lia. }
  destruct (round_half_even_cases y) as [[-> _] | [-> _]]; lia.
Qed.

Lemma round_half_even_mono (x y : Q) :
  (x <= y)%Q -> round_half_even x <= round_half_even y.
Proof.
  intros Hxy.
  pose proof (Qfloor_le x) as X1. pose proof (Qlt_floor x) as X2.
  pose proof (Qfloor_le y) as Y1. pose proof (Qlt_floor y) as Y2.
  assert (Hf : Qfloor x <= Qfloor y) by (apply Qfloor_resp_le; exact Hxy).
  destruct (Z.eq_dec (Qfloor x) (Qfloor y)) as [E | E].
  - unfold round_half_even. rewrite <- E.
    destruct (Qcompare_spec (x - inject_Z (Qfloor x)) (1 # 2)) as [A | A | A];
      destruct (Qcompare_spec (y - inject_Z (Qfloor x)) (1 # 2)) as [B | B | B];
      try (destruct (Z.even (Qfloor x))); try lia; exfalso; lra.
  - destruct (round_half_even_cases x) as [[-> _] | [-> _]];
      destruct (round_half_even_cases y) as [[-> _] | [-> _]]; lia.
Qed.

Lemma round_half_even_opp (y : Q) :
  round_half_even (- y) = - round_half_even y.
Proof.
  pose proof (Qfloor_le y) as Y1. pose proof (Qlt_floor y) as Y2.
  set (f := Qfloor y) in *.
  rewrite inject_Z_plus in Y2. change (inject_Z 1) with 1%Q in Y2.
  destruct (Qeq_dec y (inject_Z f)) as [E | E].
  - assert (F : Qfloor (- y) = - f).
    { apply Qfloor_unique; rewrite ?inject_Z_plus, inject_Z_opp;
        change (inject_Z 1) with 1%Q; lra. }
    unfold round_half_even. rewrite F. fold f.
    rewrite inject_Z_opp.
    destruct (Qcompare_spec (- y - - inject_Z f) (1 # 2)) as [A | A | A];
      destruct (Qcompare_spec (y - inject_Z f) (1 # 2)) as [B | B | B];
      try reflexivity; exfalso; lra.
  - assert (F : Qfloor (- y) = - f - 1).
    { apply Qfloor_unique.
      - unfold Z.sub. rewrite inject_Z_plus, !inject_Z_opp.
        change (inject_Z 1) with 1%Q. lra.
      - replace (- f - 1 + 1) with (- f) by lia. rewrite inject_Z_opp.
        assert (inject_Z f < y)%Q; [| lra].
        apply Qle_lteq in Y1 as [H | H]; [exact H |].
        exfalso. apply E. symmetry. exact H. }
    unfold round_half_even. rewrite F. fold f.
    unfold Z.sub at 1. rewrite inject_Z_plus, !inject_Z_opp.
    change (inject_Z 1) with 1%Q.
    assert (Ev : Z.even (- f - 1) = negb (Z.even f)).
    { replace (- f - 1) with (- (f + 1)) by lia.
      rewrite Z.even_opp. replace (f + 1) with (Z.succ f) by lia.
      rewrite Z.even_succ. symmetry. apply Z.negb_even. }
    rewrite Ev.
    destruct (Qcompare_spec (- y - (- inject_Z f + - (1))) (1 # 2)) as [A | A | A];
      destruct (Qcompare_spec (y - inject_Z f) (1 # 2)) as [B | B | B];
      try (destruct (Z.even f); simpl); try lia; exfalso; lra.
Qed.

(** ** Powers of two and the binary logarithm *)

Lemma pow2_pos (k : Z) : (0 < 2 ^ k)%Q.
Proof. apply Qpower_0_lt. reflexivity. Qed.

Lemma pow2_add (a b : Z) : (2 ^ (a + b) == 2 ^ a * 2 ^ b)%Q.
Proof. apply Qpower_plus. discriminate. Qed.

Lemma pow2_succ (a : Z) : (2 ^ (a + 1) == 2 * 2 ^ a)%Q.
Proof. rewrite pow2_add. change (2 ^ 1)%Q with 2%Q. ring. Qed.

Lemma pow2_le (a b : Z) : a <= b -> (2 ^ a <= 2 ^ b)%Q.
Proof. intros H. apply Qpower_le_compat_l; [exact H | discriminate]. Qed.

Lemma pow2_lt_inv (a b : Z) : (2 ^ a < 2 ^ b)%Q -> a < b.
Proof.
  intros H. destruct (Z_lt_le_dec a b) as [L | L]; [exact L |].
  exfalso. pose proof (pow2_le b a L). lra.
Qed.

Lemma pow2_inject (a : Z) : 0 <= a -> (inject_Z (2 ^ a) == 2 ^ a)%Q.
Proof. intros H. rewrite Zpower_Qpower by exact H. reflexivity. Qed.

Lemma Qlog2_spec (q : Q) :
  (0 < q)%Q -> (2 ^ F64.Qlog2 q <= q)%Q /\ (q < 2 ^ (F64.Qlog2 q + 1))%Q.
Proof.
  intros Hq. destruct q as [n d]. unfold F64.Qlog2. simpl Qnum. simpl Qden.
  assert (Hn : 0 < n) by (unfold Qlt in Hq; simpl in Hq; lia).
  pose proof (Z.log2_spec n Hn) as [N1 N2].
  pose proof (Z.log2_spec (Z.pos d) (Pos2Z.is_pos d)) as [D1 D2].
  pose proof (Z.log2_nonneg n) as An. pose proof (Z.log2_nonneg (Z.pos d)) as Ad.
  set (a := Z.log2 n) in *. set (b := Z.log2 (Z.pos d)) in *.
  assert (Eq : (n # d == inject_Z n / inject_Z (Z.pos d))%Q)
    by apply Qmake_Qdiv.
  assert (Dpos : (0 < inject_Z (Z.pos d))%Q) by reflexivity.
  rewrite Zle_Qle, pow2_inject in N1 by exact An.
  rewrite Zlt_Qlt, pow2_inject in N2 by lia.
  rewrite Zle_Qle, pow2_inject in D1 by exact Ad.
  rewrite Zlt_Qlt, pow2_inject in D2 by lia.
  replace (Z.succ a) with (a + 1) in N2 by lia.
  replace (Z.succ b) with (b + 1) in D2 by lia.
  rewrite pow2_succ in N2, D2.
  pose proof (pow2_pos a) as Pa. pose proof (pow2_pos b) as Pb.
  assert (Ek : (2 ^ (a - b) * 2 ^ b == 2 ^ a)%Q).
  { rewrite <- pow2_add. replace (a - b + b) with a by lia. reflexivity. }
  pose proof (pow2_pos (a - b)) as Pk.
  set (N := inject_Z n) in *. set (D := inject_Z (Z.pos d)) in *.
  set (A := (2 ^ a)%Q) in *. set (B := (2 ^ b)%Q) in *.
  set (K := (2 ^ (a - b))%Q) in *.
  assert (Et : (N / D * D == N)%Q) by (field; lra).
  set (t := (N / D)%Q) in *.
  (* K/2 < t < 2K *)
  assert (T1 : (K < 2 * t)%Q) by nra.
  assert (T2 : (t < 2 * K)%Q) by nra.
  destruct (Qle_bool K (n # d)) eqn:Hb.
  - apply Qle_bool_iff in Hb. split; [exact Hb |].
    rewrite pow2_succ. fold K. rewrite Eq. lra.
  - assert (Hlt : (n # d < K)%Q).
    { apply Qnot_le_lt. intros H. apply Qle_bool_iff in H. congruence. }
    replace (a - b - 1 + 1) with (a - b) by lia. fold K.
    split; [| exact Hlt].
    assert (E2 : (2 * 2 ^ (a - b - 1) == K)%Q).
    { rewrite <- pow2_succ. replace (a - b - 1 + 1) with (a - b) by lia.
      reflexivity. }
    rewrite Eq. fold t. lra.
Qed.

Lemma Qlog2_unique (q : Q) (k : Z) :
  (2 ^ k <= q)%Q -> (q < 2 ^ (k + 1))%Q -> F64.Qlog2 q = k.
Proof.
  intros H1 H2.
  assert (Hq : (0 < q)%Q) by (pose proof (pow2_pos k); lra).
  destruct (Qlog2_spec q Hq) as [S1 S2].
  assert (A : F64.Qlog2 q < k + 1) by (apply pow2_lt_inv; lra).
  assert (B : k < F64.Qlog2 q + 1) by (apply pow2_lt_inv; lra).
  lia.
Qed.

Lemma Qlog2_mono (x y : Q) :
  (0 < x)%Q -> (x <= y)%Q -> F64.Qlog2 x <= F64.Qlog2 y.
Proof.
  intros Hx Hxy.
  destruct (Qlog2_spec x Hx) as [X1 _].
  destruct (Qlog2_spec y ltac:(lra)) as [_ Y2].
  assert (A : F64.Qlog2 x < F64.Qlog2 y + 1) by (apply pow2_lt_inv; lra).
  lia.
Qed.

(** ** Rounding to binary64 is monotone *)

Lemma round_half_even_comp (x y : Q) :
  (x == y)%Q -> round_half_even x = round_half_even y.
Proof.
  intros E. apply Z.le_antisymm; apply round_half_even_mono; lra.
Qed.

Lemma Qabs_nonneg_eq (q : Q) : (0 <= q)%Q -> Qabs q = q.
Proof.
  destruct q as [n d]. unfold Qle. simpl. intros H.
  rewrite Z.abs_eq by lia. reflexivity.
Qed.

Lemma Qabs_opp_eq (q : Q) : Qabs (- q) = Qabs q.
Proof. destruct q as [n d]. simpl. rewrite Z.abs_opp. reflexivity. Qed.

Lemma ulp_pos (q : Q) : (0 < F64.ulp q)%Q.
Proof. apply pow2_pos. Qed.

Lemma ulp_opp (q : Q) : F64.ulp (- q) = F64.ulp q.
Proof. unfold F64.ulp. rewrite Qabs_opp_eq. reflexivity. Qed.

Lemma rnd_eq (q : Q) :
  (F64.rnd q == inject_Z (round_half_even (q / F64.ulp q)) * F64.ulp q)%Q.
Proof. apply Qred_correct. Qed.

Lemma rnd_opp (q : Q) : (F64.rnd (- q) == - F64.rnd q)%Q.
Proof.
  rewrite !rnd_eq, ulp_opp.
  pose proof (ulp_pos q) as U.
  rewrite (round_half_even_comp (- q / F64.ulp q) (- (q / F64.ulp q)))
    by (field; lra).
  rewrite round_half_even_opp, inject_Z_opp. ring.
Qed.

Lemma rnd_nonneg (q : Q) : (0 <= q)%Q -> (0 <= F64.rnd q)%Q.
Proof.
  intros H. rewrite rnd_eq. pose proof (ulp_pos q) as U.
  apply Qmult_le_0_compat; [| lra].
  change 0%Q with (inject_Z 0). rewrite <- Zle_Qle.
  apply round_half_even_ge. change (inject_Z 0) with 0%Q.
  apply Qle_shift_div_l; [exact U | lra].
Qed.

Lemma rnd_nonpos (q : Q) : (q <= 0)%Q -> (F64.rnd q <= 0)%Q.
Proof.
  intros H. pose proof (rnd_nonneg (- q) ltac:(lra)) as P.
  rewrite rnd_opp in P. lra.
Qed.

(** A positive number of the binade [[2^e, 2^(e+1))] rounds into
    [[2^e, 2^(e+1)]]; below the normal range the lower bound is 0. *)
Lemma rnd_binade (q : Q) :
  (0 < q)%Q ->
  let e := Z.max (F64.Qlog2 q) (-1022) in
  (F64.rnd q <= 2 ^ (e + 1))%Q /\
  (-1022 <= F64.Qlog2 q -> (2 ^ e <= F64.rnd q)%Q).
Proof.
  intros Hq e. destruct (Qlog2_spec q Hq) as [L1 L2].
  assert (Hu : F64.ulp q = (2 ^ (e - 52))%Q).
  { unfold F64.ulp. rewrite Qabs_nonneg_eq by lra. reflexivity. }
  pose proof (pow2_pos (e - 52)) as U.
  assert (E53 : (2 ^ (e + 1) == inject_Z (2 ^ 53) * 2 ^ (e - 52))%Q).
  { rewrite pow2_inject by lia. rewrite <- pow2_add. f_equiv. lia. }
  assert (E52 : (2 ^ e == inject_Z (2 ^ 52) * 2 ^ (e - 52))%Q).
  { rewrite pow2_inject by lia. rewrite <- pow2_add. f_equiv. lia. }
  rewrite rnd_eq, Hu. split.
  - rewrite E53. apply Qmult_le_compat_r; [| lra].
    rewrite <- Zle_Qle. apply round_half_even_le.
    apply Qle_shift_div_r; [exact U |]. rewrite <- E53.
    pose proof (pow2_le (F64.Qlog2 q + 1) (e + 1) ltac:(lia)). lra.
  - intros Hn. rewrite E52. apply Qmult_le_compat_r; [| lra].
    rewrite <- Zle_Qle. apply round_half_even_ge.
    apply Qle_shift_div_l; [exact U |]. rewrite <- E52.
    replace e with (F64.Qlog2 q) by lia. exact L1.
Qed.

Lemma rnd_mono_pos (x y : Q) :
  (0 < x)%Q -> (x <= y)%Q -> (F64.rnd x <= F64.rnd y)%Q.
Proof.
  intros Hx Hxy. assert (Hy : (0 < y)%Q) by lra.
  pose proof (Qlog2_mono x y Hx Hxy) as Hl.
  pose proof (rnd_binade x Hx) as [Xhi _].
  pose proof (rnd_binade y Hy) as [_ Ylo].
  set (ex := Z.max (F64.Qlog2 x) (-1022)) in *.
  set (ey := Z.max (F64.Qlog2 y) (-1022)) in *.
  destruct (Z.eq_dec ex ey) as [E | E].
  - rewrite !rnd_eq. unfold F64.ulp.
    rewrite !Qabs_nonneg_eq by lra. fold ex ey. rewrite <- E.
    pose proof (pow2_pos (ex - 52)) as U.
    apply Qmult_le_compat_r; [| lra].
    rewrite <- Zle_Qle. apply round_half_even_mono.
    apply Qmult_le_compat_r; [exact Hxy |].
    apply Qlt_le_weak, Qinv_lt_0_compat, U.
  - assert (Hlt : ex < ey) by lia.
    specialize (Ylo ltac:(lia)).
    pose proof (pow2_le (ex + 1) ey ltac:(lia)). lra.
Qed.

(** Rounding to nearest never reverses an order. *)
Lemma rnd_mono (x y : Q) : (x <= y)%Q -> (F64.rnd x <= F64.rnd y)%Q.
Proof.
  intros Hxy.
  destruct (Qlt_le_dec 0 x) as [Hx | Hx].
  - apply rnd_mono_pos; assumption.
  - destruct (Qlt_le_dec y 0) as [Hy | Hy].
    + pose proof (rnd_mono_pos (- y) (- x) ltac:(lra) ltac:(lra)) as P.
      rewrite !rnd_opp in P. lra.
    + pose proof (rnd_nonpos x Hx). pose proof (rnd_nonneg y Hy). lra.
Qed.

Lemma rnd_comp (x y : Q) : (x == y)%Q -> (F64.rnd x == F64.rnd y)%Q.
Proof. intros E. apply Qle_antisym; apply rnd_mono; lra. Qed.

(** ** The float64 operations on values that stay in range *)

Lemma round_half_even_inject (k : Z) : round_half_even (inject_Z k) = k.
Proof.
  apply Z.le_antisymm;
    [apply round_half_even_le | apply round_half_even_ge]; lra.
Qed.

Lemma rnd_2048 : (F64.rnd 2048 == 2048)%Q.
Proof. vm_compute. reflexivity. Qed.

Lemma rnd_m2048 : (F64.rnd (-2048) == -2048)%Q.
Proof. vm_compute. reflexivity. Qed.

Lemma round_fin (q : Q) :
  (-2048 <= q <= 2048)%Q -> F64.round (Fin q) = Fin (F64.rnd q).
Proof.
  intros [Hlo Hhi].
  pose proof (rnd_mono _ _ Hlo) as L. pose proof (rnd_mono _ _ Hhi) as U.
  rewrite rnd_m2048 in L. rewrite rnd_2048 in U.
  assert (B : (2048 < 2 ^ 1024)%Q) by reflexivity.
  unfold F64.round. cbv zeta.
  destruct (Qle_bool (2 ^ 1024) (F64.rnd q)) eqn:E1.
  { apply Qle_bool_iff in E1. exfalso. lra. }
  destruct (Qle_bool (F64.rnd q) (- 2 ^ 1024)) eqn:E2.
  { apply Qle_bool_iff in E2. exfalso. lra. }
  reflexivity.
Qed.

Lemma f64_add_fin (a b : Q) :
  (-2048 <= a + b <= 2048)%Q ->
  F64.add (Fin a) (Fin b) = Fin (F64.rnd (a + b)).
Proof. intros H. unfold F64.add. simpl. apply round_fin, H. Qed.

Lemma f64_sub_fin (a b : Q) :
  (-2048 <= a + - b <= 2048)%Q ->
  F64.sub (Fin a) (Fin b) = Fin (F64.rnd (a + - b)).
Proof. intros H. unfold F64.sub, F.sub. simpl. apply round_fin, H. Qed.

Lemma f64_mul_fin (a b : Q) :
  (-2048 <= a * b <= 2048)%Q ->
  F64.mul (Fin a) (Fin b) = Fin (F64.rnd (a * b)).
Proof. intros H. unfold F64.mul. simpl. apply round_fin, H. Qed.

Lemma f64_div_fin (a b : Q) :
  ~ (b == 0)%Q -> (-2048 <= a / b <= 2048)%Q ->
  F64.div (Fin a) (Fin b) = Fin (F64.rnd (a / b)).
Proof.
  intros Hb H. unfold F64.div. simpl.
  destruct (Qeq_bool b 0) eqn:E.
  { apply Qeq_bool_iff in E. contradiction. }
  apply round_fin, H.
Qed.

Lemma f64_lit_fin (q : Q) :
  (-2048 <= q <= 2048)%Q -> F64.lit q = Fin (F64.rnd q).
Proof. apply round_fin. Qed.

(** ** The float64 score, on finite metrics of [[0, 1]] *)

Lemma rnd_unit (q : Q) : (0 <= q <= 1)%Q -> (0 <= F64.rnd q <= 1)%Q.
Proof.
  intros [H0 H1]. split; [apply rnd_nonneg, H0 |].
  pose proof (rnd_mono _ _ H1) as U.
  assert (E : (F64.rnd 1 == 1)%Q) by (vm_compute; reflexivity).
  lra.
Qed.

Lemma rnd_le_2048 (q : Q) : (0 <= q <= 2048)%Q -> (0 <= F64.rnd q <= 2048)%Q.
Proof.
  intros [H0 H1]. split; [apply rnd_nonneg, H0 |].
  pose proof (rnd_mono _ _ H1) as U. rewrite rnd_2048 in U. exact U.
Qed.

Lemma rnd_le_pow2 (q : Q) (j : Z) :
  0 <= j <= 11 -> (0 <= q <= 2 ^ j)%Q -> (0 <= F64.rnd q <= 2 ^ j)%Q.
Proof.
  intros Hj [H0 H1]. split; [apply rnd_nonneg, H0 |].
  pose proof (rnd_mono _ _ H1) as U.
  assert (E : (F64.rnd (2 ^ j) == 2 ^ j)%Q).
  { assert (C : j = 0 \/ j = 1 \/ j = 2 \/ j = 3 \/ j = 4 \/ j = 5 \/ j = 6
                \/ j = 7 \/ j = 8 \/ j = 9 \/ j = 10 \/ j = 11) by lia.
    repeat (destruct C as [-> | C]; [vm_compute; reflexivity |]).
    subst j. vm_compute. reflexivity. }
  lra.
Qed.

Lemma score_fold_fin (v : metric -> Q) (l : list (metric * Q)) :
  (forall k, 0 <= v k <= 1)%Q ->
  Forall (fun kw => 0 <= kw.2 <= 1)%Q l ->
  forall (acc : Q) (j : Z),
    0 <= j -> j + Z.of_nat (length l) <= 11 -> (0 <= acc <= 2 ^ j)%Q ->
    fold_left (fun acc kw =>
                 F64.add acc (F64.mul (finite_metrics v kw.1) (F64.lit kw.2)))
              l (Fin acc)
    = Fin (fold_left (score_step v) l acc)
    /\ (0 <= fold_left (score_step v) l acc)%Q.
Proof.
  intros Hv Hl. induction Hl as [| [k w] l Hw Hl IH]; intros acc j Hj Hlen Hacc.
  - simpl. split; [reflexivity | lra].
  - simpl in Hw. simpl length in Hlen.
    pose proof (rnd_unit w Hw) as Rw.
    assert (Hp : (0 <= v k * F64.rnd w <= 1)%Q).
    { specialize (Hv k). nra. }
    pose proof (rnd_unit _ Hp) as Rp.
    pose proof (pow2_succ j) as Ej. pose proof (pow2_pos j) as Pj.
    assert (P1 : (1 <= 2 ^ j)%Q).
    { change 1%Q with (2 ^ 0)%Q. apply pow2_le. lia. }
    assert (P2 : (2 ^ (j + 1) <= 2048)%Q).
    { change 2048%Q with (2 ^ 11)%Q. apply pow2_le. lia. }
    assert (Hs : (0 <= acc + F64.rnd (v k * F64.rnd w) <= 2 ^ (j + 1))%Q)
      by lra.
    pose proof (rnd_le_pow2 _ (j + 1) ltac:(lia) Hs) as Rs.
    cbn [fold_left fst snd].
    change (finite_metrics v k) with (Fin (v k)).
    change (score_step v acc (k, w))
      with (F64.rnd (acc + F64.rnd (v k * F64.rnd w))).
    rewrite f64_lit_fin by lra.
    rewrite f64_mul_fin by lra.
    rewrite f64_add_fin by lra.
    apply (IH _ (j + 1)); [lia | lia | exact Rs].
Qed.

Lemma score_fold_mono (va vb : metric -> Q) (l : list (metric * Q)) :
  (forall k, 0 <= va k <= vb k)%Q ->
  Forall (fun kw => 0 <= kw.2)%Q l ->
  forall a b : Q, (a <= b)%Q ->
    (fold_left (score_step va) l a <= fold_left (score_step vb) l b)%Q.
Proof.
  intros Hv Hl. induction Hl as [| [k w] l Hw Hl IH]; intros a b Hab.
  - exact Hab.
  - simpl. apply IH. unfold score_step. simpl. simpl in Hw.
    apply rnd_mono.
    pose proof (rnd_nonneg w Hw) as Rw.
    assert (Hp : (va k * F64.rnd w <= vb k * F64.rnd w)%Q)
      by (specialize (Hv k); nra).
    pose proof (rnd_mono _ _ Hp). lra.
Qed.

Lemma weights_unit : Forall (fun kw : metric * Q => 0 <= kw.2 <= 1)%Q
                            METRIC_WEIGHTS.
Proof. repeat constructor; simpl; lra. Qed.

Lemma weights_nonneg : Forall (fun kw : metric * Q => 0 <= kw.2)%Q
                              METRIC_WEIGHTS.
Proof. repeat constructor; simpl; lra. Qed.

Lemma score_f64_finite (v : metric -> Q) :
  (forall k, 0 <= v k <= 1)%Q ->
  score_f64 (finite_metrics v) = Fin (score_q v)
  /\ (0 <= score_q v <= 1 + (1 # 4503599627370496))%Q.
Proof.
  intros Hv. unfold score_f64, score_q.
  destruct (score_fold_fin v METRIC_WEIGHTS Hv weights_unit 0%Q 0
              ltac:(lia) ltac:(simpl; lia)
              ltac:(change (2 ^ 0)%Q with 1%Q; lra)) as [E H0].
  split; [exact E | split; [exact H0 |]].
  assert (Hv1 : forall k, (0 <= v k <= (fun _ : metric => 1%Q) k)%Q)
    by (intros k; cbv beta; apply Hv).
  pose proof (score_fold_mono v (fun _ => 1%Q) METRIC_WEIGHTS
                Hv1 weights_nonneg 0%Q 0%Q (Qle_refl 0)) as M.
  assert (E1 : (fold_left (score_step (fun _ => 1%Q)) METRIC_WEIGHTS 0
                == 1 + (1 # 4503599627370496))%Q)
    by (vm_compute; reflexivity).
  lra.
Qed.

Lemma score_q_mono (va vb : metric -> Q) :
  (forall k, 0 <= va k <= vb k)%Q -> (score_q va <= score_q vb)%Q.
Proof.
  intros Hv. unfold score_q.
  exact (score_fold_mono va vb METRIC_WEIGHTS Hv weights_nonneg
           0%Q 0%Q (Qle_refl 0)).
Qed.

(** ** The float64 logistic stage *)

Section risk_f64.

Variable np_exp : Q -> fval Q.

(** [np.exp] on [[-6, 6]]: finite, between 0 and 1024, and it never
    reverses an order. *)
Hypothesis np_exp_finite :
  forall u, (-6 <= u <= 6)%Q ->
    exists e, np_exp u = Fin e /\ (0 <= e <= 1024)%Q.
Hypothesis np_exp_mono :
  forall u v eu ev, (-6 <= u)%Q -> (u <= v)%Q -> (v <= 6)%Q ->
    np_exp u = Fin eu -> np_exp v = Fin ev -> (eu <= ev)%Q.

(** The argument of [np.exp] for a score of [[0, 1 + 2^-52]]. *)
Lemma exp_arg_f64 (s : Q) :
  (0 <= s <= 1 + (1 # 4503599627370496))%Q ->
  let u := F64.rnd (-10 * F64.rnd (s + - F64.rnd 0.5)) in
  F64.mul (Fin (-10)%Q) (F64.sub (Fin s) (F64.lit 0.5%Q)) = Fin u
  /\ (-6 <= u <= 6)%Q.
Proof.
  intros Hs u.
  assert (Eh : (F64.rnd 0.5 == 1 # 2)%Q) by (vm_compute; reflexivity).
  assert (Lo : (s + - F64.rnd 0.5 >= - (1 # 2))%Q) by lra.
  assert (Hi : (s + - F64.rnd 0.5 <= 11 # 20)%Q) by lra.
  pose proof (rnd_mono _ _ Lo) as T1. pose proof (rnd_mono _ _ Hi) as T2.
  assert (C1 : (F64.rnd (- (1 # 2)) == - (1 # 2))%Q)
    by (vm_compute; reflexivity).
  assert (C2 : (F64.rnd (11 # 20) <= 14 # 25)%Q)
    by (vm_compute; discriminate).
  set (t := F64.rnd (s + - F64.rnd 0.5)) in *.
  assert (Lu : (- (28 # 5) <= -10 * t)%Q) by lra.
  assert (Hu : (-10 * t <= 5)%Q) by lra.
  pose proof (rnd_mono _ _ Lu) as U1. pose proof (rnd_mono _ _ Hu) as U2.
  assert (C3 : (- 6 <= F64.rnd (- (28 # 5)))%Q)
    by (vm_compute; discriminate).
  assert (C4 : (F64.rnd 5 == 5)%Q) by (vm_compute; reflexivity).
  fold u in U1, U2.
  split; [| lra].
  rewrite f64_lit_fin by lra.
  rewrite f64_sub_fin by lra. fold t.
  rewrite f64_mul_fin by lra. reflexivity.
Qed.

(** The quotient for a finite, non-negative value of [np.exp]. *)
Lemma quotient_f64 (e : Q) :
  (0 <= e <= 1024)%Q ->
  let d := F64.rnd (1 + e) in
  F64.div (Fin 100%Q) (F64.add (Fin 1%Q) (Fin e)) = Fin (F64.rnd (100 / d))
  /\ (1 <= d)%Q.
Proof.
  intros He d.
  assert (L : (1 <= 1 + e)%Q) by lra.
  pose proof (rnd_mono _ _ L) as D1.
  assert (C1 : (F64.rnd 1 == 1)%Q) by (vm_compute; reflexivity).
  assert (H : (1 + e <= 2048)%Q) by lra.
  pose proof (rnd_mono _ _ H) as D2. rewrite rnd_2048 in D2.
  fold d in D1, D2. split; [| lra].
  rewrite f64_add_fin by lra. fold d.
  assert (Q1 : (0 <= 100 / d)%Q).
  { apply Qle_shift_div_l; lra. }
  assert (Q2 : (100 / d <= 100)%Q).
  { apply Qle_shift_div_r; lra. }
  apply f64_div_fin; [intros E; rewrite E in D1; lra | lra].
Qed.

(** A larger float64 score never gives a smaller float64 risk. *)
Lemma risk_pct_f64_mono (sa sb : Q) :
  (0 <= sa)%Q -> (sa <= sb)%Q -> (sb <= 1 + (1 # 4503599627370496))%Q ->
  exists ra rb,
    risk_pct_f64 np_exp (Fin sa) = Fin ra /\
    risk_pct_f64 np_exp (Fin sb) = Fin rb /\
    (ra <= rb)%Q.
Proof.
  intros H0 Hab H1.
  destruct (exp_arg_f64 sa ltac:(lra)) as [Ea Ua].
  destruct (exp_arg_f64 sb ltac:(lra)) as [Eb Ub].
  set (ua := F64.rnd (-10 * F64.rnd (sa + - F64.rnd 0.5))) in *.
  set (ub := F64.rnd (-10 * F64.rnd (sb + - F64.rnd 0.5))) in *.
  assert (Hu : (ub <= ua)%Q).
  { unfold ua, ub. apply rnd_mono.
    assert (T : (F64.rnd (sa + - F64.rnd 0.5)
                 <= F64.rnd (sb + - F64.rnd 0.5))%Q)
      by (apply rnd_mono; lra).
    lra. }
  destruct (np_exp_finite ua Ua) as (ea & Fa & Ra).
  destruct (np_exp_finite ub Ub) as (eb & Fb & Rb).
  pose proof (np_exp_mono ub ua eb ea ltac:(lra) Hu ltac:(lra) Fb Fa) as He.
  destruct (quotient_f64 ea Ra) as [Qa Da].
  destruct (quotient_f64 eb Rb) as [Qb Db].
  exists (F64.rnd (100 / F64.rnd (1 + ea))), (F64.rnd (100 / F64.rnd (1 + eb))).
  unfold risk_pct_f64. rewrite Ea, Eb. simpl np_exp_f64. rewrite Fa, Fb.
  split; [exact Qa | split; [exact Qb |]].
  apply rnd_mono.
  assert (D : (F64.rnd (1 + eb) <= F64.rnd (1 + ea))%Q)
    by (apply rnd_mono; lra).
  set (da := F64.rnd (1 + ea)) in *. set (db := F64.rnd (1 + eb)) in *.
  apply Qle_shift_div_l; [lra |].
  assert (E : (100 / da * db == 100 * (db / da))%Q) by (field; lra).
  rewrite E.
  assert (F : (db / da <= 1)%Q) by (apply Qle_shift_div_r; lra).
  lra.
Qed.

End risk_f64.

(** C7 (as amended).  With the other four sub-metrics held fixed, a larger
    speed-drop never gives a smaller risk.
    - Over exact arithmetic the increase is strict, and this is what
      [_compute_fatigue] returns: of two histories (of at least 5 samples)
      whose sub-metrics are finite and agree except for the speed-drop,
      the one with the strictly larger speed-drop gets the strictly larger
      risk.
    - In float64, as the two lines of the scorer run, the risk is
      non-decreasing in the speed-drop, for sub-metrics of [0, 1] and any
      [np.exp] that is finite and non-decreasing on [-6, 6]; it is not
      strictly increasing there ([speed_drop_tie_in_float64]). *)
Theorem risk_nondecreasing_in_speed_drop :
  (forall (a b : t) (pa pb : Z) (va vb : metric -> Q),
     (5 <= length (history_of a pa))%nat ->
     (5 <= length (history_of b pb))%nat ->
     (forall k, metrics a (history_of a pa) k = Fin (va k)) ->
     (forall k, metrics b (history_of b pb) k = Fin (vb k)) ->
     (forall k, k <> speed_drop -> (va k == vb k)%Q) ->
     (va speed_drop < vb speed_drop)%Q ->
     exists ra rb,
       _compute_fatigue a pa = Fin ra /\ _compute_fatigue b pb = Fin rb /\
       (ra < rb)%R)
  /\
  (forall np_exp : Q -> fval Q,
     (forall u, (-6 <= u <= 6)%Q ->
        exists e, np_exp u = Fin e /\ (0 <= e <= 1024)%Q) ->
     (forall u v eu ev, (-6 <= u)%Q -> (u <= v)%Q -> (v <= 6)%Q ->
        np_exp u = Fin eu -> np_exp v = Fin ev -> (eu <= ev)%Q) ->
     forall (m : metric -> Q) (x y : Q),
       (forall k, 0 <= m k <= 1)%Q ->
       (0 <= x)%Q -> (x <= y)%Q -> (y <= 1)%Q ->
       exists rx ry,
         risk_pct_f64 np_exp
           (score_f64 (finite_metrics (with_speed_drop x m))) = Fin rx /\
         risk_pct_f64 np_exp
           (score_f64 (finite_metrics (with_speed_drop y m))) = Fin ry /\
         (rx <= ry)%Q).
Proof.
  split.
  - intros a b pa pb va vb La Lb Ma Mb Hsame Hlt.
    rewrite (compute_fatigue_finite_metrics a pa va La Ma).
    rewrite (compute_fatigue_finite_metrics b pb vb Lb Mb).
    eexists. eexists. split; [reflexivity | split; [reflexivity |]].
    apply logistic_increasing. apply Qlt_Rlt.
    pose proof (Hsame sprint_count ltac:(discriminate)).
    pose proof (Hsame accel_events ltac:(discriminate)).
    pose proof (Hsame posture_deg ltac:(discriminate)).
    pose proof (Hsame stride_reduction ltac:(discriminate)).
    unfold Spec.weighted_sum, Spec.weight. lra.
  - intros np_exp Hfin Hmono m x y Hm Hx Hxy Hy.
    assert (Vx : forall k, (0 <= with_speed_drop x m k <= 1)%Q).
    { intros k. destruct k; simpl; try apply Hm. lra. }
    assert (Vy : forall k, (0 <= with_speed_drop y m k <= 1)%Q).
    { intros k. destruct k; simpl; try apply Hm. lra. }
    destruct (score_f64_finite _ Vx) as [Ex [Sx0 _]].
    destruct (score_f64_finite _ Vy) as [Ey [_ Sy1]].
    assert (Hs : (score_q (with_speed_drop x m)
                  <= score_q (with_speed_drop y m))%Q).
    { apply score_q_mono. intros k.
      destruct k; simpl; try (specialize (Hm k); lra).
      - lra.
      - pose proof (Hm sprint_count). lra.
      - pose proof (Hm accel_events). lra.
      - pose proof (Hm posture_deg). lra.
      - pose proof (Hm stride_reduction). lra. }
    rewrite Ex, Ey.
    exact (risk_pct_f64_mono np_exp Hfin Hmono _ _ Sx0 Hs Sy1).
Qed.

Lemma risk_nondecreasing_in_speed_drop_witness :
  let a := mk 24 {[ 1 := [2; 2; 2; 2; 2; 2]%Q ]} ∅ in
  let b := mk 24 {[ 1 := [4; 4; 4; 4; 4; 1]%Q ]} ∅ in
  let value := fun (x : fval Q) => match x with Fin q => q | _ => 0%Q end in
  let va := fun k => value (metrics a (history_of a 1) k) in
  let vb := fun k => value (metrics b (history_of b 1) k) in
  let np_exp := fun u : Q => Fin (u + 7)%Q in
  ((5 <= length (history_of a 1))%nat /\
   (forall k, metrics b (history_of b 1) k = Fin (vb k)) /\
   (va speed_drop == 0)%Q /\ (vb speed_drop == 1 # 8)%Q /\
   exists ra rb,
     _compute_fatigue a 1 = Fin ra /\ _compute_fatigue b 1 = Fin rb /\
     (ra < rb)%R)
  /\
  ((forall u, (-6 <= u <= 6)%Q ->
      exists e, np_exp u = Fin e /\ (0 <= e <= 1024)%Q) /\
   exists rx ry,
     risk_pct_f64 np_exp
       (score_f64 (finite_metrics (with_speed_drop 0 (fun _ => 0%Q))))
     = Fin rx /\
     risk_pct_f64 np_exp
       (score_f64 (finite_metrics (with_speed_drop 1 (fun _ => 0%Q))))
     = Fin ry /\
     (rx <= ry)%Q).
Proof.
  intros a b value va vb np_exp.
  assert (La : (5 <= length (history_of a 1))%nat) by (vm_compute; lia).
  assert (Lb : (5 <= length (history_of b 1))%nat) by (vm_compute; lia).
  assert (Ma : forall k, metrics a (history_of a 1) k = Fin (va k))
    by (intros k; destruct k; vm_compute; reflexivity).
  assert (Mb : forall k, metrics b (history_of b 1) k = Fin (vb k))
    by (intros k; destruct k; vm_compute; reflexivity).
  assert (Hsame : forall k, k <> speed_drop -> (va k == vb k)%Q)
    by (intros k Hk; destruct k; try congruence; vm_compute; reflexivity).
  assert (Hlt : (va speed_drop < vb speed_drop)%Q)
    by (vm_compute; reflexivity).
  assert (Hfin : forall u, (-6 <= u <= 6)%Q ->
            exists e, np_exp u = Fin e /\ (0 <= e <= 1024)%Q).
  { intros u Hu. exists (u + 7)%Q. split; [reflexivity | lra]. }
  assert (Hmono : forall u v eu ev, (-6 <= u)%Q -> (u <= v)%Q -> (v <= 6)%Q ->
            np_exp u = Fin eu -> np_exp v = Fin ev -> (eu <= ev)%Q).
  { intros u v eu ev _ Huv _ Eu Ev. unfold np_exp in Eu, Ev.
    injection Eu as <-. injection Ev as <-. lra. }
  assert (Hz : forall k : metric, (0 <= (fun _ : metric => 0%Q) k <= 1)%Q)
    by (intros k; cbv beta; lra).
  split.
  - split; [exact La |]. split; [exact Mb |].
    split; [vm_compute; reflexivity |]. split; [vm_compute; reflexivity |].
    exact (proj1 risk_nondecreasing_in_speed_drop
             a b 1 1 va vb La Lb Ma Mb Hsame Hlt).
  - split; [exact Hfin |].
    exact (proj2 risk_nondecreasing_in_speed_drop np_exp Hfin Hmono
             (fun _ => 0%Q) 0%Q 1%Q Hz ltac:(lra) ltac:(lra) ltac:(lra)).
Defined.

(** C7, the claim as first stated, does not hold of the float64 scorer.
    0.9 (the binary64 number nearest to it) and the next binary64 number,
    0.9000000000000001, are two speed-drop values of [0, 1]; with the
    other four sub-metrics at 0, both products with the weight 0.30 round
    to the same number, 0.27: the two scores are equal, and so are the two
    risks, whatever [np.exp] returns. *)
Lemma speed_drop_tie_in_float64 :
  let x := (8106479329266893 # 9007199254740992)%Q in
  let y := (8106479329266894 # 9007199254740992)%Q in
  let zeros : metric -> Q := fun _ => 0%Q in
  (F64.rnd 0.9 == x)%Q /\ (F64.rnd y == y)%Q /\
  (0 <= x)%Q /\ (x < y)%Q /\ (y <= 1)%Q /\
  score_f64 (finite_metrics (with_speed_drop x zeros))
  = score_f64 (finite_metrics (with_speed_drop y zeros)) /\
  score_f64 (finite_metrics (with_speed_drop x zeros)) = F64.lit 0.27 /\
  (forall np_exp : Q -> fval Q,
     risk_pct_f64 np_exp (score_f64 (finite_metrics (with_speed_drop x zeros)))
     = risk_pct_f64 np_exp
         (score_f64 (finite_metrics (with_speed_drop y zeros)))).
Proof.
  intros x y zeros.
  assert (E : score_f64 (finite_metrics (with_speed_drop x zeros))
              = score_f64 (finite_metrics (with_speed_drop y zeros)))
    by (vm_compute; reflexivity).
  split; [vm_compute; reflexivity |]. split; [vm_compute; reflexivity |].
  split; [discriminate |]. split; [reflexivity |]. split; [discriminate |].
  split; [exact E |]. split; [vm_compute; reflexivity |].
  intros np_exp. rewrite E. reflexivity.
Qed.

(** C10.  For a history of at least 5 samples whose 90th-percentile
    baseline is not zero, [_compute_fatigue] returns a finite risk that is
    at least [100/(1+e^5)] (about 0.67) and at most [100/(1+e^-5)] (about
    99.33), hence strictly between 0 and 100.  And a risk of exactly 0.0
    is returned only for a history of fewer than 5 samples. *)
Theorem computed_risk_strictly_inside (self : t) (pid : Z) (b : Q) :
  (5 <= length (history_of self pid))%nat ->
  np_percentile (history_of self pid) 90 = Fin b -> ~ (b == 0)%Q ->
  (exists r, _compute_fatigue self pid = Fin r /\
             (100 / (1 + exp 5) <= r)%R /\ (r <= 100 / (1 + exp (-5)))%R /\
             (0 < r)%R /\ (r < 100)%R)
  /\ (forall self0 pid0, _compute_fatigue self0 pid0 = Fin 0%R ->
        (length (history_of self0 pid0) < 5)%nat)
  /\ (0.66 < 100 / (1 + exp 5) < 0.68)%R
  /\ (99.32 < 100 / (1 + exp (-5)) < 99.34)%R.
Proof.
  intros Hlen Hb Hnz. split; [| split; [| exact logistic_ends]].
  - assert (Hne : history_of self pid <> [])
      by (destruct (history_of self pid); [simpl in Hlen; lia | congruence]).
    destruct (speed_drop_finite self _ b Hne Hb Hnz) as (c & Hc & _).
    destruct (metrics_cases self (history_of self pid))
      as [(v & Hv & Hrange & _) | Hnan]; [| congruence].
    exists (Spec.logistic (Q2R (Spec.weighted_sum v))).
    split; [apply compute_fatigue_finite_metrics; assumption |].
    pose proof (weighted_sum_range v Hrange) as [Hlo Hhi].
    pose proof (logistic_range (Q2R (Spec.weighted_sum v))) as [H0 H100].
    assert (E0 : Spec.logistic 0 = (100 / (1 + exp 5))%R).
    { unfold Spec.logistic. do 3 f_equal. lra. }
    assert (E1 : Spec.logistic 1 = (100 / (1 + exp (-5)))%R).
    { unfold Spec.logistic. do 3 f_equal. lra. }
    rewrite <- E0, <- E1.
    repeat split; try assumption.
    + destruct Hlo as [Hlt | <-]; [| lra].
      left. apply logistic_increasing. exact Hlt.
    + destruct Hhi as [Hlt | ->]; [| lra].
      left. apply logistic_increasing. exact Hlt.
  - intros self0 pid0 Hz.
    destruct (Nat.lt_ge_cases (length (history_of self0 pid0)) 5)
      as [Hlt | Hge]; [exact Hlt |].
    exfalso. exact (compute_fatigue_long_nonzero self0 pid0 Hge Hz).
Qed.

Lemma computed_risk_strictly_inside_witness :
  let self := mk 24 {[ 1 := [2; 2; 2; 2; 2; 2]%Q ]} ∅ in
  (5 <= length (history_of self 1))%nat /\
  (exists b, np_percentile (history_of self 1) 90 = Fin b /\ ~ (b == 0)%Q) /\
  exists r, _compute_fatigue self 1 = Fin r /\
            (100 / (1 + exp 5) <= r)%R /\ (r <= 100 / (1 + exp (-5)))%R /\
            (0 < r)%R /\ (r < 100)%R.
Proof.
  intros self.
  assert (Hlen : (5 <= length (history_of self 1))%nat) by (vm_compute; lia).
  assert (Hb : np_percentile (history_of self 1) 90
               = Fin (2 + (2 - 2) * (inject_Z (6 - 1) * (90 / 100)
                                     - inject_Z 4))%Q) by reflexivity.
  assert (Hnz : ~ (2 + (2 - 2) * (inject_Z (6 - 1) * (90 / 100)
                                  - inject_Z 4) == 0)%Q) by discriminate.
  split; [exact Hlen |].
  split; [eexists; split; [exact Hb | exact Hnz] |].
  exact (proj1 (computed_risk_strictly_inside self 1 _ Hlen Hb Hnz)).
Defined.

(* ===================================================================== *)
(** ** [update_metrics], one entity at a time                            *)
(* ===================================================================== *)

Lemma same_at_refl pid st : same_at pid st st.
Proof. repeat split. Qed.

Lemma same_at_trans pid s1 s2 s3 :
  same_at pid s1 s2 -> same_at pid s2 s3 -> same_at pid s1 s3.
Proof.
  intros (? & ? & ? & ?) (? & ? & ? & ?). repeat split; congruence.
Qed.

Lemma compute_fatigue_local (s1 s2 : t) (pid : Z) :
  fps s1 = fps s2 -> history s1 !! pid = history s2 !! pid ->
  _compute_fatigue s1 pid = _compute_fatigue s2 pid.
Proof.
  destruct s1 as [f1 h1 r1], s2 as [f2 h2 r2]. simpl. intros -> Hh.
  unfold _compute_fatigue, history_of. simpl. rewrite Hh.
  destruct (_ <? 5); reflexivity.
Qed.

(** An item leaves every other entity alone. *)
Lemma update_one_other f_idx st q trk pid :
  q <> pid -> same_at pid (update_one f_idx st (q, trk)) st.
Proof.
  intros Hne. destruct st as [self tracks]. unfold update_one.
  destruct (Track.speed trk); [| apply same_at_refl].
  destruct (_ || _); unfold same_at; simpl;
    rewrite !lookup_insert_ne by exact Hne; repeat split.
Qed.

(** What an item does to its entity depends on that entity's state only. *)
Lemma update_one_local f_idx st1 st2 pid trk :
  same_at pid st1 st2 ->
  same_at pid (update_one f_idx st1 (pid, trk)) (update_one f_idx st2 (pid, trk)).
Proof.
  destruct st1 as [[f1 h1 r1] t1], st2 as [[f2 h2 r2] t2].
  intros (Hf & Hh & Hr & Ht). simpl in Hf, Hh, Hr, Ht. subst f2.
  unfold update_one. destruct (Track.speed trk); [| repeat split; assumption].
  unfold history_of, risk_of, set_history, set_risk, window. simpl.
  rewrite Hh.
  set (h := if _ <? _ then _ else _).
  destruct (_ || _); simpl.
  - rewrite !lookup_insert_eq. simpl.
    rewrite (compute_fatigue_local (mk f1 (<[pid:=h]> h1) r1)
                                   (mk f1 (<[pid:=h]> h2) r2) pid)
      by (simpl; rewrite ?lookup_insert_eq; reflexivity).
    repeat split; simpl; rewrite ?lookup_insert_eq; reflexivity.
  - rewrite Hr. repeat split; simpl; rewrite ?lookup_insert_eq; reflexivity.
Qed.

Lemma fold_update_one_other f_idx items st pid :
  pid ∉ items.*1 ->
  same_at pid (fold_left (update_one f_idx) items st) st.
Proof.
  revert st. induction items as [| [q trk] items IH]; intros st Hnin.
  - apply same_at_refl.
  - simpl. simpl in Hnin. apply not_elem_of_cons in Hnin as [Hne Hnin].
    eapply same_at_trans; [apply IH; exact Hnin |].
    apply update_one_other. congruence.
Qed.

Lemma fold_update_one_at f_idx items st pid trk :
  NoDup items.*1 -> (pid, trk) ∈ items ->
  same_at pid (fold_left (update_one f_idx) items st)
              (update_one f_idx st (pid, trk)).
Proof.
  revert st. induction items as [| [q trk'] items IH]; intros st Hnd Hin.
  - inversion Hin.
  - simpl in Hnd. apply NoDup_cons in Hnd as [Hq Hnd].
    apply elem_of_cons in Hin as [Heq | Hin].
    + injection Heq as <- <-. simpl.
      apply fold_update_one_other. exact Hq.
    + assert (Hne : q <> pid).
      { intros ->. apply Hq. apply list_elem_of_fmap. exists (pid, trk).
        split; [reflexivity | exact Hin]. }
      simpl. eapply same_at_trans; [apply IH; assumption |].
      apply update_one_local. apply update_one_other. exact Hne.
Qed.

(** [update_metrics] does to an entity of the frame what its own item
    does, whatever the other items are. *)
Lemma update_metrics_at self f_idx (tracks : frame) pid trk :
  tracks !! pid = Some trk ->
  same_at pid (update_metrics self f_idx tracks)
              (update_one f_idx (self, tracks) (pid, trk)).
Proof.
  intros Hl. unfold update_metrics. apply fold_update_one_at.
  - apply NoDup_fst_map_to_list.
  - apply elem_of_map_to_list. exact Hl.
Qed.

(** ... and leaves an entity that is not in the frame alone. *)
Lemma update_metrics_absent self f_idx (tracks : frame) pid :
  tracks !! pid = None ->
  same_at pid (update_metrics self f_idx tracks) (self, tracks).
Proof.
  intros Hl. unfold update_metrics. apply fold_update_one_other.
  intros Hin. apply list_elem_of_fmap in Hin as ([q trk] & Heq & Hin).
  simpl in Heq. subst q. apply elem_of_map_to_list in Hin. congruence.
Qed.

(** The trim of [update_metrics] keeps the most recent [window] samples. *)
Lemma trim_most_recent (w : Z) (h : list Q) :
  0 < w ->
  (if w <? Z.of_nat (length h) then py_slice_from h (- w) else h)
  = Spec.most_recent (Z.to_nat w) h.
Proof.
  intros Hw. unfold Spec.most_recent, py_slice_from.
  destruct (w <? Z.of_nat (length h)) eqn:E.
  - apply Z.ltb_lt in E.
    replace (- w <? 0) with true by (symmetry; apply Z.ltb_lt; lia).
    f_equal. lia.
  - apply Z.ltb_ge in E.
    replace (length h - Z.to_nat w)%nat with 0%nat by lia. reflexivity.
Qed.

Lemma window_pos (self : t) : 0 < window self.
Proof. unfold window, WINDOW_SEC. lia. Qed.

(** The test [frame_idx % window == 0 or frame_idx == 0] is the first
    disjunct alone. *)
Lemma recompute_test (f_idx w : Z) :
  (f_idx `mod` w =? 0) || (f_idx =? 0) = (f_idx `mod` w =? 0).
Proof.
  destruct (f_idx =? 0) eqn:E; [| apply orb_false_r].
  apply Z.eqb_eq in E. subst f_idx. rewrite Zmod_0_l. reflexivity.
Qed.

(** The effect of one item that has a speed. *)
Lemma update_one_speed f_idx self (tracks : frame) pid trk spd :
  Track.speed trk = Some spd ->
  let h := Spec.most_recent (Z.to_nat (window self))
                            (history_of self pid ++ [(spd / 3.6)%Q]) in
  let self1 := set_history pid h self in
  let r := if f_idx `mod` window self =? 0
           then _compute_fatigue self1 pid else risk_of self pid in
  update_one f_idx (self, tracks) (pid, trk)
  = (set_risk pid r self1, <[pid := Track.set_risk r trk]> tracks).
Proof.
  intros Hs. unfold update_one. rewrite Hs.
  rewrite trim_most_recent by apply window_pos.
  replace (window (set_history pid _ self)) with (window self) by reflexivity.
  rewrite recompute_test.
  destruct (f_idx `mod` window self =? 0); simpl.
  - unfold risk_of at 1 2. simpl. rewrite lookup_insert_eq. simpl.
    unfold set_risk. simpl. rewrite insert_insert_eq. reflexivity.
  - reflexivity.
Qed.

(** What [update_metrics] does for an entity of the frame. *)
Lemma update_metrics_entity self f_idx (tracks : frame) pid trk self' tracks' :
  update_metrics self f_idx tracks = (self', tracks') ->
  tracks !! pid = Some trk ->
  fps self' = fps self /\
  match Track.speed trk with
  | Some spd =>
      history self' !! pid
        = Some (Spec.most_recent (Z.to_nat (window self))
                  (history_of self pid ++ [(spd / 3.6)%Q])) /\
      risk self' !! pid
        = Some (if f_idx `mod` window self =? 0
                then _compute_fatigue self' pid else risk_of self pid) /\
      tracks' !! pid = Some (Track.set_risk (risk_of self' pid) trk)
  | None =>
      history self' !! pid = history self !! pid /\
      risk self' !! pid = risk self !! pid /\
      tracks' !! pid = Some trk
  end.
Proof.
  intros Hup Hl.
  pose proof (update_metrics_at self f_idx tracks pid trk Hl) as Hsame.
  rewrite Hup in Hsame.
  destruct (Track.speed trk) as [spd |] eqn:Hs.
  - rewrite (update_one_speed f_idx self tracks pid trk spd Hs) in Hsame.
    destruct Hsame as (Hf & Hh & Hr & Ht).
    unfold set_risk, set_history in Hf, Hh, Hr. simpl in Hf, Hh, Hr, Ht.
    rewrite lookup_insert_eq in Hh. rewrite lookup_insert_eq in Hr.
    rewrite lookup_insert_eq in Ht.
    split; [exact Hf |]. split; [exact Hh |].
    assert (Hc : _compute_fatigue self' pid
                 = _compute_fatigue
                     (set_history pid
                        (Spec.most_recent (Z.to_nat (window self))
                           (history_of self pid ++ [(spd / 3.6)%Q])) self) pid).
    { apply compute_fatigue_local; [exact Hf |].
      rewrite Hh. simpl. rewrite lookup_insert_eq. reflexivity. }
    split.
    + rewrite Hr, Hc. reflexivity.
    + rewrite Ht. f_equal. f_equal.
      symmetry. unfold risk_of at 1. rewrite Hr. reflexivity.
  - unfold update_one in Hsame. rewrite Hs in Hsame.
    destruct Hsame as (Hf & Hh & Hr & Ht). simpl in Hf, Hh, Hr, Ht.
    rewrite Hl in Ht. repeat split; assumption.
Qed.

Lemma update_metrics_entity_absent self f_idx (tracks : frame) pid self' tracks' :
  update_metrics self f_idx tracks = (self', tracks') ->
  tracks !! pid = None ->
  fps self' = fps self /\
  history self' !! pid = history self !! pid /\
  risk self' !! pid = risk self !! pid /\
  tracks' !! pid = None.
Proof.
  intros Hup Hl.
  pose proof (update_metrics_absent self f_idx tracks pid Hl) as Hsame.
  rewrite Hup in Hsame. destruct Hsame as (Hf & Hh & Hr & Ht).
  simpl in Hf, Hh, Hr, Ht. rewrite Hl in Ht. repeat split; assumption.
Qed.

Lemma update_metrics_fps self f_idx (tracks : frame) :
  fps (update_metrics self f_idx tracks).1 = fps self.
Proof.
  destruct (update_metrics self f_idx tracks) as [self' tracks'] eqn:Hup.
  destruct (tracks !! 0) as [trk |] eqn:Hl.
  - apply (update_metrics_entity _ _ _ _ _ _ _ Hup Hl).
  - apply (update_metrics_entity_absent _ _ _ _ _ _ Hup Hl).
Qed.

Lemma update_metrics_window self f_idx (tracks : frame) :
  window (update_metrics self f_idx tracks).1 = window self.
Proof. unfold window. rewrite update_metrics_fps. reflexivity. Qed.

(** Off the recompute schedule a call keeps every stored risk, and the
    records that have a speed receive that kept value. *)
Lemma update_metrics_hold self f_idx (tracks : frame) pid :
  f_idx `mod` window self <> 0 ->
  risk_of (update_metrics self f_idx tracks).1 pid = risk_of self pid /\
  (update_metrics self f_idx tracks).2 !! pid
    = written (risk_of self pid) <$> tracks !! pid.
Proof.
  intros Hmod. apply Z.eqb_neq in Hmod.
  destruct (update_metrics self f_idx tracks) as [self' tracks'] eqn:Hup.
  simpl. destruct (tracks !! pid) as [trk |] eqn:Hl.
  - pose proof (update_metrics_entity _ _ _ _ _ _ _ Hup Hl) as [_ H].
    unfold written. simpl. destruct (Track.speed trk).
    + destruct H as (_ & Hr & Ht). rewrite Hmod in Hr.
      assert (Hro : risk_of self' pid = risk_of self pid)
        by (unfold risk_of at 1; rewrite Hr; reflexivity).
      rewrite Ht, Hro. split; reflexivity.
    + destruct H as (_ & Hr & Ht). unfold risk_of. rewrite Hr, Ht.
      split; reflexivity.
  - pose proof (update_metrics_entity_absent _ _ _ _ _ _ Hup Hl)
      as (_ & _ & Hr & Ht).
    unfold risk_of. rewrite Hr, Ht. split; reflexivity.
Qed.

(** A key of [risk] is there from before or comes from a record with a
    speed. *)
Lemma update_metrics_risk_key self f_idx (tracks : frame) pid :
  is_Some (risk (update_metrics self f_idx tracks).1 !! pid) <->
  is_Some (risk self !! pid) \/ has_speed tracks pid = true.
Proof.
  destruct (update_metrics self f_idx tracks) as [self' tracks'] eqn:Hup.
  simpl. unfold has_speed. destruct (tracks !! pid) as [trk |] eqn:Hl; simpl.
  - pose proof (update_metrics_entity _ _ _ _ _ _ _ Hup Hl) as [_ H].
    destruct (Track.speed trk).
    + destruct H as (_ & -> & _). split; [right; reflexivity | eexists; eauto].
    + destruct H as (_ & -> & _). split; [left; assumption |].
      intros [? | ?]; [assumption | discriminate].
  - pose proof (update_metrics_entity_absent _ _ _ _ _ _ Hup Hl)
      as (_ & _ & -> & _).
    split; [left; assumption |]. intros [? | ?]; [assumption | discriminate].
Qed.

Lemma update_frames_risk_key self f_idx (frames : list frame) pid :
  is_Some (risk (update_frames self f_idx frames).1 !! pid) <->
  is_Some (risk self !! pid)
  \/ exists i fr, frames !! i = Some fr /\ has_speed fr pid = true.
Proof.
  revert self f_idx. induction frames as [| fr0 rest IH]; intros self f_idx.
  - simpl. split; [left; assumption |].
    intros [? | (i & fr & Hi & _)]; [assumption | inversion Hi].
  - simpl.
    pose proof (update_metrics_risk_key self f_idx fr0 pid) as Hk.
    destruct (update_metrics self f_idx fr0) as [self1 fr1]. simpl in Hk.
    specialize (IH self1 (f_idx + 1)).
    destruct (update_frames self1 (f_idx + 1) rest) as [self2 rest2].
    simpl in IH. simpl. rewrite IH, Hk. split.
    + intros [[? | Hs] | (i & fr & Hi & Hs)].
      * left. assumption.
      * right. exists 0%nat, fr0. split; [reflexivity | exact Hs].
      * right. exists (S i), fr. split; [exact Hi | exact Hs].
    + intros [? | (i & fr & Hi & Hs)]; [left; left; assumption |].
      destruct i as [| i]; simpl in Hi.
      * injection Hi as <-. left. right. exact Hs.
      * right. exists i, fr. split; [exact Hi | exact Hs].
Qed.

(** One call appends the frame's sample, if any, and trims. *)
Lemma update_metrics_history self f_idx (tracks : frame) pid :
  (length (history_of self pid) <= Z.to_nat (window self))%nat ->
  history_of (update_metrics self f_idx tracks).1 pid
  = Spec.most_recent (Z.to_nat (window self))
                     (history_of self pid ++ sample_of tracks pid).
Proof.
  intros Hinv.
  assert (Hkeep : history_of self pid
                  = Spec.most_recent (Z.to_nat (window self))
                                     (history_of self pid ++ [])).
  { rewrite app_nil_r. unfold Spec.most_recent.
    replace (length (history_of self pid) - Z.to_nat (window self))%nat
      with 0%nat by lia. reflexivity. }
  destruct (update_metrics self f_idx tracks) as [self' tracks'] eqn:Hup.
  simpl. unfold sample_of. destruct (tracks !! pid) as [trk |] eqn:Hl; simpl.
  - pose proof (update_metrics_entity _ _ _ _ _ _ _ Hup Hl) as [_ H].
    destruct (Track.speed trk).
    + destruct H as (Hh & _). unfold history_of at 1. rewrite Hh. reflexivity.
    + destruct H as (Hh & _). unfold history_of at 1. rewrite Hh. exact Hkeep.
  - pose proof (update_metrics_entity_absent _ _ _ _ _ _ Hup Hl)
      as (_ & Hh & _).
    unfold history_of at 1. rewrite Hh. exact Hkeep.
Qed.

Lemma most_recent_length {A} (n : nat) (l : list A) :
  length (Spec.most_recent n l) = Nat.min n (length l).
Proof. unfold Spec.most_recent. rewrite length_drop. lia. Qed.

(** Trimming early loses nothing that the final trim would keep. *)
Lemma most_recent_app {A} (n : nat) (l1 l2 : list A) :
  Spec.most_recent n (Spec.most_recent n l1 ++ l2)
  = Spec.most_recent n (l1 ++ l2).
Proof.
  unfold Spec.most_recent at 1 3. rewrite !length_app, most_recent_length.
  unfold Spec.most_recent.
  destruct (Nat.le_gt_cases (length l1) n) as [Hle | Hgt].
  - replace (length l1 - n)%nat with 0%nat by lia. simpl.
    f_equal. lia.
  - replace (length l1 + length l2 - n)%nat
      with ((length l1 - n) + length l2)%nat by lia.
    rewrite <- drop_drop, (drop_app_le l1 l2 (length l1 - n)) by lia.
    f_equal. lia.
Qed.

(* ===================================================================== *)
(** ** Claims about [update_metrics]                                     *)
(* ===================================================================== *)

(** C1 (as amended).  For every frame and every entity of its track set
    that has a speed, [update_metrics] appends the sample (in m/s) to the
    History Window and trims it, recomputes the stored Risk Value when the
    frame is on the schedule, and writes the stored Risk Value into the
    record's [risk] field.  An entity whose speed is missing is skipped:
    its History Window, its stored Risk Value and its record stay as they
    were. *)
Theorem update_metrics_writes_stored_risk
    self f_idx (tracks : frame) pid trk :
  tracks !! pid = Some trk ->
  let self' := (update_metrics self f_idx tracks).1 in
  let tracks' := (update_metrics self f_idx tracks).2 in
  match Track.speed trk with
  | Some spd =>
      history_of self' pid
        = Spec.most_recent (Z.to_nat (window self))
            (history_of self pid ++ [(spd / 3.6)%Q]) /\
      risk_of self' pid
        = (if f_idx `mod` window self =? 0
           then _compute_fatigue self' pid else risk_of self pid) /\
      tracks' !! pid = Some (Track.set_risk (risk_of self' pid) trk)
  | None =>
      history_of self' pid = history_of self pid /\
      risk self' !! pid = risk self !! pid /\
      tracks' !! pid = Some trk
  end.
Proof.
  intros Hl self' tracks'. subst self' tracks'.
  destruct (update_metrics self f_idx tracks) as [self' tracks'] eqn:Hup.
  pose proof (update_metrics_entity _ _ _ _ _ _ _ Hup Hl) as [_ H].
  simpl. destruct (Track.speed trk).
  - destruct H as (Hh & Hr & Ht). repeat split.
    + unfold history_of at 1. rewrite Hh. reflexivity.
    + unfold risk_of at 1. rewrite Hr. reflexivity.
    + exact Ht.
  - destruct H as (Hh & Hr & Ht). repeat split.
    + unfold history_of. rewrite Hh. reflexivity.
    + exact Hr.
    + exact Ht.
Qed.

Lemma update_metrics_writes_stored_risk_witness :
  let trk := Track.mk (0, 0, 10, 20)%Q (Some 18%Q) (Some 3%Q)
                      None None None None in
  let tracks : frame := {[ 4 := trk ]} in
  let self' := (update_metrics (init 24) 0 tracks).1 in
  tracks !! 4 = Some trk /\
  (update_metrics (init 24) 0 tracks).2 !! 4
    = Some (Track.set_risk (risk_of self' 4) trk).
Proof.
  intros trk tracks self'.
  assert (Hl : tracks !! 4 = Some trk) by reflexivity.
  split; [exact Hl |].
  exact (proj2 (proj2 (update_metrics_writes_stored_risk
                         (init 24) 0 tracks 4 trk Hl))).
Defined.

(** C1 as stated fails: at frame 720 (a scheduled frame), an entity
    without a speed whose history holds five samples gets no [risk]
    written into its record, and its stored Risk Value is not recomputed
    (the recomputation would have stored a nonzero value). *)
Lemma update_metrics_skips_missing_speed :
  let trk := Track.mk (0, 0, 10, 20)%Q None None None None None None in
  let self := mk 24 {[ 1 := [2; 2; 2; 2; 2]%Q ]} {[ 1 := Fin 0%R ]} in
  let st := update_metrics self 720 {[ 1 := trk ]} in
  720 `mod` window self = 0 /\
  st.2 !! 1 ≫= Track.risk = None /\
  st.2 !! 1 ≫= Track.risk <> Some (risk_of st.1 1) /\
  risk_of st.1 1 = Fin 0%R /\
  _compute_fatigue st.1 1 <> risk_of st.1 1.
Proof.
  intros trk self st.
  assert (Hst : st = (self, {[ 1 := trk ]})) by reflexivity.
  rewrite Hst. simpl.
  assert (Hr : risk_of self 1 = Fin 0%R) by reflexivity.
  split; [reflexivity |].
  split; [reflexivity |]. split; [discriminate |]. split; [exact Hr |].
  rewrite Hr. apply compute_fatigue_long_nonzero. vm_compute. lia.
Qed.

(** C3.  Over any run of consecutive frames none of whose indices is a
    multiple of [window] (frame 0 is one), the stored Risk Value of every
    entity stays exactly what it was before the run, i.e. what the most
    recent recomputation left; and that unchanged value is the one written
    into the record of every frame of the run (for the records that are
    written at all, those with a speed).  So a stored Risk Value is
    modified only on a frame with [frame_index % window == 0]. *)
Theorem risk_changes_only_on_window_frames
    self f_idx (frames : list frame) pid :
  (forall i, (i < length frames)%nat ->
             (f_idx + Z.of_nat i) `mod` window self <> 0) ->
  risk_of (update_frames self f_idx frames).1 pid = risk_of self pid /\
  forall i fr, frames !! i = Some fr ->
    exists fr', (update_frames self f_idx frames).2 !! i = Some fr' /\
                fr' !! pid = written (risk_of self pid) <$> fr !! pid.
Proof.
  revert self f_idx.
  induction frames as [| fr0 rest IH]; intros self f_idx Hoff.
  - split; [reflexivity |]. intros i fr Hi. inversion Hi.
  - simpl.
    pose proof (update_metrics_hold self f_idx fr0 pid) as [Hr0 Ht0].
    { specialize (Hoff 0%nat). simpl in Hoff.
      rewrite Z.add_0_r in Hoff. apply Hoff. lia. }
    pose proof (update_metrics_window self f_idx fr0) as Hw.
    destruct (update_metrics self f_idx fr0) as [self1 fr1].
    simpl in Hr0, Ht0, Hw.
    destruct (IH self1 (f_idx + 1)) as [Hr Hrec].
    { intros i Hi. rewrite Hw.
      replace (f_idx + 1 + Z.of_nat i) with (f_idx + Z.of_nat (S i)) by lia.
      apply Hoff. simpl. lia. }
    destruct (update_frames self1 (f_idx + 1) rest) as [self2 rest2].
    simpl in Hr, Hrec. simpl. split; [congruence |].
    intros [| i] fr Hi; simpl in Hi.
    + injection Hi as <-. exists fr1. split; [reflexivity | exact Ht0].
    + destruct (Hrec i fr Hi) as (fr' & Hfr' & Hw').
      exists fr'. split; [exact Hfr' |]. rewrite Hw', Hr0. reflexivity.
Qed.

Lemma risk_changes_only_on_window_frames_witness :
  let trk := Track.mk (0, 0, 10, 20)%Q (Some 18%Q) (Some 3%Q)
                      None None None None in
  let frames : list frame := [ {[ 4 := trk ]}; ∅; {[ 4 := trk ]} ] in
  (forall i, (i < length frames)%nat ->
             (1 + Z.of_nat i) `mod` window (init 24) <> 0) /\
  risk_of (update_frames (init 24) 1 frames).1 4 = risk_of (init 24) 4.
Proof.
  intros trk frames.
  assert (H : forall i, (i < length frames)%nat ->
                        (1 + Z.of_nat i) `mod` window (init 24) <> 0).
  { intros i Hi. simpl in Hi. change (window (init 24)) with 720.
    rewrite Z.mod_small by lia. lia. }
  split; [exact H |].
  exact (proj1 (risk_changes_only_on_window_frames (init 24) 1 frames 4 H)).
Defined.

Lemma update_frames_history self f_idx (frames : list frame) pid :
  (length (history_of self pid) <= Z.to_nat (window self))%nat ->
  history_of (update_frames self f_idx frames).1 pid
  = Spec.most_recent (Z.to_nat (window self))
                     (history_of self pid ++ samples_of frames pid).
Proof.
  revert self f_idx.
  induction frames as [| fr0 rest IH]; intros self f_idx Hinv.
  - simpl. unfold samples_of. simpl. rewrite app_nil_r.
    unfold Spec.most_recent.
    replace (length (history_of self pid) - Z.to_nat (window self))%nat
      with 0%nat by lia. reflexivity.
  - simpl.
    pose proof (update_metrics_history self f_idx fr0 pid Hinv) as Hh.
    pose proof (update_metrics_window self f_idx fr0) as Hw.
    destruct (update_metrics self f_idx fr0) as [self1 fr1].
    simpl in Hh, Hw.
    assert (Hinv1 : (length (history_of self1 pid)
                     <= Z.to_nat (window self1))%nat).
    { rewrite Hw, Hh, most_recent_length. lia. }
    specialize (IH self1 (f_idx + 1) Hinv1).
    destruct (update_frames self1 (f_idx + 1) rest) as [self2 rest2].
    simpl in IH. simpl. rewrite IH, Hw, Hh, most_recent_app.
    unfold samples_of. simpl. rewrite app_assoc. reflexivity.
Qed.

(** C4.  Along any sequence of frames, an entity's History Window is the
    most recent [window] of the samples recorded for it, in the order they
    arrived (oldest dropped first, nothing reordered): each call appends
    the frame's sample, if any, at the end and trims from the front.  So
    the window never holds more than [window] samples, and holds exactly
    [window] of them once more than that have been recorded. *)
Theorem history_window_is_fifo self f_idx (frames : list frame) pid :
  (length (history_of self pid) <= Z.to_nat (window self))%nat ->
  let w := Z.to_nat (window self) in
  let recorded := history_of self pid ++ samples_of frames pid in
  let h' := history_of (update_frames self f_idx frames).1 pid in
  h' = Spec.most_recent w recorded /\
  (length h' <= w)%nat /\
  ((w < length recorded)%nat -> length h' = w) /\
  (exists dropped, recorded = dropped ++ h').
Proof.
  intros Hinv w recorded h'.
  assert (Hh : h' = Spec.most_recent w recorded)
    by (apply update_frames_history; exact Hinv).
  split; [exact Hh |]. rewrite Hh, most_recent_length.
  split; [lia |]. split; [lia |].
  exists (take (length recorded - w) recorded).
  unfold Spec.most_recent. symmetry. apply take_drop.
Qed.

Lemma history_window_is_fifo_witness :
  let trk := Track.mk (0, 0, 10, 20)%Q (Some 18%Q) (Some 3%Q)
                      None None None None in
  let frames : list frame := [ {[ 4 := trk ]}; ∅; {[ 4 := trk ]} ] in
  (length (history_of (init 24) 4) <= Z.to_nat (window (init 24)))%nat /\
  history_of (update_frames (init 24) 0 frames).1 4
  = Spec.most_recent (Z.to_nat (window (init 24)))
      (history_of (init 24) 4 ++ samples_of frames 4).
Proof.
  intros trk frames.
  assert (H : (length (history_of (init 24) 4)
               <= Z.to_nat (window (init 24)))%nat)
    by (change (0 <= Z.to_nat (window (init 24)))%nat; lia).
  split; [exact H |].
  exact (proj1 (history_window_is_fifo (init 24) 0 frames 4 H)).
Defined.

(* ===================================================================== *)
(** ** The summary of step 11                                            *)
(* ===================================================================== *)

Lemma has_speed_false (fr : frame) pid :
  has_speed fr pid = false -> fr !! pid ≫= Track.speed = None.
Proof. unfold has_speed. destruct (fr !! pid ≫= Track.speed); congruence. Qed.

(** The scan walks over the frames in which the entity has no speed. *)
Lemma scan_back_skip (l1 l2 : list frame) pid :
  Forall (fun fr => has_speed fr pid = false) l1 ->
  Pipeline.scan_back (l1 ++ l2) pid = Pipeline.scan_back l2 pid.
Proof.
  induction 1 as [| fr l1 Hfr _ IH]; [reflexivity |].
  simpl. apply has_speed_false in Hfr.
  destruct (fr !! pid) as [trk |]; [| exact IH].
  simpl in Hfr. rewrite Hfr. exact IH.
Qed.

(** ... and stops at the first one in which it has. *)
Lemma scan_back_hit (fr : frame) rest pid trk spd :
  fr !! pid = Some trk -> Track.speed trk = Some spd ->
  Pipeline.scan_back (fr :: rest) pid
  = (dist ← Track.distance trk;
     Some (spd, dist, default (Fin 0%R) (Track.risk trk))).
Proof. intros Hl Hs. simpl. rewrite Hl, Hs. reflexivity. Qed.

Lemma scan_back_none (l : list frame) pid :
  Forall (fun fr => has_speed fr pid = false) l ->
  Pipeline.scan_back l pid = Some (0%Q, 0%Q, Fin 0%R).
Proof.
  intros H. rewrite <- (app_nil_r l). rewrite scan_back_skip by exact H.
  reflexivity.
Qed.

Lemma Forall_rev_drop (P : frame -> Prop) (players : list frame) (f : nat) :
  (forall g fr, (f < g)%nat -> players !! g = Some fr -> P fr) ->
  Forall P (rev (drop (S f) players)).
Proof.
  intros H. apply Forall_forall. intros fr Hin.
  apply list_elem_of_In, in_rev, list_elem_of_In in Hin.
  apply list_elem_of_lookup in Hin as [i Hi].
  rewrite lookup_drop in Hi. apply (H (S f + i)%nat); [lia | exact Hi].
Qed.

(** The snapshot is read off the latest frame in which the entity has a
    speed. *)
Lemma snapshot_latest (players : list frame) pid f fr trk spd :
  players !! f = Some fr -> fr !! pid = Some trk ->
  Track.speed trk = Some spd ->
  (forall g fr', (f < g)%nat -> players !! g = Some fr' ->
                 has_speed fr' pid = false) ->
  Pipeline.snapshot players pid
  = (dist ← Track.distance trk;
     Some (spd, dist, default (Fin 0%R) (Track.risk trk))).
Proof.
  intros Hf Hl Hs Hlater. unfold Pipeline.snapshot.
  rewrite <- (take_drop_middle players f fr Hf).
  rewrite rev_app_distr. simpl. rewrite <- app_assoc. simpl.
  rewrite scan_back_skip by (apply Forall_rev_drop; exact Hlater).
  apply scan_back_hit; assumption.
Qed.

Lemma snapshot_no_valid_frame (players : list frame) pid :
  (forall g fr, players !! g = Some fr -> has_speed fr pid = false) ->
  Pipeline.snapshot players pid = Some (0%Q, 0%Q, Fin 0%R).
Proof.
  intros H. unfold Pipeline.snapshot. apply scan_back_none.
  apply Forall_forall. intros fr Hin.
  apply list_elem_of_In, in_rev, list_elem_of_In in Hin.
  apply list_elem_of_lookup in Hin as [i Hi]. exact (H i fr Hi).
Qed.

(** With well-formed records the scan never fails. *)
Lemma scan_back_total (l : list frame) pid :
  Forall (map_Forall (fun _ trk => kinematics_ok trk = true)) l ->
  is_Some (Pipeline.scan_back l pid).
Proof.
  induction 1 as [| fr l Hfr _ IH]; [eexists; reflexivity |].
  simpl. destruct (fr !! pid) as [trk |] eqn:Hl; [| exact IH].
  specialize (Hfr pid trk Hl). unfold kinematics_ok in Hfr. simpl in Hfr.
  destruct (Track.speed trk); [| exact IH].
  destruct (Track.distance trk); [eexists; reflexivity | discriminate].
Qed.

Lemma make_row_total (players : list frame) pid :
  players <> [] ->
  Forall (map_Forall (fun _ trk => kinematics_ok trk = true)) players ->
  is_Some (Pipeline.make_row players pid).
Proof.
  intros Hne Hwf. unfold Pipeline.make_row, Pipeline.snapshot.
  destruct (scan_back_total (rev players) pid) as [[[spd dist] r] Hscan].
  { apply Forall_forall. intros fr Hin.
    apply list_elem_of_In, in_rev, list_elem_of_In in Hin.
    revert fr Hin. apply Forall_forall. exact Hwf. }
  rewrite Hscan. simpl.
  destruct players as [| fr0 rest]; [congruence |]. simpl.
  eexists. reflexivity.
Qed.

Lemma py_round_R_zero (n : nat) : py_round_R (Fin 0%R) n = Fin 0%R.
Proof.
  unfold py_round_R. f_equal. rewrite Rmult_0_l.
  assert (Hi : Int_part 0 = 0) by (symmetry; apply Int_part_spec; simpl; lra).
  unfold round_half_even_R. rewrite fp_R0, Hi.
  destruct (Rlt_dec 0 (1 / 2)) as [_ | Hn]; [| exfalso; lra].
  unfold Rdiv. apply Rmult_0_l.
Qed.

(** The rows a successful pass over the keys collects: one per key, in
    order, each the row of its key. *)
Lemma collected_rows (g : Z -> option Pipeline.summary_row) ks rows :
  mapM (fun pid => row ← g pid; Some (pid, row)) ks = Some rows ->
  rows.*1 = ks /\ forall pid row, (pid, row) ∈ rows -> g pid = Some row.
Proof.
  intros H. apply mapM_Some_1 in H.
  induction H as [| pid [pid' row] ks rows Hrow _ [IHk IHr]].
  - split; [reflexivity |]. intros pid row Hin. inversion Hin.
  - destruct (g pid) as [row0 |] eqn:Hg; [| discriminate].
    simpl in Hrow. injection Hrow as <- <-. split.
    + rewrite fmap_cons, IHk. reflexivity.
    + intros p r Hin. apply elem_of_cons in Hin as [Heq | Hin].
      * injection Heq as -> ->. exact Hg.
      * apply IHr. exact Hin.
Qed.

(** The summary has exactly the keys of [risk_est.risk], each with the
    row [make_row] builds for it. *)
Lemma summary_lookup est players s pid :
  Pipeline.summary est players = Some s ->
  s !! pid = (risk est !! pid ≫= fun _ => Pipeline.make_row players pid).
Proof.
  unfold Pipeline.summary. intros H.
  destruct (mapM _ _) as [rows |] eqn:Hrows; [| discriminate].
  simpl in H. injection H as <-.
  destruct (collected_rows _ _ _ Hrows) as [Hkeys Hrow].
  assert (Hnd : NoDup rows.*1)
    by (rewrite Hkeys; apply NoDup_fst_map_to_list).
  destruct (risk est !! pid) as [v |] eqn:Hv; simpl.
  - assert (Hin : pid ∈ rows.*1).
    { rewrite Hkeys. apply list_elem_of_fmap. exists (pid, v).
      split; [reflexivity |]. apply elem_of_map_to_list. exact Hv. }
    apply list_elem_of_fmap in Hin as ([p row] & Hp & Hin).
    simpl in Hp. subst p.
    rewrite (Hrow pid row Hin).
    apply elem_of_list_to_map_1; assumption.
  - apply not_elem_of_list_to_map_1. rewrite Hkeys. intros Hin.
    apply list_elem_of_fmap in Hin as ([p v] & Hp & Hin).
    simpl in Hp. subst p. apply elem_of_map_to_list in Hin. congruence.
Qed.

Lemma summary_total est (players : list frame) :
  players <> [] ->
  Forall (map_Forall (fun _ trk => kinematics_ok trk = true)) players ->
  is_Some (Pipeline.summary est players).
Proof.
  intros Hne Hwf. unfold Pipeline.summary.
  destruct (mapM _ _) as [rows |] eqn:Hrows; [eexists; reflexivity |].
  apply mapM_None_1, Exists_exists in Hrows as (pid & _ & Hnone).
  destruct (make_row_total players pid Hne Hwf) as [row Hrow].
  rewrite Hrow in Hnone. discriminate.
Qed.

(** C8.  (For a non-empty sequence of frames with well-formed records.)
    The summary has one row for every key of [risk_est.risk].  Its speed,
    distance and risk are the snapshot, rounded, and the snapshot is taken
    from the latest frame in which the entity has a non-missing speed (the
    first found scanning from the last frame to the first); if there is no
    such frame the snapshot is (0.0, 0.0, 0.0), the row holds 0.0 three
    times, and the entity is in the summary all the same. *)
Theorem summary_uses_latest_valid_frame est (players : list frame) :
  players <> [] ->
  Forall (map_Forall (fun _ trk => kinematics_ok trk = true)) players ->
  exists s, Pipeline.summary est players = Some s /\
  (forall pid, is_Some (s !! pid) <-> is_Some (risk est !! pid)) /\
  forall pid, is_Some (risk est !! pid) ->
  exists row speed dist rsk,
    s !! pid = Some row /\
    Pipeline.snapshot players pid = Some (speed, dist, rsk) /\
    Pipeline.speed_kmh row = py_round speed 2 /\
    Pipeline.distance_m row = py_round dist 2 /\
    Pipeline.risk_pct row = py_round_R rsk 1 /\
    (forall f fr trk,
       players !! f = Some fr -> fr !! pid = Some trk ->
       is_Some (Track.speed trk) ->
       (forall g fr', (f < g)%nat -> players !! g = Some fr' ->
                      has_speed fr' pid = false) ->
       Track.speed trk = Some speed /\ Track.distance trk = Some dist /\
       rsk = default (Fin 0%R) (Track.risk trk)) /\
    ((forall g fr, players !! g = Some fr -> has_speed fr pid = false) ->
     (speed, dist, rsk) = (0%Q, 0%Q, Fin 0%R) /\
     (Pipeline.speed_kmh row == 0)%Q /\ (Pipeline.distance_m row == 0)%Q /\
     Pipeline.risk_pct row = Fin 0%R).
Proof.
  intros Hne Hwf.
  destruct (summary_total est players Hne Hwf) as [s Hs].
  exists s. split; [exact Hs |]. split.
  { intros pid. rewrite (summary_lookup est players s pid Hs).
    destruct (risk est !! pid) as [v |]; simpl.
    - split; [eexists; reflexivity |]. intros _.
      apply make_row_total; assumption.
    - split; intros [? ?]; discriminate. }
  intros pid [v Hv].
  pose proof (summary_lookup est players s pid Hs) as Hrow.
  rewrite Hv in Hrow. simpl in Hrow.
  unfold Pipeline.make_row in Hrow.
  destruct (Pipeline.snapshot players pid) as [[[speed dist] rsk] |] eqn:Hsnap;
    [| simpl in Hrow; destruct (make_row_total players pid Hne Hwf) as [r Hr];
       unfold Pipeline.make_row in Hr; rewrite Hsnap in Hr; discriminate].
  simpl in Hrow.
  destruct (players !! 0%nat) as [fr0 |] eqn:H0;
    [| destruct players; [congruence | discriminate]].
  simpl in Hrow.
  eexists. exists speed, dist, rsk.
  split; [exact Hrow |]. simpl.
  split; [reflexivity |]. do 3 (split; [reflexivity |]). split.
  - intros f fr trk Hf Hl [spd Hspd] Hlater.
    rewrite (snapshot_latest players pid f fr trk spd Hf Hl Hspd Hlater)
      in Hsnap.
    destruct (Track.distance trk) as [d |]; [| discriminate].
    simpl in Hsnap. injection Hsnap as -> -> ->. rewrite Hspd.
    repeat split.
  - intros Hnone.
    rewrite (snapshot_no_valid_frame players pid Hnone) in Hsnap.
    injection Hsnap as <- <- <-.
    split; [reflexivity |]. split; [reflexivity |]. split; [reflexivity |].
    apply py_round_R_zero.
Qed.

Lemma summary_uses_latest_valid_frame_witness :
  let valid spd dist r : frame :=
    {[ 9 := Track.mk (0, 0, 10, 20)%Q (Some spd) (Some dist) (Some (Fin r))
                     None None None ]} in
  let invalid : frame :=
    {[ 9 := Track.mk (0, 0, 10, 20)%Q None None None None None None ]} in
  let players : list frame :=
    [ valid 18%Q 1%Q 10%R; invalid; invalid; invalid; invalid;
      valid 20%Q 30%Q 20%R; invalid; invalid; invalid; invalid;
      valid 12%Q 55%Q 30%R ] in
  let est := mk 24 ∅ {[ 9 := Fin 30%R ]} in
  players <> [] /\
  Forall (map_Forall (fun _ trk => kinematics_ok trk = true)) players /\
  exists s row,
    Pipeline.summary est players = Some s /\ s !! 9 = Some row /\
    Pipeline.snapshot players 9 = Some (12%Q, 55%Q, Fin 30%R).
Proof.
  intros valid invalid players est.
  assert (Hne : players <> []) by discriminate.
  assert (Hwf : Forall (map_Forall (fun _ trk => kinematics_ok trk = true))
                       players).
  { repeat constructor; intros k trk Hl;
      apply lookup_singleton_Some in Hl as [_ <-]; reflexivity. }
  split; [exact Hne |]. split; [exact Hwf |].
  destruct (summary_uses_latest_valid_frame est players Hne Hwf)
    as (s & Hs & _ & Hrows).
  destruct (Hrows 9) as (row & speed & dist & rsk & Hrow & Hsnap & _ & _ & _
                         & Hlatest & _).
  { eexists. apply lookup_singleton_eq. }
  exists s, row. split; [exact Hs |]. split; [exact Hrow |].
  destruct (Hlatest 10%nat (valid 12%Q 55%Q 30%R)
              (Track.mk (0, 0, 10, 20)%Q (Some 12%Q) (Some 55%Q)
                        (Some (Fin 30%R)) None None None))
    as (Hspeed & Hdist & Hrsk).
  - reflexivity.
  - apply lookup_singleton_eq.
  - eexists. reflexivity.
  - intros g fr' Hg Hl. apply lookup_lt_Some in Hl. simpl in Hl. lia.
  - simpl in Hspeed, Hdist, Hrsk. injection Hspeed as <-.
    injection Hdist as <-. rewrite Hrsk in Hsnap. exact Hsnap.
Defined.

(* ===================================================================== *)
(** ** The possession loop of step 8                                     *)
(* ===================================================================== *)

Lemma carry_forward_previous (f : nat) (tbc : list pyval) :
  length tbc = f -> Pipeline.carry_forward f tbc = previous_label f tbc.
Proof.
  intros <-. unfold Pipeline.carry_forward, previous_label.
  destruct (Nat.eqb (length tbc) 0); [reflexivity |].
  rewrite last_lookup. f_equal. lia.
Qed.

Lemma previous_label_app (f : nat) (tbc more : list pyval) :
  (f <= length tbc)%nat ->
  previous_label f (tbc ++ more) = previous_label f tbc.
Proof.
  intros Hf. unfold previous_label.
  destruct (Nat.eqb f 0) eqn:E; [reflexivity |].
  apply Nat.eqb_neq in E. apply lookup_app_l. lia.
Qed.

Lemma previous_label_is_Some (f : nat) (tbc : list pyval) :
  length tbc = f -> is_Some (previous_label f tbc).
Proof.
  intros <-. unfold previous_label.
  destruct (Nat.eqb (length tbc) 0) eqn:E; [eexists; reflexivity |].
  apply Nat.eqb_neq in E. apply lookup_lt_is_Some. lia.
Qed.

Lemma possession_rule_app assign tbc more f ball_f fr lbl :
  (f <= length tbc)%nat ->
  possession_rule assign tbc f ball_f fr lbl ->
  possession_rule assign (tbc ++ more) f ball_f fr lbl.
Proof.
  intros Hf. unfold possession_rule.
  rewrite previous_label_app by exact Hf. trivial.
Qed.

(** [update_metrics] leaves the team of every record as it was. *)
Lemma update_metrics_team self f_idx (tracks : frame) pid :
  (update_metrics self f_idx tracks).2 !! pid ≫= Track.team
  = tracks !! pid ≫= Track.team.
Proof.
  destruct (update_metrics self f_idx tracks) as [self' tracks'] eqn:Hup.
  simpl. destruct (tracks !! pid) as [trk |] eqn:Hl.
  - pose proof (update_metrics_entity _ _ _ _ _ _ _ Hup Hl) as [_ H].
    destruct (Track.speed trk).
    + destruct H as (_ & _ & ->). reflexivity.
    + destruct H as (_ & _ & ->). reflexivity.
  - pose proof (update_metrics_entity_absent _ _ _ _ _ _ Hup Hl)
      as (_ & _ & _ & ->).
    reflexivity.
Qed.

(** One frame of the loop: with a ready frame the body succeeds, calls
    [update_metrics], and appends the label the rule gives. *)
Lemma frame_step_ready assign ball (f_idx : nat) (fr : frame) st :
  length (Pipeline.team_ball_control st) = f_idx ->
  frame_ready assign ball f_idx
    (update_metrics (Pipeline.risk_est st) (Z.of_nat f_idx) fr).2 ->
  exists st' lbl ball_f,
    Pipeline.frame_step assign ball f_idx fr st = Some st' /\
    Pipeline.risk_est st'
      = (update_metrics (Pipeline.risk_est st) (Z.of_nat f_idx) fr).1 /\
    Pipeline.team_ball_control st' = Pipeline.team_ball_control st ++ [lbl] /\
    ball !! f_idx = Some ball_f /\
    possession_rule assign (Pipeline.team_ball_control st) f_idx ball_f
      (update_metrics (Pipeline.risk_est st) (Z.of_nat f_idx) fr).2 lbl.
Proof.
  intros Hlen (ball_f & Hball & Hready).
  unfold Pipeline.frame_step.
  destruct (update_metrics (Pipeline.risk_est st) (Z.of_nat f_idx) fr)
    as [est fr_u].
  simpl in Hready. simpl. rewrite Hball. simpl.
  destruct (previous_label_is_Some f_idx (Pipeline.team_ball_control st) Hlen)
    as [prev Hprev].
  pose proof (carry_forward_previous f_idx _ Hlen) as Hcf.
  unfold possession_rule.
  destruct ball_f as [bb |].
  - destruct (assign fr_u bb =? -1) eqn:E; simpl.
    + rewrite Hcf, Hprev. simpl.
      eexists. exists prev, (Some bb). simpl. rewrite E.
      repeat split; congruence.
    + apply Z.eqb_neq in E. destruct (Hready E) as [lbl Hlbl].
      destruct (fr_u !! assign fr_u bb) as [trk |] eqn:Hl; [| discriminate].
      simpl in Hlbl. simpl. rewrite Hlbl. simpl.
      eexists. exists lbl, (Some bb). simpl.
      apply Z.eqb_neq in E. rewrite E, Hl. simpl.
      repeat split; congruence.
  - rewrite Hcf, Hprev. simpl.
    eexists. exists prev, None. simpl. repeat split; congruence.
Qed.

Lemma update_frames_cons self f_idx (fr : frame) rest :
  update_frames self f_idx (fr :: rest)
  = ((update_frames (update_metrics self f_idx fr).1 (f_idx + 1) rest).1,
     (update_metrics self f_idx fr).2
       :: (update_frames (update_metrics self f_idx fr).1 (f_idx + 1) rest).2).
Proof.
  simpl. destruct (update_metrics self f_idx fr) as [self1 fr1]. simpl.
  destruct (update_frames self1 (f_idx + 1) rest). reflexivity.
Qed.

(** The updated frames are the given ones, one for one, with the same
    teams. *)
Lemma update_frames_lookup self f_idx (frames : list frame) f fr :
  frames !! f = Some fr ->
  exists fr_u, (update_frames self f_idx frames).2 !! f = Some fr_u /\
    forall pid, fr_u !! pid ≫= Track.team = fr !! pid ≫= Track.team.
Proof.
  revert self f_idx f.
  induction frames as [| fr0 rest IH]; intros self f_idx f Hf;
    [inversion Hf |].
  rewrite update_frames_cons. destruct f as [| f]; simpl in Hf |- *.
  - injection Hf as <-. eexists. split; [reflexivity |].
    intros pid. apply update_metrics_team.
  - apply IH. exact Hf.
Qed.

(** The whole loop, from frame [f0] on: it runs to the end when every
    frame is ready, threads the estimator through [update_metrics], and
    appends one label per frame, each by the rule. *)
Lemma frames_loop_run assign ball (rest : list frame) (f0 : nat) st :
  length (Pipeline.team_ball_control st) = f0 ->
  (forall i fr_u,
     (update_frames (Pipeline.risk_est st) (Z.of_nat f0) rest).2 !! i
       = Some fr_u ->
     frame_ready assign ball (f0 + i) fr_u) ->
  exists st',
    Pipeline.frames_loop assign ball f0 rest st = Some st' /\
    Pipeline.risk_est st'
      = (update_frames (Pipeline.risk_est st) (Z.of_nat f0) rest).1 /\
    (exists new, Pipeline.team_ball_control st'
                 = Pipeline.team_ball_control st ++ new /\
                 length new = length rest) /\
    forall i fr_u,
      (update_frames (Pipeline.risk_est st) (Z.of_nat f0) rest).2 !! i
        = Some fr_u ->
      exists lbl ball_f,
        Pipeline.team_ball_control st' !! (f0 + i)%nat = Some lbl /\
        ball !! (f0 + i)%nat = Some ball_f /\
        possession_rule assign (Pipeline.team_ball_control st') (f0 + i)
                        ball_f fr_u lbl.
Proof.
  revert f0 st. induction rest as [| fr rest IH]; intros f0 st Hlen Hready.
  - exists st. split; [reflexivity |]. split; [reflexivity |].
    split; [exists []; split; [symmetry; apply app_nil_r | reflexivity] |].
    intros i fr_u Hi. inversion Hi.
  - rewrite update_frames_cons in Hready.
    destruct (frame_step_ready assign ball f0 fr st Hlen)
      as (st1 & lbl & ball_f & Hstep & Hest1 & Htbc1 & Hball & Hrule).
    { specialize (Hready 0%nat _ eq_refl).
      rewrite Nat.add_0_r in Hready. exact Hready. }
    assert (Hlen1 : length (Pipeline.team_ball_control st1) = S f0)
      by (rewrite Htbc1, length_app; simpl; lia).
    destruct (IH (S f0) st1 Hlen1)
      as (st' & Hloop & Hest & (new & Hnew & Hnewlen) & Hlabels).
    { intros i fr_u Hi. rewrite Hest1 in Hi.
      replace (Z.of_nat (S f0)) with (Z.of_nat f0 + 1) in Hi by lia.
      replace (S f0 + i)%nat with (f0 + S i)%nat by lia.
      apply Hready. exact Hi. }
    rewrite Hest1 in Hest, Hlabels.
    replace (Z.of_nat (S f0)) with (Z.of_nat f0 + 1) in Hest, Hlabels by lia.
    exists st'. rewrite update_frames_cons. simpl.
    split; [rewrite Hstep; exact Hloop |]. split; [exact Hest |].
    assert (Htbc : Pipeline.team_ball_control st'
                   = Pipeline.team_ball_control st ++ lbl :: new)
      by (rewrite Hnew, Htbc1, <- app_assoc; reflexivity).
    split; [exists (lbl :: new); split; [exact Htbc | simpl; lia] |].
    intros [| i] fr_u Hi; simpl in Hi.
    + injection Hi as <-. rewrite Nat.add_0_r.
      exists lbl, ball_f. split; [| split; [exact Hball |]].
      * rewrite Htbc. apply list_lookup_middle. symmetry. exact Hlen.
      * rewrite Htbc. apply possession_rule_app; [lia | exact Hrule].
    + replace (f0 + S i)%nat with (S f0 + i)%nat by lia.
      apply Hlabels. exact Hi.
Qed.

(** C9.  (For an input on which the loop of step 8 runs to the end.)  One
    possession label is appended per frame.  In a frame with no ball
    detection, or in which no entity is assigned possession, the label is
    the previous frame's label, ["none"] at frame 0; in a frame in which an
    entity is assigned possession, the label is that entity's team. *)
Theorem possession_label_carries_forward
    (assign : frame -> Pipeline.bbox -> Z) (trs : Pipeline.tracks) :
  (forall f fr_u,
     (update_frames (init 24) 0 (Pipeline.players trs)).2 !! f = Some fr_u ->
     frame_ready assign (Pipeline.ball trs) f fr_u) ->
  exists st',
    Pipeline.step8 assign trs = Some st' /\
    length (Pipeline.team_ball_control st')
      = length (Pipeline.players trs) /\
    forall f fr, Pipeline.players trs !! f = Some fr ->
      exists fr_u lbl,
        (update_frames (init 24) 0 (Pipeline.players trs)).2 !! f
          = Some fr_u /\
        (forall pid, fr_u !! pid ≫= Track.team = fr !! pid ≫= Track.team) /\
        Pipeline.team_ball_control st' !! f = Some lbl /\
        (Pipeline.ball trs !! f = Some None ->
         Some lbl = previous_label f (Pipeline.team_ball_control st')) /\
        (forall bb, Pipeline.ball trs !! f = Some (Some bb) ->
           assign fr_u bb = -1 ->
           Some lbl = previous_label f (Pipeline.team_ball_control st')) /\
        (forall bb, Pipeline.ball trs !! f = Some (Some bb) ->
           assign fr_u bb <> -1 ->
           fr !! assign fr_u bb ≫= Track.team = Some lbl).
Proof.
  intros Hready. unfold Pipeline.step8.
  destruct (frames_loop_run assign (Pipeline.ball trs) (Pipeline.players trs)
              0%nat (Pipeline.mk_state (init 24) [] []) eq_refl)
    as (st' & Hloop & _ & (new & Hnew & Hnewlen) & Hlabels).
  { intros i fr_u Hi. apply Hready. exact Hi. }
  exists st'. split; [exact Hloop |].
  split; [rewrite Hnew; simpl; exact Hnewlen |].
  intros f fr Hf.
  destruct (update_frames_lookup (init 24) 0 _ f fr Hf) as (fr_u & Hu & Hteam).
  destruct (Hlabels f fr_u Hu) as (lbl & ball_f & Hlbl & Hball & Hrule).
  simpl in Hlbl, Hball, Hrule.
  exists fr_u, lbl. split; [exact Hu |]. split; [exact Hteam |].
  split; [exact Hlbl |]. unfold possession_rule in Hrule.
  split; [| split].
  - intros Hb. rewrite Hb in Hball. injection Hball as <-. exact Hrule.
  - intros bb Hb Hown. rewrite Hb in Hball. injection Hball as <-.
    rewrite Hown in Hrule. exact Hrule.
  - intros bb Hb Hown. rewrite Hb in Hball. injection Hball as <-.
    apply Z.eqb_neq in Hown. rewrite Hown in Hrule.
    rewrite <- Hteam. exact Hrule.
Qed.

Lemma possession_label_carries_forward_witness :
  let trkA := Track.mk (0, 0, 10, 20)%Q (Some 18%Q) (Some 3%Q) None
                       (Some (VInt 1)) None None in
  let trkB := Track.mk (5, 5, 10, 20)%Q None None None
                       (Some (VInt 2)) None None in
  let assign (fr : frame) (bb : Pipeline.bbox) : Z :=
    if decide (is_Some (fr !! 4)) then 4 else -1 in
  let trs := Pipeline.mk_tracks
               [ {[ 4 := trkA ]}; {[ 5 := trkB ]}; {[ 4 := trkA; 5 := trkB ]}; ∅ ]
               [ None; Some (0, 0, 1, 1)%Q; Some (0, 0, 1, 1)%Q; None ] in
  (forall f fr_u,
     (update_frames (init 24) 0 (Pipeline.players trs)).2 !! f = Some fr_u ->
     frame_ready assign (Pipeline.ball trs) f fr_u) /\
  exists st',
    Pipeline.step8 assign trs = Some st' /\
    length (Pipeline.team_ball_control st') = 4%nat.
Proof.
  intros trkA trkB assign trs.
  assert (Hready : forall f fr_u,
            (update_frames (init 24) 0 (Pipeline.players trs)).2 !! f
              = Some fr_u ->
            frame_ready assign (Pipeline.ball trs) f fr_u).
  { intros f fr_u Hf.
    destruct f as [| [| [| [| f]]]]; vm_compute in Hf;
      [injection Hf as <- .. | discriminate].
    - exists None. split; [reflexivity | exact I].
    - exists (Some (0, 0, 1, 1)%Q). split; [reflexivity |].
      intros Hown. exfalso. apply Hown. reflexivity.
    - exists (Some (0, 0, 1, 1)%Q). split; [reflexivity |].
      intros _. exists (VInt 1). reflexivity.
    - exists None. split; [reflexivity | exact I]. }
  split; [exact Hready |].
  destruct (possession_label_carries_forward assign trs Hready)
    as (st' & Hrun & Hlen & _).
  exists st'. split; [exact Hrun | exact Hlen].
Defined.

(* ===================================================================== *)
(** ** Further properties of [update_metrics]                            *)
(* ===================================================================== *)

Lemma same_at_sym pid s1 s2 : same_at pid s1 s2 -> same_at pid s2 s1.
Proof. intros (? & ? & ? & ?). repeat split; congruence. Qed.

(** Two states that hold the same for every entity are the same state. *)
Lemma same_at_all_eq (s1 s2 : t * frame) :
  (forall pid, same_at pid s1 s2) -> s1 = s2.
Proof.
  destruct s1 as [[f1 h1 r1] t1], s2 as [[f2 h2 r2] t2]. intros H.
  assert (Hf : f1 = f2) by (destruct (H 0) as (Hf & _); exact Hf).
  assert (Hh : h1 = h2)
    by (apply map_eq; intros pid; destruct (H pid) as (_ & Hh & _); exact Hh).
  assert (Hr : r1 = r2)
    by (apply map_eq; intros pid;
        destruct (H pid) as (_ & _ & Hr & _); exact Hr).
  assert (Ht : t1 = t2)
    by (apply map_eq; intros pid;
        destruct (H pid) as (_ & _ & _ & Ht); exact Ht).
  subst. reflexivity.
Qed.

(** X1.  [update_metrics] does not depend on the order in which the track set
    lists its items: the loop run over any arrangement of the same items
    ends in the same estimator and the same track set. *)
Theorem update_metrics_order_irrelevant
    self f_idx (tracks : frame) (items : list (Z * Track.t)) :
  items ≡ₚ map_to_list tracks ->
  fold_left (update_one f_idx) items (self, tracks)
  = update_metrics self f_idx tracks.
Proof.
  intros Hperm. apply same_at_all_eq. intros pid.
  assert (Hnd : NoDup items.*1).
  { rewrite Hperm. apply NoDup_fst_map_to_list. }
  destruct (tracks !! pid) as [trk |] eqn:Hl.
  - eapply same_at_trans;
      [| apply same_at_sym, (update_metrics_at self f_idx tracks pid trk Hl)].
    apply fold_update_one_at; [exact Hnd |].
    rewrite Hperm. apply elem_of_map_to_list. exact Hl.
  - eapply same_at_trans;
      [| apply same_at_sym, (update_metrics_absent self f_idx tracks pid Hl)].
    apply fold_update_one_other. rewrite Hperm. intros Hin.
    apply list_elem_of_fmap in Hin as ([q trk] & Heq & Hin).
    simpl in Heq. subst q. apply elem_of_map_to_list in Hin. congruence.
Qed.

Lemma update_metrics_order_irrelevant_witness :
  let a := Track.mk (0, 0, 10, 20)%Q (Some 18%Q) (Some 3%Q)
                    None None None None in
  let b := Track.mk (5, 5, 10, 20)%Q (Some 9%Q) (Some 1%Q)
                    None None None None in
  let tracks : frame := {[ 4 := a; 5 := b ]} in
  [(5, b); (4, a)] ≡ₚ map_to_list tracks /\
  fold_left (update_one 0) [(5, b); (4, a)] (init 24, tracks)
  = update_metrics (init 24) 0 tracks.
Proof.
  intros a b tracks.
  assert (H : [(5, b); (4, a)] ≡ₚ map_to_list tracks).
  { unfold tracks. rewrite map_to_list_insert by reflexivity.
    rewrite map_to_list_singleton. apply perm_swap. }
  split; [exact H |].
  exact (update_metrics_order_irrelevant (init 24) 0 tracks _ H).
Defined.

(** X2.  [update_metrics] keeps the keys of the track set and changes nothing
    of a record but its [risk] field: a record without a speed comes out
    as it went in, a record with a speed comes out with the stored Risk
    Value under [risk] and every other field as before. *)
Theorem update_metrics_touches_risk_only self f_idx (tracks : frame) :
  let self' := (update_metrics self f_idx tracks).1 in
  let tracks' := (update_metrics self f_idx tracks).2 in
  dom tracks' = dom tracks /\
  forall pid trk', tracks' !! pid = Some trk' ->
    exists trk, tracks !! pid = Some trk /\
      Track.bbox trk' = Track.bbox trk /\
      Track.speed trk' = Track.speed trk /\
      Track.distance trk' = Track.distance trk /\
      Track.team trk' = Track.team trk /\
      Track.name trk' = Track.name trk /\
      Track.has_ball trk' = Track.has_ball trk /\
      (Track.speed trk = None -> trk' = trk) /\
      (is_Some (Track.speed trk) ->
       Track.risk trk' = Some (risk_of self' pid)).
Proof.
  intros self' tracks'.
  assert (Hl : forall pid,
            tracks' !! pid = written (risk_of self' pid) <$> tracks !! pid).
  { intros pid. subst self' tracks'.
    destruct (update_metrics self f_idx tracks) as [s' t'] eqn:Hup. simpl.
    destruct (tracks !! pid) as [trk |] eqn:Hp.
    - pose proof (update_metrics_entity _ _ _ _ _ _ _ Hup Hp) as [_ H].
      unfold written. simpl. destruct (Track.speed trk).
      + destruct H as (_ & _ & ->). reflexivity.
      + destruct H as (_ & _ & ->). reflexivity.
    - pose proof (update_metrics_entity_absent _ _ _ _ _ _ Hup Hp)
        as (_ & _ & _ & ->). reflexivity. }
  split.
  - apply set_eq. intros pid. rewrite !elem_of_dom, Hl.
    destruct (tracks !! pid); simpl; split; intros [? ?];
      try discriminate; eexists; reflexivity.
  - intros pid trk' Hp. rewrite Hl in Hp.
    destruct (tracks !! pid) as [trk |]; [| discriminate].
    simpl in Hp. injection Hp as <-. exists trk.
    split; [reflexivity |]. unfold written.
    destruct (Track.speed trk) as [spd |] eqn:Hs; simpl; rewrite ?Hs;
      repeat split; try reflexivity; try (intros [? ?]; discriminate);
      try discriminate.
Qed.

(** X3.  [update_metrics] never removes an entry of [history] or [risk]: an
    entity that has no speed in the frame (absent, or present without one)
    keeps both entries exactly as they were, present or not; an entity
    that has a speed has both entries afterwards. *)
Theorem update_metrics_keeps_entries self f_idx (tracks : frame) pid :
  let self' := (update_metrics self f_idx tracks).1 in
  (has_speed tracks pid = false ->
   history self' !! pid = history self !! pid /\
   risk self' !! pid = risk self !! pid) /\
  (has_speed tracks pid = true ->
   is_Some (history self' !! pid) /\ is_Some (risk self' !! pid)) /\
  (is_Some (history self !! pid) -> is_Some (history self' !! pid)) /\
  (is_Some (risk self !! pid) -> is_Some (risk self' !! pid)).
Proof.
  intros self'. subst self'.
  destruct (update_metrics self f_idx tracks) as [s' t'] eqn:Hup. simpl.
  unfold has_speed.
  destruct (tracks !! pid) as [trk |] eqn:Hp; simpl.
  - pose proof (update_metrics_entity _ _ _ _ _ _ _ Hup Hp) as [_ H].
    destruct (Track.speed trk).
    + destruct H as (Hh & Hr & _). rewrite Hh, Hr.
      repeat split; try discriminate; eexists; reflexivity.
    + destruct H as (Hh & Hr & _). rewrite Hh, Hr.
      repeat split; try discriminate; trivial.
  - pose proof (update_metrics_entity_absent _ _ _ _ _ _ Hup Hp)
      as (_ & Hh & Hr & _).
    rewrite Hh, Hr. repeat split; try discriminate; trivial.
Qed.

(* ===================================================================== *)
(** ** The range of the computed risk                                    *)
(* ===================================================================== *)

(** [e^2 <= (1 / (1 - 2/2048))^2048], squaring eleven times and rounding
    up. *)
Lemma exp_2_upper : (exp 2 < 7.4)%R.
Proof.
  assert (H0 : (exp (2 / 2048) <= 1.000977517107)%R).
  { pose proof (exp_pos (2 / 2048)) as Hp.
    assert (He : (exp (2 / 2048) * exp (- (2 / 2048)) = 1)%R).
    { rewrite <- exp_plus. replace (2 / 2048 + - (2 / 2048))%R with 0%R by lra.
      apply exp_0. }
    assert (Hm : (1 + - (2 / 2048) < exp (- (2 / 2048)))%R)
      by (apply exp_ineq1; lra).
    nra. }
  assert (H1 : (exp (2 / 1024) <= 1.001955989754)%R)
    by (apply (exp_double_upper 1.000977517107 _ (2 / 2048)); [lra | exact H0 | lra]).
  assert (H2 : (exp (2 / 512) <= 1.003915805404)%R)
    by (apply (exp_double_upper 1.001955989754 _ (2 / 1024)); [lra | exact H1 | lra]).
  assert (H3 : (exp (2 / 256) <= 1.007846944340)%R)
    by (apply (exp_double_upper 1.003915805404 _ (2 / 512)); [lra | exact H2 | lra]).
  assert (H4 : (exp (2 / 128) <= 1.015755463216)%R)
    by (apply (exp_double_upper 1.007846944340 _ (2 / 256)); [lra | exact H3 | lra]).
  assert (H5 : (exp (2 / 64) <= 1.031759161054)%R)
    by (apply (exp_double_upper 1.015755463216 _ (2 / 128)); [lra | exact H4 | lra]).
  assert (H6 : (exp (2 / 32) <= 1.064526966419)%R)
    by (apply (exp_double_upper 1.031759161054 _ (2 / 64)); [lra | exact H5 | lra]).
  assert (H7 : (exp (2 / 16) <= 1.133217662234)%R)
    by (apply (exp_double_upper 1.064526966419 _ (2 / 32)); [lra | exact H6 | lra]).
  assert (H8 : (exp (2 / 8) <= 1.284182270000)%R)
    by (apply (exp_double_upper 1.133217662234 _ (2 / 16)); [lra | exact H7 | lra]).
  assert (H9 : (exp (2 / 4) <= 1.649124102583)%R)
    by (apply (exp_double_upper 1.284182270000 _ (2 / 8)); [lra | exact H8 | lra]).
  assert (H10 : (exp (2 / 2) <= 2.719610305721)%R)
    by (apply (exp_double_upper 1.649124102583 _ (2 / 4)); [lra | exact H9 | lra]).
  assert (H11 : (exp 2 <= 7.396280214984)%R)
    by (apply (exp_double_upper 2.719610305721 _ (2 / 2)); [lra | exact H10 | lra]).
  lra.
Qed.

(** The top of the curve the code can reach: the two placeholders being 0,
    the score is at most 0.7 and the risk at most [100/(1+e^-2)], below
    88.1. *)
Lemma logistic_top : (Spec.logistic 0.7 = 100 / (1 + exp (-2)))%R /\
                     (100 / (1 + exp (-2)) < 88.1)%R.
Proof.
  split.
  - unfold Spec.logistic. do 3 f_equal. lra.
  - pose proof exp_2_upper as Hhi. pose proof (exp_pos 2) as Hp2.
    pose proof (exp_pos (-2)) as Hp.
    assert (He : (exp 2 * exp (-2) = 1)%R).
    { rewrite <- exp_plus. replace (2 + -2)%R with 0%R by lra. apply exp_0. }
    assert (Hm : (1 / 7.4 < exp (-2))%R) by nra.
    apply Rmult_lt_reg_r with (1 + exp (-2))%R; [lra |].
    unfold Rdiv. rewrite Rmult_assoc, Rinv_l by lra. lra.
Qed.

Lemma logistic_monotone (s1 s2 : R) :
  (s1 <= s2)%R -> (Spec.logistic s1 <= Spec.logistic s2)%R.
Proof.
  intros [Hlt | ->]; [left; apply logistic_increasing; exact Hlt | lra].
Qed.

Lemma compute_fatigue_range (self : t) (pid : Z) :
  risk_in_range (_compute_fatigue self pid).
Proof.
  unfold risk_in_range.
  destruct (Nat.lt_ge_cases (length (history_of self pid)) 5) as [Hlt | Hge].
  - right. left. apply compute_fatigue_short. exact Hlt.
  - destruct (metrics_cases self (history_of self pid))
      as [(v & Hv & Hrange & Hp & Hs) | Hnan].
    + right. right. exists (Spec.logistic (Q2R (Spec.weighted_sum v))).
      split; [apply compute_fatigue_finite_metrics; assumption |].
      assert (Hq : (0 <= Spec.weighted_sum v)%Q /\
                   (Spec.weighted_sum v <= 0.7)%Q).
      { unfold Spec.weighted_sum, Spec.weight. rewrite Hp, Hs.
        pose proof (Hrange speed_drop). pose proof (Hrange sprint_count).
        pose proof (Hrange accel_events). split; lra. }
      destruct Hq as [Hlo Hhi]. apply Qle_Rle in Hlo. apply Qle_Rle in Hhi.
      replace (Q2R 0) with 0%R in Hlo by (unfold Q2R; simpl; lra).
      replace (Q2R 0.7) with 0.7%R in Hhi by (unfold Q2R; simpl; lra).
      assert (E0 : Spec.logistic 0 = (100 / (1 + exp 5))%R).
      { unfold Spec.logistic. do 3 f_equal. lra. }
      rewrite <- E0, <- (proj1 logistic_top).
      split; apply logistic_monotone; assumption.
    + left. rewrite compute_fatigue_long by exact Hge.
      rewrite score_nan by exact Hnan. reflexivity.
Qed.

(** X4.  Whatever the history, [_compute_fatigue] returns NaN, 0.0, or a value
    between [100/(1+e^5)] and [100/(1+e^-2)], that is between 0.66 and
    88.1: the posture and stride metrics being fixed at 0, the score never
    exceeds 0.7 and the risk never comes near 100. *)
Theorem compute_fatigue_never_above_88 (self : t) (pid : Z) :
  _compute_fatigue self pid = NaN \/
  _compute_fatigue self pid = Fin 0%R \/
  exists r, _compute_fatigue self pid = Fin r /\
            (100 / (1 + exp 5) <= r)%R /\ (r <= 100 / (1 + exp (-2)))%R /\
            (0.66 < r)%R /\ (r < 88.1)%R.
Proof.
  destruct (compute_fatigue_range self pid) as [H | [H | (r & H & Hlo & Hhi)]].
  - left. exact H.
  - right. left. exact H.
  - right. right. exists r. split; [exact H |].
    pose proof (proj1 logistic_ends). pose proof (proj2 logistic_top).
    repeat split; lra.
Qed.

(** One call keeps the stored risks in range, and writes values in range. *)
Lemma update_metrics_risk_in_range self f_idx (tracks : frame) pid :
  risk_in_range (risk_of self pid) ->
  risk_in_range (risk_of (update_metrics self f_idx tracks).1 pid).
Proof.
  intros Hok.
  destruct (update_metrics self f_idx tracks) as [self' tracks'] eqn:Hup.
  simpl. destruct (tracks !! pid) as [trk |] eqn:Hl.
  - pose proof (update_metrics_entity _ _ _ _ _ _ _ Hup Hl) as [_ H].
    destruct (Track.speed trk).
    + destruct H as (_ & Hr & _). unfold risk_of at 1. rewrite Hr. simpl.
      destruct (f_idx `mod` window self =? 0);
        [apply compute_fatigue_range | exact Hok].
    + destruct H as (_ & Hr & _). unfold risk_of in *. rewrite Hr. exact Hok.
  - pose proof (update_metrics_entity_absent _ _ _ _ _ _ Hup Hl)
      as (_ & _ & Hr & _).
    unfold risk_of in *. rewrite Hr. exact Hok.
Qed.

Lemma update_metrics_written self f_idx (tracks : frame) pid :
  (update_metrics self f_idx tracks).2 !! pid
  = written (risk_of (update_metrics self f_idx tracks).1 pid)
      <$> tracks !! pid.
Proof.
  destruct (update_metrics self f_idx tracks) as [s' t'] eqn:Hup. simpl.
  destruct (tracks !! pid) as [trk |] eqn:Hp.
  - pose proof (update_metrics_entity _ _ _ _ _ _ _ Hup Hp) as [_ H].
    unfold written. simpl. destruct (Track.speed trk).
    + destruct H as (_ & _ & ->). reflexivity.
    + destruct H as (_ & _ & ->). reflexivity.
  - pose proof (update_metrics_entity_absent _ _ _ _ _ _ Hup Hp)
      as (_ & _ & _ & ->). reflexivity.
Qed.

(** X5.  Along the frame loop, started from stored risks that are in range (a
    fresh estimator has none, which reads as 0.0), every stored Risk Value
    stays NaN, 0.0 or a value of [[100/(1+e^5), 100/(1+e^-2)]], and so does
    every risk written into a record. *)
Theorem stored_risk_stays_in_range self f_idx (frames : list frame) :
  (forall pid, risk_in_range (risk_of self pid)) ->
  (forall pid, risk_in_range (risk_of (update_frames self f_idx frames).1 pid))
  /\ forall i fr fr' pid trk,
       frames !! i = Some fr ->
       (update_frames self f_idx frames).2 !! i = Some fr' ->
       fr !! pid = Some trk -> is_Some (Track.speed trk) ->
       exists x, fr' !! pid ≫= Track.risk = Some x /\ risk_in_range x.
Proof.
  revert self f_idx. induction frames as [| fr0 rest IH]; intros self f_idx Hok.
  - split; [exact Hok |]. intros i fr fr' pid trk Hi. inversion Hi.
  - rewrite update_frames_cons. simpl.
    assert (Hok1 : forall pid,
              risk_in_range (risk_of (update_metrics self f_idx fr0).1 pid))
      by (intros pid; apply update_metrics_risk_in_range, Hok).
    destruct (IH (update_metrics self f_idx fr0).1 (f_idx + 1) Hok1)
      as [Hfin Hrec].
    split; [exact Hfin |].
    intros [| i] fr fr' pid trk Hi Hi' Hp [spd Hs]; simpl in Hi, Hi'.
    + injection Hi as <-. injection Hi' as <-.
      rewrite update_metrics_written, Hp. simpl.
      unfold written. rewrite Hs. simpl.
      eexists. split; [reflexivity | apply Hok1].
    + apply (Hrec i fr fr' pid trk Hi Hi' Hp). eexists. exact Hs.
Qed.

Lemma stored_risk_stays_in_range_witness :
  let trk := Track.mk (0, 0, 10, 20)%Q (Some 18%Q) (Some 3%Q)
                      None None None None in
  let frames : list frame := [ {[ 4 := trk ]}; ∅; {[ 4 := trk ]} ] in
  (forall pid, risk_in_range (risk_of (init 24) pid)) /\
  forall pid, risk_in_range (risk_of (update_frames (init 24) 0 frames).1 pid).
Proof.
  intros trk frames.
  assert (H : forall pid, risk_in_range (risk_of (init 24) pid))
    by (intros pid; right; left; reflexivity).
  split; [exact H |].
  exact (proj1 (stored_risk_stays_in_range (init 24) 0 frames H)).
Defined.

(* ===================================================================== *)
(** ** Histories of one repeated speed                                   *)
(* ===================================================================== *)

Lemma insert_sorted_Forall (P : Q -> Prop) x l :
  P x -> Forall P l -> Forall P (insert_sorted x l).
Proof.
  intros Hx Hl. induction Hl as [| y l Hy Hl IH]; simpl.
  - repeat constructor. exact Hx.
  - destruct (Qle_bool x y); repeat constructor; assumption.
Qed.

Lemma insert_sorted_length x l : length (insert_sorted x l) = S (length l).
Proof.
  induction l as [| y l IH]; simpl; [reflexivity |].
  destruct (Qle_bool x y); simpl; [reflexivity | rewrite IH; reflexivity].
Qed.

Lemma np_sort_Forall (P : Q -> Prop) l : Forall P l -> Forall P (np_sort l).
Proof.
  induction 1 as [| x l Hx _ IH]; simpl; [constructor |].
  apply insert_sorted_Forall; assumption.
Qed.

Lemma np_sort_length l : length (np_sort l) = length l.
Proof.
  induction l as [| x l IH]; simpl; [reflexivity |].
  rewrite insert_sorted_length, IH. reflexivity.
Qed.

(** The virtual index of the 90th percentile falls inside the array. *)
Lemma percentile_index_in_range (n : Z) :
  1 <= n ->
  0 <= Qfloor (inject_Z (n - 1) * (90 / 100)) <= n - 1.
Proof.
  intros Hn.
  assert (H0 : (0 <= inject_Z (n - 1))%Q)
    by (change (inject_Z 0 <= inject_Z (n - 1))%Q; rewrite <- Zle_Qle; lia).
  split.
  - change 0 with (Qfloor 0). apply Qfloor_resp_le.
    assert (H : (0 <= 90 / 100)%Q) by discriminate.
    apply Qmult_le_0_compat; assumption.
  - rewrite <- (Qfloor_Z (n - 1)) at 2. apply Qfloor_resp_le.
    generalize dependent (inject_Z (n - 1)). intros q Hq.
    assert (H : (q * (90 / 100) == q - q * (1 # 10))%Q) by field.
    rewrite H.
    assert (H1 : (0 <= q * (1 # 10))%Q)
      by (apply Qmult_le_0_compat; [exact Hq | discriminate]).
    lra.
Qed.

Lemma np_percentile_constant (l : list Q) (c : Q) :
  l <> [] -> Forall (fun x => x == c)%Q l ->
  exists b, np_percentile l 90 = Fin b /\ (b == c)%Q.
Proof.
  intros Hne HF. destruct l as [| x l']; [congruence |].
  unfold np_percentile. cbv zeta.
  set (a := np_sort (x :: l')).
  assert (Ha : Forall (fun x => x == c)%Q a) by (apply np_sort_Forall, HF).
  assert (Hlen : length a = S (length l')) by apply np_sort_length.
  pose proof (percentile_index_in_range (Z.of_nat (length a))) as Hidx.
  set (lo := Qfloor (inject_Z (Z.of_nat (length a) - 1) * (90 / 100))) in *.
  assert (Hlo : 0 <= lo <= Z.of_nat (length a) - 1) by (apply Hidx; lia).
  eexists. split; [reflexivity |].
  assert (Halo : (nth (Z.to_nat lo) a 0 == c)%Q).
  { apply (proj1 (Forall_nth _ 0%Q a) Ha). lia. }
  assert (Hahi : (nth (Z.to_nat (Z.min (lo + 1) (Z.of_nat (length a) - 1)))
                      a 0 == c)%Q).
  { apply (proj1 (Forall_nth _ 0%Q a) Ha). lia. }
  rewrite Halo, Hahi. ring.
Qed.

Lemma Qsum_constant (l : list Q) (c : Q) :
  Forall (fun x => x == c)%Q l ->
  (Qsum l == inject_Z (Z.of_nat (length l)) * c)%Q.
Proof.
  induction 1 as [| x l Hx _ IH].
  - simpl. ring.
  - change (Qsum (x :: l)) with (x + Qsum l)%Q.
    change (length (x :: l)) with (S (length l)).
    rewrite Nat2Z.inj_succ. unfold Z.succ. rewrite inject_Z_plus.
    rewrite IH, Hx. ring.
Qed.

Lemma np_mean_constant (l : list Q) (c : Q) :
  l <> [] -> Forall (fun x => x == c)%Q l ->
  exists r, np_mean l = Fin r /\ (r == c)%Q.
Proof.
  intros Hne HF. pose proof (Qsum_constant l c HF) as Hsum.
  destruct l as [| x l']; [congruence |].
  unfold np_mean. eexists. split; [reflexivity |].
  rewrite Hsum. field.
  change 0%Q with (inject_Z 0). rewrite inject_Z_injective. simpl. lia.
Qed.

Lemma count_gt_none (l : list Q) (t : Q) :
  Forall (fun x => x <= t)%Q l -> count_gt l t = 0.
Proof.
  intros HF. unfold count_gt.
  replace (List.filter (fun x => Qgtb x t) l) with (@nil Q); [reflexivity |].
  induction HF as [| x l Hx _ IH]; [reflexivity |].
  simpl. unfold Qgtb at 1.
  replace (Qle_bool x t) with true by (symmetry; apply Qle_bool_iff; exact Hx).
  exact IH.
Qed.

Lemma count_gt_all (l : list Q) (t : Q) :
  Forall (fun x => t < x)%Q l -> count_gt l t = Z.of_nat (length l).
Proof.
  intros HF. unfold count_gt.
  replace (List.filter (fun x => Qgtb x t) l) with l; [reflexivity |].
  induction HF as [| x l Hx _ IH]; [reflexivity |].
  simpl. unfold Qgtb at 1.
  destruct (Qle_bool x t) eqn:E.
  - apply Qle_bool_iff in E. exfalso. apply (Qlt_not_le _ _ Hx E).
  - simpl. f_equal. exact IH.
Qed.

Lemma np_diff_constant (l : list Q) (c : Q) :
  Forall (fun x => x == c)%Q l -> Forall (fun d => d == 0)%Q (np_diff l).
Proof.
  induction 1 as [| x l Hx Hl IH]; [constructor |].
  destruct l as [| y l']; [constructor |].
  change (np_diff (x :: y :: l')) with ((y - x)%Q :: np_diff (y :: l')).
  constructor; [| exact IH].
  inversion Hl as [| ? ? Hy _]; subst. rewrite Hx, Hy. ring.
Qed.

(** The three live sub-metrics of a history of one repeated speed. *)
Lemma speed_drop_constant self (speeds : list Q) (c : Q) :
  speeds <> [] -> Forall (fun x => x == c)%Q speeds -> ~ (c == 0)%Q ->
  exists d, metrics self speeds speed_drop = Fin d /\ (d == 0)%Q.
Proof.
  intros Hne HF Hc.
  destruct (np_percentile_constant speeds c Hne HF) as (b & Hb & Hbc).
  destruct (np_mean_constant
              (py_slice_from speeds ((- window self) `div` 2)) c)
    as (r & Hr & Hrc).
  { apply py_slice_from_neg_nonempty; [apply half_window_negative | exact Hne]. }
  { unfold py_slice_from. apply Forall_drop. exact HF. }
  unfold metrics. rewrite Hb, Hr. simpl.
  destruct (Qeq_bool b 0) eqn:E.
  - apply Qeq_bool_iff in E. rewrite Hbc in E. contradiction.
  - simpl. eexists. split; [reflexivity |].
    assert (Hz : ((b + - r) / b == 0)%Q).
    { rewrite Hbc, Hrc. field. exact Hc. }
    rewrite Hz. reflexivity.
Qed.

Lemma accel_norm_constant self (speeds : list Q) (c : Q) :
  Forall (fun x => x == c)%Q speeds ->
  exists d, metrics self speeds accel_events = Fin d /\ (d == 0)%Q.
Proof.
  intros HF. unfold metrics. cbv zeta.
  rewrite count_gt_none.
  - eexists. split; [reflexivity |]. reflexivity.
  - apply Forall_fmap. eapply Forall_impl; [apply (np_diff_constant _ c), HF |].
    intros d Hd. simpl. rewrite Hd. discriminate.
Qed.

Lemma sprint_norm_none self (speeds : list Q) :
  Forall (fun x => x <= 7)%Q speeds ->
  exists d, metrics self speeds sprint_count = Fin d /\ (d == 0)%Q.
Proof.
  intros HF. unfold metrics. cbv zeta. unfold SPRINT_SPEED.
  rewrite count_gt_none by exact HF.
  eexists. split; [reflexivity |]. reflexivity.
Qed.

Lemma sprint_norm_all self (speeds : list Q) :
  (3 <= length speeds)%nat -> Forall (fun x => 7 < x)%Q speeds ->
  exists d, metrics self speeds sprint_count = Fin d /\ (d == 1)%Q.
Proof.
  intros Hlen HF. unfold metrics. cbv zeta. unfold SPRINT_SPEED.
  rewrite count_gt_all by exact HF. simpl.
  eexists. split; [reflexivity |].
  assert (H3 : (1 <= inject_Z (Z.of_nat (length speeds))
                     / (inject_Z WINDOW_SEC / 10))%Q).
  { apply Qle_shift_div_l; [reflexivity |].
    apply Qle_trans with (inject_Z 3); [discriminate |].
    rewrite <- Zle_Qle. lia. }
  rewrite Q.max_l by (eapply Qle_trans; [| exact H3]; discriminate).
  apply Q.min_r. exact H3.
Qed.

Lemma logistic_of_zero_score (s : Q) :
  (s == 0)%Q -> Spec.logistic (Q2R s) = (100 / (1 + exp 5))%R.
Proof.
  intros Hs. rewrite (Qeq_eqR _ _ Hs).
  replace (Q2R 0) with 0%R by (unfold Q2R; simpl; lra).
  unfold Spec.logistic. do 3 f_equal. lra.
Qed.

(** X6.  A history of at least 5 samples that are all the same speed [c]:
    standing still ([c = 0]) gives NaN; a steady speed of at most 7 m/s
    gives the lowest risk there is, [100/(1+e^5)]; a steady speed above
    7 m/s (every sample a sprint) gives [100/(1+e^2.5)]. *)
Theorem constant_speed_risk (self : t) (pid : Z) (c : Q) :
  (5 <= length (history_of self pid))%nat ->
  Forall (fun x => x == c)%Q (history_of self pid) ->
  ((c == 0)%Q -> _compute_fatigue self pid = NaN) /\
  (~ (c == 0)%Q -> (c <= 7)%Q ->
   _compute_fatigue self pid = Fin (100 / (1 + exp 5))%R) /\
  ((7 < c)%Q ->
   _compute_fatigue self pid = Fin (100 / (1 + exp 2.5))%R).
Proof.
  intros Hlen HF.
  assert (Hne : history_of self pid <> [])
    by (destruct (history_of self pid); [simpl in Hlen; lia | congruence]).
  destruct (accel_norm_constant self _ c HF) as (da & Hda & Hda0).
  split; [| split].
  - intros Hc.
    destruct (np_percentile_constant _ c Hne HF) as (b & Hb & Hbc).
    destruct (np_mean_constant
                (py_slice_from (history_of self pid)
                               ((- window self) `div` 2)) c)
      as (r & Hr & Hrc).
    { apply py_slice_from_neg_nonempty;
        [apply half_window_negative | exact Hne]. }
    { unfold py_slice_from. apply Forall_drop. exact HF. }
    rewrite compute_fatigue_long by exact Hlen.
    rewrite score_nan; [reflexivity |].
    apply (speed_drop_zero_over_zero self _ b r Hb Hr).
    + rewrite Hbc. exact Hc.
    + rewrite Hrc. exact Hc.
  - intros Hc Hc7.
    destruct (speed_drop_constant self _ c Hne HF Hc) as (dd & Hdd & Hdd0).
    destruct (sprint_norm_none self (history_of self pid))
      as (ds & Hds & Hds0).
    { eapply Forall_impl; [exact HF |]. intros x Hx. simpl.
      rewrite Hx. exact Hc7. }
    rewrite (compute_fatigue_finite_metrics self pid
               (fun k => match k with
                         | speed_drop => dd | sprint_count => ds
                         | accel_events => da | _ => 0%Q end) Hlen)
      by (intros []; try assumption; reflexivity).
    f_equal. apply logistic_of_zero_score.
    unfold Spec.weighted_sum, Spec.weight. rewrite Hdd0, Hds0, Hda0. ring.
  - intros Hc7.
    assert (Hc : ~ (c == 0)%Q).
    { intros H0. rewrite H0 in Hc7. discriminate. }
    destruct (speed_drop_constant self _ c Hne HF Hc) as (dd & Hdd & Hdd0).
    destruct (sprint_norm_all self (history_of self pid))
      as (ds & Hds & Hds1).
    { lia. }
    { eapply Forall_impl; [exact HF |]. intros x Hx. simpl.
      rewrite Hx. exact Hc7. }
    rewrite (compute_fatigue_finite_metrics self pid
               (fun k => match k with
                         | speed_drop => dd | sprint_count => ds
                         | accel_events => da | _ => 0%Q end) Hlen)
      by (intros []; try assumption; reflexivity).
    f_equal.
    assert (Hs : (Spec.weighted_sum
                    (fun k => match k with
                              | speed_drop => dd | sprint_count => ds
                              | accel_events => da | _ => 0%Q end)
                  == 0.25)%Q).
    { unfold Spec.weighted_sum, Spec.weight. rewrite Hdd0, Hds1, Hda0. ring. }
    rewrite (Qeq_eqR _ _ Hs).
    replace (Q2R 0.25) with 0.25%R by (unfold Q2R; simpl; lra).
    unfold Spec.logistic. do 3 f_equal. lra.
Qed.

Lemma constant_speed_risk_witness :
  let self := mk 24 {[ 1 := [2; 2; 2; 2; 2; 2]%Q ]} ∅ in
  (5 <= length (history_of self 1))%nat /\
  Forall (fun x => x == 2)%Q (history_of self 1) /\
  _compute_fatigue self 1 = Fin (100 / (1 + exp 5))%R.
Proof.
  intros self.
  assert (Hlen : (5 <= length (history_of self 1))%nat) by (vm_compute; lia).
  assert (HF : Forall (fun x => x == 2)%Q (history_of self 1))
    by (repeat constructor).
  split; [exact Hlen |]. split; [exact HF |].
  apply (proj1 (proj2 (constant_speed_risk self 1 2 Hlen HF)));
    discriminate.
Defined.

(* ===================================================================== *)
(** ** The first window of a run                                         *)
(* ===================================================================== *)

(** Off the schedule, a run of frames leaves the stored risks alone and
    writes them unchanged. *)
Lemma update_frames_hold self f_idx (frames : list frame) pid :
  (forall i, (i < length frames)%nat ->
             (f_idx + Z.of_nat i) `mod` window self <> 0) ->
  risk_of (update_frames self f_idx frames).1 pid = risk_of self pid /\
  forall i fr, frames !! i = Some fr ->
    exists fr', (update_frames self f_idx frames).2 !! i = Some fr' /\
                fr' !! pid = written (risk_of self pid) <$> fr !! pid.
Proof.
  revert self f_idx.
  induction frames as [| fr0 rest IH]; intros self f_idx Hoff.
  - split; [reflexivity |]. intros i fr Hi. inversion Hi.
  - rewrite update_frames_cons. simpl.
    destruct (update_metrics_hold self f_idx fr0 pid) as [Hr0 Ht0].
    { specialize (Hoff 0%nat). rewrite Z.add_0_r in Hoff.
      apply Hoff. simpl. lia. }
    destruct (IH (update_metrics self f_idx fr0).1 (f_idx + 1)) as [Hr Hrec].
    { intros i Hi. rewrite update_metrics_window.
      replace (f_idx + 1 + Z.of_nat i) with (f_idx + Z.of_nat (S i)) by lia.
      apply Hoff. simpl. lia. }
    split; [congruence |].
    intros [| i] fr Hi; simpl in Hi |- *.
    + injection Hi as <-. eexists. split; [reflexivity | exact Ht0].
    + destruct (Hrec i fr Hi) as (fr' & Hfr' & Hw).
      exists fr'. split; [exact Hfr' |]. rewrite Hw, Hr0. reflexivity.
Qed.

(** The first call on a fresh estimator stores 0.0 for every entity: the
    frame is on the schedule, but no history has 5 samples yet. *)
Lemma update_metrics_fresh fps f_idx (tracks : frame) pid :
  risk_of (update_metrics (init fps) f_idx tracks).1 pid = Fin 0%R.
Proof.
  destruct (update_metrics (init fps) f_idx tracks) as [self' tracks'] eqn:Hup.
  simpl. destruct (tracks !! pid) as [trk |] eqn:Hl.
  - pose proof (update_metrics_entity _ _ _ _ _ _ _ Hup Hl) as [_ H].
    destruct (Track.speed trk) as [spd |].
    + destruct H as (Hh & Hr & _). unfold risk_of. rewrite Hr. simpl.
      destruct (f_idx `mod` window (init fps) =? 0); [| reflexivity].
      apply compute_fatigue_short. unfold history_of at 1. rewrite Hh. simpl.
      rewrite most_recent_length, length_app.
      assert (H0 : history_of (init fps) pid = [])
        by (unfold history_of; simpl; rewrite lookup_empty; reflexivity).
      rewrite H0. simpl. lia.
    + destruct H as (_ & Hr & _). unfold risk_of. rewrite Hr. reflexivity.
  - pose proof (update_metrics_entity_absent _ _ _ _ _ _ Hup Hl)
      as (_ & _ & Hr & _).
    unfold risk_of. rewrite Hr. reflexivity.
Qed.

Lemma update_frames_first_window (fps : positive) (frames : list frame) :
  Z.of_nat (length frames) <= window (init fps) ->
  (forall pid,
     risk_of (update_frames (init fps) 0 frames).1 pid = Fin 0%R) /\
  forall i fr, frames !! i = Some fr ->
    exists fr', (update_frames (init fps) 0 frames).2 !! i = Some fr' /\
      forall pid, fr' !! pid = written (Fin 0%R) <$> fr !! pid.
Proof.
  intros Hlen. destruct frames as [| fr0 rest].
  - split; [reflexivity |]. intros i fr Hi. inversion Hi.
  - rewrite update_frames_cons. simpl.
    assert (Hoff : forall i, (i < length rest)%nat ->
              (0 + 1 + Z.of_nat i)
                `mod` window (update_metrics (init fps) 0 fr0).1 <> 0).
    { intros i Hi. rewrite update_metrics_window.
      simpl in Hlen. rewrite Z.mod_small by lia. lia. }
    split.
    + intros pid.
      rewrite (proj1 (update_frames_hold _ _ rest pid Hoff)).
      apply update_metrics_fresh.
    + intros [| i] fr Hi; simpl in Hi |- *.
      * injection Hi as <-. eexists. split; [reflexivity |].
        intros pid. rewrite update_metrics_written, update_metrics_fresh.
        reflexivity.
      * destruct (proj2 (update_frames_hold _ _ rest 0 Hoff) i fr Hi)
          as (fr' & Hfr' & _).
        exists fr'. split; [exact Hfr' |]. intros pid.
        destruct (proj2 (update_frames_hold _ _ rest pid Hoff) i fr Hi)
          as (fr'' & Hfr'' & Hw).
        rewrite Hfr' in Hfr''. injection Hfr'' as <-.
        rewrite Hw, update_metrics_fresh. reflexivity.
Qed.

(** X7.  On a fresh estimator, a run that starts at frame 0 and is no longer
    than one window (720 frames, 30 s, at 24 fps) never gets to a second
    recomputation: every stored Risk Value is 0.0 at the end, and every
    risk written into a record is 0.0. *)
Theorem first_window_risk_is_zero (fps : positive) (frames : list frame) :
  Z.of_nat (length frames) <= window (init fps) ->
  (forall pid,
     risk_of (update_frames (init fps) 0 frames).1 pid = Fin 0%R) /\
  forall i fr, frames !! i = Some fr ->
    exists fr', (update_frames (init fps) 0 frames).2 !! i = Some fr' /\
      forall pid, fr' !! pid = written (Fin 0%R) <$> fr !! pid.
Proof. apply update_frames_first_window. Qed.

Lemma first_window_risk_is_zero_witness :
  let trk := Track.mk (0, 0, 10, 20)%Q (Some 18%Q) (Some 3%Q)
                      None None None None in
  let frames : list frame := [ {[ 4 := trk ]}; ∅; {[ 4 := trk ]} ] in
  Z.of_nat (length frames) <= window (init 24) /\
  forall pid, risk_of (update_frames (init 24) 0 frames).1 pid = Fin 0%R.
Proof.
  intros trk frames.
  assert (H : Z.of_nat (length frames) <= window (init 24))
    by (change (3 <= 720); lia).
  split; [exact H |].
  exact (proj1 (first_window_risk_is_zero 24 frames H)).
Defined.

(* ===================================================================== *)
(** ** The loop of step 8 as a whole                                     *)
(* ===================================================================== *)

(** One frame of the loop, when it does not raise. *)
Lemma frame_step_inv assign ball (f_idx : nat) (fr : frame) st st' :
  Pipeline.frame_step assign ball f_idx fr st = Some st' ->
  exists ball_f,
    ball !! f_idx = Some ball_f /\
    Pipeline.risk_est st'
      = (update_metrics (Pipeline.risk_est st) (Z.of_nat f_idx) fr).1 /\
    Pipeline.done_players st'
      = Pipeline.done_players st
        ++ [mark_owner assign ball_f
              (update_metrics (Pipeline.risk_est st) (Z.of_nat f_idx) fr).2].
Proof.
  unfold Pipeline.frame_step.
  destruct (update_metrics (Pipeline.risk_est st) (Z.of_nat f_idx) fr)
    as [est fr_u].
  destruct (ball !! f_idx) as [ball_f |]; [| discriminate].
  simpl. intros H. exists ball_f. split; [reflexivity |].
  unfold mark_owner. destruct ball_f as [bb |].
  - destruct (assign fr_u bb =? -1) eqn:E; simpl in H.
    + destruct (Pipeline.carry_forward _ _); [| discriminate].
      simpl in H. injection H as <-. split; reflexivity.
    + destruct (fr_u !! assign fr_u bb) as [trk |] eqn:Hl; [| discriminate].
      simpl in H. destruct (Track.team trk); [| discriminate].
      simpl in H. injection H as <-. simpl. split; [reflexivity |].
      do 2 f_equal. apply map_eq. intros pid.
      destruct (decide (pid = assign fr_u bb)) as [-> | Hne].
      * rewrite lookup_insert_eq, lookup_alter_eq, Hl. reflexivity.
      * rewrite lookup_insert_ne, lookup_alter_ne by congruence. reflexivity.
  - destruct (Pipeline.carry_forward _ _); [| discriminate].
    simpl in H. injection H as <-. split; reflexivity.
Qed.

Lemma frames_loop_inv assign ball (rest : list frame) (f0 : nat) st st' :
  Pipeline.frames_loop assign ball f0 rest st = Some st' ->
  Pipeline.risk_est st'
    = (update_frames (Pipeline.risk_est st) (Z.of_nat f0) rest).1 /\
  Pipeline.done_players st'
    = Pipeline.done_players st
      ++ zip_with (mark_owner assign) (drop f0 ball)
           (update_frames (Pipeline.risk_est st) (Z.of_nat f0) rest).2.
Proof.
  revert f0 st. induction rest as [| fr rest IH]; intros f0 st H.
  - simpl in H. injection H as <-. simpl.
    split; [reflexivity |].
    destruct (drop f0 ball); simpl; rewrite app_nil_r; reflexivity.
  - simpl in H.
    destruct (Pipeline.frame_step assign ball f0 fr st) as [st1 |] eqn:Hstep;
      [| discriminate].
    simpl in H.
    destruct (frame_step_inv _ _ _ _ _ _ Hstep) as (ball_f & Hb & He & Hd).
    destruct (IH (S f0) st1 H) as (He' & Hd').
    rewrite update_frames_cons. simpl.
    rewrite He in He', Hd'.
    replace (Z.of_nat (S f0)) with (Z.of_nat f0 + 1) in He', Hd' by lia.
    split; [exact He' |].
    rewrite Hd', Hd, <- app_assoc. f_equal.
    rewrite (drop_S ball ball_f f0 Hb). reflexivity.
Qed.

Lemma update_frames_length self f_idx (frames : list frame) :
  length (update_frames self f_idx frames).2 = length frames.
Proof.
  revert self f_idx. induction frames as [| fr rest IH]; intros self f_idx;
    [reflexivity |].
  rewrite update_frames_cons. simpl. rewrite IH. reflexivity.
Qed.

Lemma frames_loop_ball_length assign ball (rest : list frame) (f0 : nat) st st' :
  Pipeline.frames_loop assign ball f0 rest st = Some st' ->
  rest <> [] -> (f0 + length rest <= length ball)%nat.
Proof.
  revert f0 st. induction rest as [| fr rest IH]; intros f0 st H Hne;
    [congruence |].
  simpl in H.
  destruct (Pipeline.frame_step assign ball f0 fr st) as [st1 |] eqn:Hstep;
    [| discriminate].
  simpl in H.
  destruct (frame_step_inv _ _ _ _ _ _ Hstep) as (ball_f & Hb & _).
  apply lookup_lt_Some in Hb.
  destruct rest as [| fr1 rest1]; [simpl; lia |].
  assert (Hl := IH (S f0) st1 H ltac:(discriminate)).
  simpl in Hl |- *. lia.
Qed.

(** The loop of step 8 taken apart, for a run that does not raise. *)
Lemma step8_inv assign (trs : Pipeline.tracks) st' :
  Pipeline.step8 assign trs = Some st' ->
  Pipeline.risk_est st'
    = (update_frames (init 24) 0 (Pipeline.players trs)).1 /\
  Pipeline.done_players st'
    = zip_with (mark_owner assign) (Pipeline.ball trs)
        (update_frames (init 24) 0 (Pipeline.players trs)).2 /\
  length (Pipeline.done_players st') = length (Pipeline.players trs).
Proof.
  unfold Pipeline.step8. intros H.
  destruct (frames_loop_inv _ _ _ _ _ _ H) as (He & Hd).
  simpl in He, Hd. rewrite drop_0 in Hd.
  split; [exact He |]. split; [exact Hd |].
  rewrite Hd, length_zip_with, update_frames_length.
  destruct (Pipeline.players trs) as [| fr rest] eqn:Hp; [simpl; lia |].
  pose proof (frames_loop_ball_length _ _ _ _ _ _ H ltac:(discriminate)).
  simpl in *. lia.
Qed.

(** X8.  The loop of step 8 factors into its two halves.  The estimator goes
    through exactly the [update_metrics] calls of the frames in order,
    whatever the ball and the assigner say; and the track sets the loop
    leaves are the risk-updated ones with ["has_ball"] set on each frame's
    owner, one per input frame. *)
Theorem step8_factors assign (trs : Pipeline.tracks) st' :
  Pipeline.step8 assign trs = Some st' ->
  Pipeline.risk_est st'
    = (update_frames (init 24) 0 (Pipeline.players trs)).1 /\
  Pipeline.done_players st'
    = zip_with (mark_owner assign) (Pipeline.ball trs)
        (update_frames (init 24) 0 (Pipeline.players trs)).2 /\
  length (Pipeline.done_players st') = length (Pipeline.players trs).
Proof. apply step8_inv. Qed.

Lemma step8_factors_witness :
  let trkA := Track.mk (0, 0, 10, 20)%Q (Some 18%Q) (Some 3%Q) None
                       (Some (VInt 1)) None None in
  let trkB := Track.mk (5, 5, 10, 20)%Q None None None
                       (Some (VInt 2)) None None in
  let assign (fr : frame) (bb : Pipeline.bbox) : Z :=
    if decide (is_Some (fr !! 4)) then 4 else -1 in
  let trs := Pipeline.mk_tracks
               [ {[ 4 := trkA ]}; {[ 5 := trkB ]}; {[ 4 := trkA; 5 := trkB ]}; ∅ ]
               [ None; Some (0, 0, 1, 1)%Q; Some (0, 0, 1, 1)%Q; None ] in
  exists st',
    Pipeline.step8 assign trs = Some st' /\
    Pipeline.risk_est st'
      = (update_frames (init 24) 0 (Pipeline.players trs)).1.
Proof.
  intros trkA trkB assign trs.
  assert (H : exists st', Pipeline.step8 assign trs = Some st')
    by (eexists; vm_compute; reflexivity).
  destruct H as [st' H]. exists st'. split; [exact H |].
  exact (proj1 (step8_factors assign trs st' H)).
Defined.

(* ===================================================================== *)
(** ** The summary of a whole run                                        *)
(* ===================================================================== *)

Lemma Forall2_rev {A B} (P : A -> B -> Prop) (l : list A) (k : list B) :
  Forall2 P l k -> Forall2 P (rev l) (rev k).
Proof.
  induction 1 as [| x y l k Hxy _ IH]; [constructor |].
  simpl. apply Forall2_app; [exact IH | repeat constructor; exact Hxy].
Qed.

Lemma mark_owner_lookup assign ball_f (fr : frame) pid :
  mark_owner assign ball_f fr !! pid = fr !! pid \/
  mark_owner assign ball_f fr !! pid = Track.set_has_ball true <$> fr !! pid.
Proof.
  unfold mark_owner. destruct ball_f as [bb |]; [| left; reflexivity].
  destruct (assign fr bb =? -1); [left; reflexivity |].
  destruct (decide (assign fr bb = pid)) as [<- | Hne].
  - right. apply lookup_alter_eq.
  - left. apply lookup_alter_ne. exact Hne.
Qed.

Lemma update_frames_written (self : t) f_idx (frames : list frame) i fr :
  frames !! i = Some fr ->
  exists fr', (update_frames self f_idx frames).2 !! i = Some fr' /\
    forall pid, exists r, fr' !! pid = written r <$> fr !! pid.
Proof.
  revert self f_idx i. induction frames as [| fr0 rest IH];
    intros self f_idx i Hi; [inversion Hi |].
  rewrite update_frames_cons. destruct i as [| i]; simpl in Hi |- *.
  - injection Hi as <-. eexists. split; [reflexivity |].
    intros pid. eexists. apply update_metrics_written.
  - apply IH. exact Hi.
Qed.

(** What a run leaves of an input record: the risk written when there is
    a speed, ["has_ball"] possibly set, the rest as given. *)
Lemma step8_done_lookup assign (trs : Pipeline.tracks) st' i fr :
  Pipeline.step8 assign trs = Some st' ->
  Pipeline.players trs !! i = Some fr ->
  exists out fr_u,
    Pipeline.done_players st' !! i = Some out /\
    (update_frames (init 24) 0 (Pipeline.players trs)).2 !! i = Some fr_u /\
    forall pid,
      out !! pid = fr_u !! pid \/
      out !! pid = Track.set_has_ball true <$> fr_u !! pid.
Proof.
  intros H Hi. destruct (step8_inv assign trs st' H) as (_ & Hd & Hlen).
  destruct (update_frames_written (init 24) 0 _ i fr Hi) as (fr_u & Hu & _).
  assert (Hlt : (i < length (Pipeline.done_players st'))%nat)
    by (rewrite Hlen; eapply lookup_lt_Some; exact Hi).
  destruct (lookup_lt_is_Some_2 _ _ Hlt) as [out Hout].
  exists out, fr_u. split; [exact Hout |]. split; [exact Hu |].
  rewrite Hd in Hout. apply lookup_zip_with_Some in Hout
    as (ball_f & fr_u' & -> & _ & Hu').
  rewrite Hu in Hu'. injection Hu' as <-.
  intros pid. apply mark_owner_lookup.
Qed.

Lemma exported_fields_written r trk :
  exported_fields (written r trk) = exported_fields trk.
Proof. unfold written. destruct (Track.speed trk) eqn:E; reflexivity. Qed.

Lemma step8_same_exported assign (trs : Pipeline.tracks) st' :
  Pipeline.step8 assign trs = Some st' ->
  Forall2 same_exported (Pipeline.done_players st') (Pipeline.players trs).
Proof.
  intros H. destruct (step8_inv assign trs st' H) as (_ & _ & Hlen).
  apply Forall2_same_length_lookup_2; [exact Hlen |].
  intros i out fr Hout Hi.
  destruct (step8_done_lookup assign trs st' i fr H Hi)
    as (out' & fr_u & Hout' & Hu & Hmark).
  rewrite Hout in Hout'. injection Hout' as <-.
  destruct (update_frames_written (init 24) 0 _ i fr Hi) as (fr_u' & Hu' & Hw).
  rewrite Hu in Hu'. injection Hu' as <-.
  intros pid. destruct (Hw pid) as [r Hr].
  destruct (Hmark pid) as [-> | ->]; rewrite Hr;
    destruct (fr !! pid) as [trk |]; simpl; try reflexivity;
    f_equal; [apply exported_fields_written |].
  rewrite <- (exported_fields_written r trk). reflexivity.
Qed.

(** The scan reads speed and distance off the exported fields only. *)
Lemma scan_back_same_exported (l1 l2 : list frame) pid :
  Forall2 same_exported l1 l2 ->
  (fun x => (x.1.1, x.1.2)) <$> Pipeline.scan_back l1 pid
  = (fun x => (x.1.1, x.1.2)) <$> Pipeline.scan_back l2 pid.
Proof.
  induction 1 as [| a b l1 l2 Hab _ IH]; [reflexivity |].
  simpl. specialize (Hab pid). unfold exported_fields in Hab.
  destruct (a !! pid) as [t1 |], (b !! pid) as [t2 |];
    simpl in Hab; try discriminate; [| exact IH].
  injection Hab as Hs Hd _. rewrite Hs, Hd.
  destruct (Track.speed t2); [| exact IH].
  destruct (Track.distance t2); reflexivity.
Qed.

Lemma make_row_same_exported (done players : list frame) pid :
  Forall2 same_exported done players ->
  match Pipeline.make_row done pid, Pipeline.make_row players pid with
  | Some r1, Some r2 =>
      Pipeline.name r1 = Pipeline.name r2 /\
      Pipeline.speed_kmh r1 = Pipeline.speed_kmh r2 /\
      Pipeline.distance_m r1 = Pipeline.distance_m r2
  | None, None => True
  | _, _ => False
  end.
Proof.
  intros HF. unfold Pipeline.make_row, Pipeline.snapshot.
  pose proof (scan_back_same_exported _ _ pid (Forall2_rev _ _ _ HF)) as Hs.
  destruct (Pipeline.scan_back (rev done) pid) as [[[s1 d1] r1] |],
           (Pipeline.scan_back (rev players) pid) as [[[s2 d2] r2] |];
    simpl in Hs; try discriminate; [| exact I].
  injection Hs as -> ->. simpl.
  destruct HF as [| out fr done' players' Hof _]; simpl; [exact I |].
  specialize (Hof pid). unfold exported_fields in Hof.
  destruct (out !! pid) as [t1 |], (fr !! pid) as [t2 |];
    simpl in Hof |- *; try discriminate; [| repeat split].
  injection Hof as _ _ Hn. rewrite Hn. repeat split.
Qed.

Lemma summary_rows_defined est (players : list frame) s pid :
  Pipeline.summary est players = Some s ->
  is_Some (risk est !! pid) -> is_Some (Pipeline.make_row players pid).
Proof.
  unfold Pipeline.summary. intros H [v Hv].
  destruct (mapM _ _) as [rows |] eqn:Hrows; [| discriminate].
  destruct (collected_rows _ _ _ Hrows) as [Hkeys Hrow].
  assert (Hin : pid ∈ rows.*1).
  { rewrite Hkeys. apply list_elem_of_fmap. exists (pid, v).
    split; [reflexivity |]. apply elem_of_map_to_list. exact Hv. }
  apply list_elem_of_fmap in Hin as ([p row] & Hp & Hin).
  simpl in Hp. subst p. exists row. apply (Hrow pid row Hin).
Qed.

Lemma run_stats_inv assign (trs : Pipeline.tracks) s :
  run_stats assign trs = Some s ->
  exists st', Pipeline.step8 assign trs = Some st' /\
    Pipeline.summary (Pipeline.risk_est st') (Pipeline.done_players st')
      = Some s.
Proof.
  unfold run_stats. intros H.
  destruct (Pipeline.step8 assign trs) as [st' |]; [| discriminate].
  exists st'. split; [reflexivity | exact H].
Qed.

Lemma run_stats_keys assign (trs : Pipeline.tracks) s :
  run_stats assign trs = Some s ->
  forall pid,
    is_Some (s !! pid) <->
    exists i fr, Pipeline.players trs !! i = Some fr /\
                 has_speed fr pid = true.
Proof.
  intros H pid.
  destruct (run_stats_inv assign trs s H) as (st' & Hrun & Hsum).
  destruct (step8_inv assign trs st' Hrun) as (He & _).
  rewrite (summary_lookup _ _ s pid Hsum).
  assert (Hkey : is_Some (risk (Pipeline.risk_est st') !! pid) <->
                 exists i fr, Pipeline.players trs !! i = Some fr /\
                              has_speed fr pid = true).
  { rewrite He, update_frames_risk_key. simpl. rewrite lookup_empty.
    split; [intros [[? ?] | ?]; [discriminate | assumption] | right; assumption]. }
  rewrite <- Hkey. split.
  - intros [row Hrow].
    destruct (risk (Pipeline.risk_est st') !! pid); [eexists; reflexivity |].
    discriminate.
  - intros Hk. destruct (summary_rows_defined _ _ s pid Hsum Hk) as [row Hrow].
    destruct Hk as [v Hv]. rewrite Hv. simpl. rewrite Hrow.
    eexists. reflexivity.
Qed.

(** X9.  The statistics of a run, when it does not raise, have a row for a
    player exactly when the player has a speed in at least one frame: a
    player that is tracked but never has a speed is left out. *)
Theorem run_stats_lists_players_with_speed assign (trs : Pipeline.tracks) s :
  run_stats assign trs = Some s ->
  forall pid,
    is_Some (s !! pid) <->
    exists i fr, Pipeline.players trs !! i = Some fr /\
                 has_speed fr pid = true.
Proof. apply run_stats_keys. Qed.

(** X10.  The risk update and the possession step do not disturb what the
    statistics export besides the risk: each row of a run has the name,
    the speed and the distance that the summary of the input track sets
    would give. *)
Theorem run_stats_keeps_speed_distance assign (trs : Pipeline.tracks) s :
  run_stats assign trs = Some s ->
  forall pid row, s !! pid = Some row ->
    exists row0,
      Pipeline.make_row (Pipeline.players trs) pid = Some row0 /\
      Pipeline.name row = Pipeline.name row0 /\
      Pipeline.speed_kmh row = Pipeline.speed_kmh row0 /\
      Pipeline.distance_m row = Pipeline.distance_m row0.
Proof.
  intros H pid row Hrow.
  destruct (run_stats_inv assign trs s H) as (st' & Hrun & Hsum).
  rewrite (summary_lookup _ _ s pid Hsum) in Hrow.
  destruct (risk (Pipeline.risk_est st') !! pid); [| discriminate].
  simpl in Hrow.
  pose proof (make_row_same_exported _ _ pid
                (step8_same_exported assign trs st' Hrun)) as Hsame.
  rewrite Hrow in Hsame.
  destruct (Pipeline.make_row (Pipeline.players trs) pid) as [row0 |];
    [| contradiction].
  exists row0. split; [reflexivity | exact Hsame].
Qed.

Lemma same_exported_kinematics_ok (done players : list frame) :
  Forall2 same_exported done players ->
  Forall (map_Forall (fun _ trk => kinematics_ok trk = true)) players ->
  Forall (map_Forall (fun _ trk => kinematics_ok trk = true)) done.
Proof.
  induction 1 as [| out fr done players Hof _ IH]; intros Hwf;
    [constructor |].
  inversion Hwf as [| ? ? Hfr Hrest]; subst.
  constructor; [| apply IH; exact Hrest].
  intros pid trk' Hl. specialize (Hof pid). rewrite Hl in Hof.
  destruct (fr !! pid) as [trk |] eqn:Hp; [| discriminate].
  simpl in Hof. injection Hof as Hs Hd _.
  specialize (Hfr pid trk Hp). simpl in Hfr.
  unfold kinematics_ok in *. rewrite Hs, Hd. exact Hfr.
Qed.

(** A run whose frames are ready and whose records are well formed does
    not raise. *)
Lemma run_stats_total assign (trs : Pipeline.tracks) :
  Pipeline.players trs <> [] ->
  Forall (map_Forall (fun _ trk => kinematics_ok trk = true))
         (Pipeline.players trs) ->
  (forall f fr_u,
     (update_frames (init 24) 0 (Pipeline.players trs)).2 !! f = Some fr_u ->
     frame_ready assign (Pipeline.ball trs) f fr_u) ->
  is_Some (run_stats assign trs).
Proof.
  intros Hne Hwf Hready. unfold run_stats, Pipeline.step8.
  destruct (frames_loop_run assign (Pipeline.ball trs) (Pipeline.players trs)
              0%nat (Pipeline.mk_state (init 24) [] []) eq_refl)
    as (st' & Hloop & _).
  { intros i fr_u Hi. apply Hready. exact Hi. }
  rewrite Hloop. simpl.
  pose proof (step8_same_exported assign trs st' Hloop) as Hsame.
  apply summary_total.
  - intros Hnil. rewrite Hnil in Hsame. inversion Hsame. congruence.
  - apply (same_exported_kinematics_ok _ _ Hsame Hwf).
Qed.

Lemma example_run :
  exists s, run_stats example_assign example_tracks = Some s.
Proof.
  apply run_stats_total.
  - discriminate.
  - repeat constructor; intros k trk Hl.
    + apply lookup_singleton_Some in Hl as [_ <-]; reflexivity.
    + apply lookup_singleton_Some in Hl as [_ <-]; reflexivity.
    + apply lookup_insert_Some in Hl as [[_ <-] | [_ Hl]]; [reflexivity |].
      apply lookup_singleton_Some in Hl as [_ <-]; reflexivity.
    + rewrite lookup_empty in Hl. discriminate.
  - intros f fr_u Hf.
    destruct f as [| [| [| [| f]]]]; vm_compute in Hf;
      [injection Hf as <- .. | discriminate].
    + exists None. split; [reflexivity | exact I].
    + exists (Some (0, 0, 1, 1)%Q). split; [reflexivity |].
      intros Hown. exfalso. apply Hown. reflexivity.
    + exists (Some (0, 0, 1, 1)%Q). split; [reflexivity |].
      intros _. exists (VInt 1). reflexivity.
    + exists None. split; [reflexivity | exact I].
Qed.

Lemma run_stats_lists_players_with_speed_witness :
  exists s, run_stats example_assign example_tracks = Some s /\
            is_Some (s !! 4) /\ s !! 5 = None.
Proof.
  destruct example_run as [s Hs]. exists s. split; [exact Hs |].
  pose proof (run_stats_lists_players_with_speed _ _ s Hs) as H.
  split.
  - apply H. exists 0%nat. eexists. split; reflexivity.
  - destruct (s !! 5) as [row |] eqn:E; [| reflexivity].
    exfalso. destruct (proj1 (H 5)) as (i & fr & Hi & Hsp);
      [eexists; exact E |].
    destruct i as [| [| [| [| i]]]]; simpl in Hi;
      [injection Hi as <- .. | discriminate];
      vm_compute in Hsp; discriminate.
Defined.

Lemma example_run_row (s : gmap Z Pipeline.summary_row) :
  run_stats example_assign example_tracks = Some s -> is_Some (s !! 4).
Proof.
  intros Hs. apply (run_stats_keys _ _ s Hs).
  exists 0%nat. eexists. split; reflexivity.
Qed.

Lemma run_stats_keeps_speed_distance_witness :
  exists s row row0,
    run_stats example_assign example_tracks = Some s /\
    s !! 4 = Some row /\
    Pipeline.make_row (Pipeline.players example_tracks) 4 = Some row0 /\
    Pipeline.speed_kmh row = Pipeline.speed_kmh row0.
Proof.
  destruct example_run as [s Hs].
  destruct (example_run_row s Hs) as [row Hrow].
  destruct (run_stats_keeps_speed_distance _ _ s Hs 4 row Hrow)
    as (row0 & Hrow0 & _ & Hspeed & _).
  exists s, row, row0. repeat split; assumption.
Defined.

(** The scan returns the risk of a record, or the default 0.0. *)
Lemma scan_back_risk_zero (l : list frame) pid s d r :
  Forall (fun fr => forall trk, fr !! pid = Some trk ->
                      is_Some (Track.speed trk) ->
                      Track.risk trk = Some (Fin 0%R)) l ->
  Pipeline.scan_back l pid = Some (s, d, r) -> r = Fin 0%R.
Proof.
  induction 1 as [| fr l Hfr _ IH]; simpl.
  - intros H. injection H as _ _ <-. reflexivity.
  - destruct (fr !! pid) as [trk |] eqn:Hl; [| exact IH].
    destruct (Track.speed trk) as [spd |] eqn:Hs; [| exact IH].
    destruct (Track.distance trk); [| discriminate].
    simpl. intros H. injection H as _ _ <-.
    rewrite (Hfr trk eq_refl) by (rewrite Hs; eexists; reflexivity).
    reflexivity.
Qed.

Lemma run_stats_first_window assign (trs : Pipeline.tracks) s :
  run_stats assign trs = Some s ->
  (length (Pipeline.players trs) <= 720)%nat ->
  forall pid row, s !! pid = Some row ->
    Pipeline.risk_pct row = Fin 0%R.
Proof.
  intros H Hlen pid row Hrow.
  destruct (run_stats_inv assign trs s H) as (st' & Hrun & Hsum).
  rewrite (summary_lookup _ _ s pid Hsum) in Hrow.
  destruct (risk (Pipeline.risk_est st') !! pid); [| discriminate].
  simpl in Hrow. unfold Pipeline.make_row in Hrow.
  destruct (Pipeline.snapshot (Pipeline.done_players st') pid)
    as [[[spd dist] r] |] eqn:Hsnap; [| discriminate].
  simpl in Hrow.
  destruct (Pipeline.done_players st' !! 0%nat); [| discriminate].
  simpl in Hrow. injection Hrow as <-. simpl.
  assert (Hr : r = Fin 0%R); [| rewrite Hr; apply py_round_R_zero].
  unfold Pipeline.snapshot in Hsnap.
  apply (scan_back_risk_zero (rev (Pipeline.done_players st')) pid spd dist r);
    [| exact Hsnap].
  apply Forall_forall. intros out Hin.
  apply list_elem_of_In, in_rev, list_elem_of_In in Hin.
  apply list_elem_of_lookup in Hin as [i Hi].
  destruct (step8_inv assign trs st' Hrun) as (_ & _ & Hlen').
  assert (Hlt : (i < length (Pipeline.players trs))%nat)
    by (rewrite <- Hlen'; eapply lookup_lt_Some; exact Hi).
  destruct (lookup_lt_is_Some_2 _ _ Hlt) as [fr Hfr].
  destruct (step8_done_lookup assign trs st' i fr Hrun Hfr)
    as (out' & fr_u & Hout' & Hu & Hmark).
  rewrite Hi in Hout'. injection Hout' as <-.
  destruct (proj2 (update_frames_first_window 24 (Pipeline.players trs)
                     ltac:(change (window (init 24)) with 720; lia))
              i fr Hfr) as (fr_u' & Hu' & Hw).
  rewrite Hu in Hu'. injection Hu' as <-.
  intros trk' Hl [spd' Hs'].
  assert (Hcase : exists trk,
            fr !! pid = Some trk /\
            (trk' = written (Fin 0%R) trk \/
             trk' = Track.set_has_ball true (written (Fin 0%R) trk))).
  { destruct (Hmark pid) as [Hm | Hm]; rewrite Hl, Hw in Hm;
      destruct (fr !! pid) as [trk |]; try discriminate;
      simpl in Hm; injection Hm as ->; exists trk;
      (split; [reflexivity |]); [left | right]; reflexivity. }
  destruct Hcase as (trk & _ & [-> | ->]); unfold written in Hs' |- *;
    destruct (Track.speed trk) eqn:E; simpl in Hs' |- *;
    try reflexivity; rewrite E in Hs'; discriminate.
Qed.

(** X11.  A run of at most 720 frames (one window at 24 fps) reports a risk of
    0.0 for every player in its statistics: nothing is recomputed after
    frame 0, where no history has 5 samples yet. *)
Theorem short_run_reports_zero_risk assign (trs : Pipeline.tracks) s :
  run_stats assign trs = Some s ->
  (length (Pipeline.players trs) <= 720)%nat ->
  forall pid row, s !! pid = Some row ->
    Pipeline.risk_pct row = Fin 0%R.
Proof. apply run_stats_first_window. Qed.

Lemma short_run_reports_zero_risk_witness :
  exists s row,
    run_stats example_assign example_tracks = Some s /\
    (length (Pipeline.players example_tracks) <= 720)%nat /\
    s !! 4 = Some row /\ Pipeline.risk_pct row = Fin 0%R.
Proof.
  destruct example_run as [s Hs].
  destruct (example_run_row s Hs) as [row Hrow].
  assert (Hlen : (length (Pipeline.players example_tracks) <= 720)%nat)
    by (simpl; lia).
  exists s, row. split; [exact Hs |]. split; [exact Hlen |].
  split; [exact Hrow |].
  exact (short_run_reports_zero_risk _ _ s Hs Hlen 4 row Hrow).
Defined.

(* ===================================================================== *)
(** ** Rounding to the nearest, ties to even                             *)
(* ===================================================================== *)

Lemma Int_part_bounds (y : R) :
  (IZR (Int_part y) <= y < IZR (Int_part y) + 1)%R.
Proof. destruct (base_Int_part y). lra. Qed.

(** The rounded value reaches an even integer [k] exactly from
    [k - 1/2] on: the tie at [k - 1/2] goes up to [k]. *)
Lemma round_half_even_R_ge (y : R) (k : Z) :
  Z.even k = true ->
  (k <= round_half_even_R y <-> (IZR k - 1 / 2 <= y)%R).
Proof.
  intros Hk. pose proof (Int_part_bounds y) as [Hlo Hhi].
  unfold round_half_even_R, frac_part.
  set (f := Int_part y) in *.
  assert (Hcmp : forall a b : Z, a <= b <-> (IZR a <= IZR b)%R)
    by (intros a b; split; [apply IZR_le | apply le_IZR]).
  assert (Hf1 : IZR (f + 1) = (IZR f + 1)%R) by apply plus_IZR.
  destruct (Rlt_dec (y - IZR f) (1 / 2)) as [Hlt | Hge].
  - rewrite Hcmp. split; intros H; [lra |].
    destruct (Z_le_gt_dec k f) as [Hle | Hgt]; [apply IZR_le; exact Hle |].
    exfalso. assert (H1 : f + 1 <= k) by lia.
    apply IZR_le in H1. rewrite Hf1 in H1. lra.
  - destruct (Rlt_dec (1 / 2) (y - IZR f)) as [Hgt | Hle].
    + rewrite Hcmp, Hf1. split; intros H; [lra |].
      destruct (Z_le_gt_dec k (f + 1)) as [Hle | Hgt'];
        [rewrite <- Hf1; apply IZR_le; exact Hle |].
      exfalso. assert (H1 : f + 2 <= k) by lia.
      apply IZR_le in H1. rewrite plus_IZR in H1. lra.
    + assert (Hy : y = (IZR f + 1 / 2)%R) by lra.
      destruct (Z.even f) eqn:Ef.
      * rewrite Hcmp. split; intros H; [lra |].
        destruct (Z_le_gt_dec k f) as [Hle' | Hgt'];
          [apply IZR_le; exact Hle' |].
        exfalso. assert (Hne : k <> f + 1).
        { intros ->. rewrite Z.even_add in Hk. rewrite Ef in Hk.
          discriminate. }
        assert (H1 : f + 2 <= k) by lia.
        apply IZR_le in H1. rewrite plus_IZR in H1. lra.
      * rewrite Hcmp, Hf1. split; intros H; [lra |].
        destruct (Z_le_gt_dec k (f + 1)) as [Hle' | Hgt'];
          [rewrite <- Hf1; apply IZR_le; exact Hle' |].
        exfalso. assert (H1 : f + 2 <= k) by lia.
        apply IZR_le in H1. rewrite plus_IZR in H1. lra.
Qed.

(** [round(x, 1) >= t] for a threshold [t] that is a whole number of
    tenths with an even count of them: true from [t - 0.05] on. *)
Lemma py_round_R_ge (r : R) (k : Z) :
  Z.even k = true ->
  fge (py_round_R (Fin r) 1) (IZR k / 10) = true <-> (IZR k / 10 - 0.05 <= r)%R.
Proof.
  intros Hk. unfold py_round_R, fge.
  change (IZR (10 ^ Z.of_nat 1)) with 10%R.
  pose proof (round_half_even_R_ge (r * 10) k Hk) as H.
  destruct (Rle_dec (IZR k / 10) (IZR (round_half_even_R (r * 10)) / 10))
    as [Hle | Hnle].
  - split; [intros _ | reflexivity].
    assert (Hz : k <= round_half_even_R (r * 10)).
    { apply le_IZR. lra. }
    apply H in Hz. lra.
  - split; [discriminate |]. intros Hr. exfalso. apply Hnle.
    assert (Hz : k <= round_half_even_R (r * 10)) by (apply H; lra).
    apply IZR_le in Hz. lra.
Qed.

(* ===================================================================== *)
(** ** The colour thresholds of the overlay and of the dashboard         *)
(* ===================================================================== *)

Lemma fge_Fin (r t : R) : fge (Fin r) t = true <-> (t <= r)%R.
Proof.
  unfold fge. destruct (Rle_dec t r); split; intros H;
    try reflexivity; try assumption; try discriminate; contradiction.
Qed.

Lemma fge_Fin_false (r t : R) : fge (Fin r) t = false <-> (r < t)%R.
Proof.
  unfold fge. destruct (Rle_dec t r); split; intros H;
    try reflexivity; try discriminate; lra.
Qed.

(** The exported risk [round(r, 1)] against the threshold 63. *)
Lemma rounded_risk_threshold (r : R) :
  substitute_now (py_round_R (Fin r) 1) = true <-> (62.95 <= r)%R.
Proof.
  pose proof (py_round_R_ge r 630 eq_refl) as H63.
  replace (630 / 10)%R with 63%R in H63 by lra.
  replace (63 - 0.05)%R with 62.95%R in H63 by lra.
  exact H63.
Qed.

Lemma alerted_app (p1 p2 : list element) :
  alerted (p1 ++ p2) = alerted p1 ++ alerted p2.
Proof. apply omap_app. Qed.

Lemma over_threshold_app (r1 r2 : list (string * fval R)) :
  over_threshold (r1 ++ r2) = over_threshold r1 ++ over_threshold r2.
Proof. unfold over_threshold. rewrite filter_app, fmap_app. reflexivity. Qed.

(** The alerts of one accepted row. *)
Lemma alerted_row (row : string * fval R) :
  alerted (if substitute_now row.2 then [StError row.1 row.2] else [])
  = over_threshold [row].
Proof.
  unfold over_threshold. rewrite filter_cons, filter_nil.
  destruct (substitute_now row.2) eqn:E.
  - rewrite decide_True by reflexivity. reflexivity.
  - rewrite decide_False by discriminate. reflexivity.
Qed.

(** The loop up to its first rejected gauge. *)
Lemma risk_gauges_prefix (st_progress : fval R -> bool)
    (before rest : list (string * fval R)) :
  Forall (fun row => st_progress (percent_of row.2) = true) before ->
  risk_gauges st_progress (before ++ rest)
  = ((risk_gauges st_progress before).1 ++ (risk_gauges st_progress rest).1,
     (risk_gauges st_progress rest).2)
  /\ alerted (risk_gauges st_progress before).1 = over_threshold before.
Proof.
  induction 1 as [| row before Hrow Hbefore [IH1 IH2]].
  - simpl. destruct (risk_gauges st_progress rest). split; reflexivity.
  - cbn [app risk_gauges]. rewrite Hrow, IH1.
    destruct (risk_gauges st_progress before) as [page fin] eqn:E.
    cbn [fst snd] in *. split.
    + rewrite <- !app_comm_cons, app_assoc. reflexivity.
    + change (row :: before) with ([row] ++ before).
      rewrite over_threshold_app, <- IH2, <- alerted_row.
      change (StWrite row.1 :: StProgress (percent_of row.2)
              :: (if substitute_now row.2 then [StError row.1 row.2] else [])
                 ++ page)
        with ([StWrite row.1; StProgress (percent_of row.2)]
              ++ (if substitute_now row.2 then [StError row.1 row.2] else [])
              ++ page).
      rewrite !alerted_app. reflexivity.
Qed.

(** X12.  The gauge loop of the dashboard shows a substitution alert for
    the rows that pass the test [risk_pct >= 63], in their order, but only
    up to the first row whose percentage [st.progress] rejects: the
    exception leaves the loop, so neither that row nor any later one gets
    an alert, whatever its risk.  When every percentage is accepted the
    loop runs to its end and every row passing the test is alerted. *)
Theorem alerts_stop_at_rejected_gauge (st_progress : fval R -> bool) :
  (forall rows,
     Forall (fun row => st_progress (percent_of row.2) = true) rows ->
     (risk_gauges st_progress rows).2 = true /\
     alerted (risk_gauges st_progress rows).1 = over_threshold rows)
  /\
  (forall before row after,
     Forall (fun row => st_progress (percent_of row.2) = true) before ->
     st_progress (percent_of row.2) = false ->
     (risk_gauges st_progress (before ++ row :: after)).2 = false /\
     alerted (risk_gauges st_progress (before ++ row :: after)).1
     = over_threshold before).
Proof.
  split.
  - intros rows Hrows.
    destruct (risk_gauges_prefix st_progress rows [] Hrows) as [E A].
    rewrite app_nil_r in E. split; [| exact A].
    rewrite E. reflexivity.
  - intros before row after Hbefore Hrow.
    destruct (risk_gauges_prefix st_progress before (row :: after) Hbefore)
      as [E A].
    rewrite E. cbn [risk_gauges fst snd]. rewrite Hrow. cbn [fst snd].
    split; [reflexivity |].
    rewrite alerted_app, A. simpl. apply app_nil_r.
Qed.

Lemma alerts_stop_at_rejected_gauge_witness :
  let st_progress := fun p : fval R =>
    match p with
    | Fin v => if Rle_dec 0 v then if Rle_dec v 1 then true else false
               else false
    | _ => false
    end in
  let a := ("Ali"%string, Fin 80%R) : string * fval R in
  let b := ("Ben"%string, NaN) : string * fval R in
  let c := ("Cem"%string, Fin 90%R) : string * fval R in
  Forall (fun row => st_progress (percent_of row.2) = true) [a] /\
  st_progress (percent_of b.2) = false /\
  (risk_gauges st_progress ([a] ++ b :: [c])).2 = false /\
  alerted (risk_gauges st_progress ([a] ++ b :: [c])).1 = over_threshold [a].
Proof.
  intros st_progress a b c.
  assert (Ha : Forall (fun row => st_progress (percent_of row.2) = true) [a]).
  { constructor; [| constructor]. simpl.
    destruct (Rle_dec 0 (80 / 100)) as [_ | H]; [| exfalso; lra].
    destruct (Rle_dec (80 / 100) 1) as [_ | H]; [reflexivity | exfalso; lra]. }
  assert (Hb : st_progress (percent_of b.2) = false) by reflexivity.
  split; [exact Ha |]. split; [exact Hb |].
  exact (proj2 (alerts_stop_at_rejected_gauge st_progress) [a] b [c] Ha Hb).
Defined.

(** X13.  The video overlay colours the raw risk (red from 70, amber from
    40), the dashboard tests the exported risk [round(risk, 1)] against
    63.  The test holds exactly from a raw risk of 62.95 on: a red label
    on the video always comes with a row that passes the test, a risk from
    62.95 up to 70 passes it under an amber label, and a risk from 40 up
    to 62.95 has an amber label and does not pass.  (Exact arithmetic;
    whether the alert of a row that passes is shown depends on the loop
    getting to it, see X12.) *)
Theorem overlay_and_alert_thresholds (r : R) :
  (substitute_now (py_round_R (Fin r) 1) = true <-> (62.95 <= r)%R) /\
  (draw_color (Fin r) = (0, 0, 255) ->
   substitute_now (py_round_R (Fin r) 1) = true) /\
  ((62.95 <= r < 70)%R ->
   draw_color (Fin r) = (0, 165, 255) /\
   substitute_now (py_round_R (Fin r) 1) = true) /\
  ((40 <= r < 62.95)%R ->
   draw_color (Fin r) = (0, 165, 255) /\
   substitute_now (py_round_R (Fin r) 1) = false).
Proof.
  pose proof (rounded_risk_threshold r) as H63.
  assert (Amber : (40 <= r < 70)%R -> draw_color (Fin r) = (0, 165, 255)).
  { intros [H40 H70]. unfold draw_color.
    rewrite (proj2 (fge_Fin_false r 70) H70).
    rewrite (proj2 (fge_Fin r 40) H40). reflexivity. }
  split; [exact H63 |]. split; [| split].
  - intros Hred. apply H63. unfold draw_color in Hred.
    destruct (fge (Fin r) 70) eqn:E70.
    + apply fge_Fin in E70. lra.
    + destruct (fge (Fin r) 40); discriminate.
  - intros [Hlo Hhi]. split; [apply Amber; lra | apply H63; exact Hlo].
  - intros [Hlo Hhi]. split; [apply Amber; lra |].
    apply not_true_is_false. intros E. apply H63 in E. lra.
Qed.

Lemma overlay_and_alert_thresholds_witness :
  (62.95 <= 65 < 70)%R /\
  draw_color (Fin 65%R) = (0, 165, 255) /\
  substitute_now (py_round_R (Fin 65%R) 1) = true.
Proof.
  assert (H : (62.95 <= 65 < 70)%R) by lra.
  split; [exact H |].
  exact (proj1 (proj2 (proj2 (overlay_and_alert_thresholds 65))) H).
Defined.

(* ===================================================================== *)
(** ** Player ids: JSON keys and the roster                              *)
(* ===================================================================== *)

(** Reading back the key that [str] wrote gives the id. *)
Lemma py_int_of_str_py_str (z : Z) : py_int_of_str (py_str z) = Some z.
Proof.
  unfold py_int_of_str, py_str.
  assert (Hnorm : Decimal.norm (Z.to_int z) = Z.to_int z)
    by (rewrite <- (DecimalZ.to_of (Z.to_int z)), DecimalZ.of_to; reflexivity).
  rewrite NilZero.isi.
  - simpl. rewrite DecimalZ.of_to. reflexivity.
  - intros E. rewrite E in Hnorm. discriminate.
  - intros E. rewrite E in Hnorm. discriminate.
Qed.

Lemma id_map_from_lookup (names : list string) (i : nat)
    (m : gmap Z string) (k : Z) :
  fold_left (fun m p => <[Z.of_nat p.1 + 1 := p.2]> m)
            (enumerate_from i names) m !! k
  = if decide (Z.of_nat i + 1 <= k <= Z.of_nat i + Z.of_nat (length names))
    then names !! Z.to_nat (k - Z.of_nat i - 1)
    else m !! k.
Proof.
  revert i m. induction names as [| n names IH]; intros i m; simpl.
  - destruct (decide _) as [H | H]; [lia | reflexivity].
  - rewrite IH.
    destruct (decide (Z.of_nat (S i) + 1 <= k
                      <= Z.of_nat (S i) + Z.of_nat (length names)))
      as [H1 | H1];
      destruct (decide (Z.of_nat i + 1 <= k
                        <= Z.of_nat i + Z.of_nat (S (length names))))
        as [H2 | H2]; try lia.
    + replace (Z.to_nat (k - Z.of_nat i - 1))
        with (S (Z.to_nat (k - Z.of_nat (S i) - 1))) by lia.
      reflexivity.
    + assert (Hk : k = Z.of_nat i + 1) by lia. subst k.
      rewrite lookup_insert_eq.
      replace (Z.to_nat (Z.of_nat i + 1 - Z.of_nat i - 1)) with 0%nat by lia.
      reflexivity.
    + rewrite lookup_insert_ne by lia. reflexivity.
Qed.

(** The roster ids are 1-based: [id_map] holds the [k]-th name of the
    roster under [k], for [k] from 1 to the number of names, and nothing
    else (no entry for 0). *)
Lemma id_map_lookup (names : list string) (k : Z) :
  id_map names !! k
  = if decide (1 <= k <= Z.of_nat (length names))
    then names !! Z.to_nat (k - 1) else None.
Proof.
  unfold id_map. rewrite id_map_from_lookup.
  destruct (decide (Z.of_nat 0 + 1 <= k
                    <= Z.of_nat 0 + Z.of_nat (length names))) as [H | H];
    destruct (decide (1 <= k <= Z.of_nat (length names))) as [H' | H'];
    try lia; [| apply lookup_empty].
  f_equal. lia.
Qed.

(** X14.  The dashboard reads each row back under the id that the pipeline
    wrote as its key ([int(str(pid)) = pid], no ValueError), and replaces
    the name by the roster's name number [pid] when the roster has one;
    a player whose id is outside [1 .. len(names)] keeps the name from
    the statistics. *)
Theorem roster_name_by_id (names : list string) (pid : Z) (name : string) :
  roster_name names (py_str pid) name
  = Some (if decide (1 <= pid <= Z.of_nat (length names))
          then default name (names !! Z.to_nat (pid - 1))
          else name)
  /\ (forall pid', py_str pid' = py_str pid -> pid' = pid).
Proof.
  split.
  - unfold roster_name. rewrite py_int_of_str_py_str. simpl.
    rewrite id_map_lookup. destruct (decide _); reflexivity.
  - intros pid' H. apply (f_equal py_int_of_str) in H.
    rewrite !py_int_of_str_py_str in H. congruence.
Qed.

(* ===================================================================== *)
(** ** estimate_injury_risk                                              *)
(* ===================================================================== *)

Lemma round_half_even_R_le (y : R) (k : Z) :
  (y <= IZR k)%R -> round_half_even_R y <= k.
Proof.
  intros Hy. pose proof (Int_part_bounds y) as [Hlo Hhi].
  unfold round_half_even_R, frac_part. set (f := Int_part y) in *.
  assert (Hfk : f <= k) by (apply le_IZR; lra).
  destruct (Z.eq_dec f k) as [-> | Hne].
  - destruct (Rlt_dec (y - IZR k) (1 / 2)) as [_ | Hn]; [lia | exfalso; lra].
  - destruct (Rlt_dec _ _); [lia |].
    destruct (Rlt_dec _ _); [lia |]. destruct (Z.even f); lia.
Qed.

Lemma round_half_even_R_lower (y : R) (k : Z) :
  (IZR k <= y)%R -> k <= round_half_even_R y.
Proof.
  intros Hy. pose proof (Int_part_bounds y) as [Hlo Hhi].
  unfold round_half_even_R, frac_part. set (f := Int_part y) in *.
  assert (Hkf : k <= f).
  { destruct (Z_le_gt_dec k f) as [H | H]; [exact H |].
    exfalso. assert (H1 : f + 1 <= k) by lia.
    apply IZR_le in H1. rewrite plus_IZR in H1. lra. }
  destruct (Rlt_dec _ _); [lia |].
  destruct (Rlt_dec _ _); [lia |]. destruct (Z.even f); lia.
Qed.

(** Rounding to two decimals keeps a value of [0, 1] in [0, 1]. *)
Lemma py_round_real_unit (x : R) :
  (0 <= x <= 1)%R -> (0 <= py_round_real x 2 <= 1)%R.
Proof.
  intros [H0 H1]. unfold py_round_real.
  change (IZR (10 ^ Z.of_nat 2)) with 100%R.
  pose proof (round_half_even_R_lower (x * 100) 0 ltac:(simpl; lra)) as Hlo.
  pose proof (round_half_even_R_le (x * 100) 100 ltac:(lra)) as Hhi.
  apply IZR_le in Hlo. apply IZR_le in Hhi. lra.
Qed.

Lemma np_norm_diff_nonneg (a b : Z * Z) : (0 <= np_norm_diff a b)%R.
Proof. apply sqrt_pos. Qed.

Lemma wrap64_id (z : Z) : is_int64 z = true -> wrap64 z = z.
Proof.
  unfold is_int64, wrap64. intros H.
  apply andb_true_iff in H as [H1 H2].
  apply Z.leb_le in H1. apply Z.ltb_lt in H2.
  rewrite Z.mod_small by lia. lia.
Qed.

(** Without wrap-around the distance is the Euclidean one. *)
Lemma np_norm_diff_euclid (a b : Z * Z) :
  is_int64 (a.1 - b.1) = true -> is_int64 (a.2 - b.2) = true ->
  np_norm_diff a b = sqrt (IZR ((a.1 - b.1) ^ 2 + (a.2 - b.2) ^ 2)).
Proof.
  intros H1 H2. unfold np_norm_diff.
  rewrite (wrap64_id _ H1), (wrap64_id _ H2). reflexivity.
Qed.

(** X15.  [estimate_injury_risk] always returns a value between 0 and 1; it
    returns 0.0 when there are no keypoints and, through its [except],
    when there are fewer than 29 of them. *)
Theorem estimate_injury_risk_range (keypoints : option (list (Z * Z))) :
  (0 <= estimate_injury_risk keypoints <= 1)%R /\
  (keypoints = None -> estimate_injury_risk keypoints = 0%R) /\
  (forall l, keypoints = Some l -> (length l < 29)%nat ->
             estimate_injury_risk keypoints = 0%R).
Proof.
  split; [| split].
  - destruct keypoints as [l |]; simpl; [| lra].
    destruct (l !! 25%nat) as [lk |]; [| lra].
    destruct (l !! 26%nat) as [rk |]; [| lra].
    destruct (l !! 27%nat) as [la |]; [| lra].
    destruct (l !! 28%nat) as [ra |]; [| lra].
    apply py_round_real_unit.
    pose proof (np_norm_diff_nonneg lk la). pose proof (np_norm_diff_nonneg rk ra).
    split.
    + apply Rmin_glb; [lra |]. apply Rmult_le_pos; lra.
    + apply Rmin_l.
  - intros ->. reflexivity.
  - intros l -> Hlen. simpl.
    rewrite (lookup_ge_None_2 l 28) by lia.
    destruct (l !! 25%nat), (l !! 26%nat), (l !! 27%nat); reflexivity.
Qed.

Lemma estimate_injury_risk_range_witness :
  (length [(0, 0); (3, 4)] < 29)%nat /\
  estimate_injury_risk (Some [(0, 0); (3, 4)]) = 0%R.
Proof.
  assert (H : (length [(0, 0); (3, 4)] < 29)%nat) by (simpl; lia).
  split; [exact H |].
  exact (proj2 (proj2 (estimate_injury_risk_range
                         (Some [(0, 0); (3, 4)]))) _ eq_refl H).
Defined.

(** X16.  With keypoints 25 to 28 present and their coordinates in
    [int64], the player is flagged as injured at the default threshold 0.7
    exactly when the two knee-to-ankle distances add up to at least 208.5
    pixels (the risk is rounded to two decimals, and 0.695 rounds up to
    0.70); and the risk is exactly 1.0 once they add up to 300 pixels or
    more.  The distance is the Euclidean one as long as the coordinate
    differences fit [int64] themselves; a difference that does not fit
    wraps around, and the distance is that of the wrapped difference.
    (Exact arithmetic for the floats.) *)
Theorem injured_from_208_5_pixels (l : list (Z * Z)) lk rk la ra :
  l !! 25%nat = Some lk -> l !! 26%nat = Some rk ->
  l !! 27%nat = Some la -> l !! 28%nat = Some ra ->
  int64_point lk = true -> int64_point rk = true ->
  int64_point la = true -> int64_point ra = true ->
  let leg_movement := (np_norm_diff lk la + np_norm_diff rk ra)%R in
  (is_injured (estimate_injury_risk (Some l)) 0.7 = true
   <-> (208.5 <= leg_movement)%R) /\
  ((300 <= leg_movement)%R -> estimate_injury_risk (Some l) = 1%R) /\
  (forall a b : Z * Z,
     is_int64 (a.1 - b.1) = true -> is_int64 (a.2 - b.2) = true ->
     np_norm_diff a b = sqrt (IZR ((a.1 - b.1) ^ 2 + (a.2 - b.2) ^ 2))).
Proof.
  intros H25 H26 H27 H28 _ _ _ _ leg.
  split; [| split; [| intros a b Ha Hb; apply np_norm_diff_euclid; assumption]].
  all: simpl; rewrite H25, H26, H27, H28; fold leg; unfold py_round_real;
    change (IZR (10 ^ Z.of_nat 2)) with 100%R;
    set (risk := Rmin 1 (leg / 300));
    assert (Hleg : (0 <= leg)%R)
      by (unfold leg; pose proof (np_norm_diff_nonneg lk la);
          pose proof (np_norm_diff_nonneg rk ra); lra).
  - pose proof (round_half_even_R_ge (risk * 100) 70 eq_refl) as H70.
    unfold is_injured.
    assert (Hrisk : (0.695 <= risk)%R <-> (208.5 <= leg)%R).
    { unfold risk. split; intros H.
      - pose proof (Rmin_r 1 (leg / 300)). lra.
      - apply Rmin_glb; lra. }
    destruct (Rle_dec 0.7 (IZR (round_half_even_R (risk * 100)) / 100))
      as [Hle | Hnle].
    + split; [intros _ | reflexivity]. apply Hrisk.
      assert (Hz : 70 <= round_half_even_R (risk * 100))
        by (apply le_IZR; lra).
      apply H70 in Hz. lra.
    + split; [discriminate |]. intros H. exfalso. apply Hnle.
      apply Hrisk in H.
      assert (Hz : 70 <= round_half_even_R (risk * 100)) by (apply H70; lra).
      apply IZR_le in Hz. lra.
  - intros H300.
    assert (Hr : risk = 1%R) by (unfold risk; apply Rmin_left; lra).
    rewrite Hr.
    pose proof (round_half_even_R_lower (1 * 100) 100 ltac:(lra)) as Hlo.
    pose proof (round_half_even_R_le (1 * 100) 100 ltac:(lra)) as Hhi.
    assert (Hz : round_half_even_R (1 * 100) = 100) by lia.
    rewrite Hz. lra.
Qed.

Lemma injured_from_208_5_pixels_witness :
  let p : Z * Z := (0, 0) in
  let q : Z * Z := (120, 160) in
  let l := replicate 27 p ++ [q; q] in
  l !! 25%nat = Some p /\ l !! 28%nat = Some q /\
  int64_point p = true /\ int64_point q = true /\
  (is_injured (estimate_injury_risk (Some l)) 0.7 = true
   <-> (208.5 <= np_norm_diff p q + np_norm_diff p q)%R) /\
  np_norm_diff p q = sqrt (IZR ((0 - 120) ^ 2 + (0 - 160) ^ 2)).
Proof.
  split; [reflexivity |]. split; [reflexivity |].
  split; [reflexivity |]. split; [reflexivity |].
  pose proof (injured_from_208_5_pixels
                (replicate 27 ((0, 0) : Z * Z) ++ [(120, 160); (120, 160)])
                (0, 0) (0, 0) (120, 160) (120, 160)
                eq_refl eq_refl eq_refl eq_refl
                eq_refl eq_refl eq_refl eq_refl) as (H1 & _ & H3).
  split; [exact H1 |].
  exact (H3 (0, 0) (120, 160) eq_refl eq_refl).
Defined.

(* ===================================================================== *)
(** ** The risk overlay                                                  *)
(* ===================================================================== *)

(** The items of a track set that was rewritten record by record. *)
Lemma map_to_list_pointwise (h : Z -> Track.t -> Track.t) (m m' : frame) :
  (forall pid, m' !! pid = h pid <$> m !! pid) ->
  map_to_list m'
  ≡ₚ (fun item : Z * Track.t => (item.1, h item.1 item.2)) <$> map_to_list m.
Proof.
  intros Hm. apply NoDup_Permutation.
  - apply NoDup_map_to_list.
  - apply (NoDup_fmap_1 fst). rewrite <- list_fmap_compose.
    exact (NoDup_fst_map_to_list m).
  - intros [pid trk']. rewrite elem_of_map_to_list, list_elem_of_fmap, Hm.
    split.
    + intros H. destruct (m !! pid) as [trk |] eqn:Hp; [| discriminate].
      simpl in H. injection H as <-.
      exists (pid, trk). split; [reflexivity |].
      apply elem_of_map_to_list. exact Hp.
    + intros ([pid0 trk] & E & Hin). simpl in E. injection E as -> ->.
      apply elem_of_map_to_list in Hin. rewrite Hin. reflexivity.
Qed.

Lemma omap_fmap_ext {A B C} (f : B -> option C) (g : A -> B)
    (k : A -> option C) (l : list A) :
  (forall x, x ∈ l -> f (g x) = k x) -> omap f (g <$> l) = omap k l.
Proof.
  induction l as [| x l IH]; intros H; [reflexivity |].
  cbn [fmap list_fmap omap list_omap].
  change (list_fmap A B g l) with (g <$> l).
  change (list_omap B C f (g <$> l)) with (omap f (g <$> l)).
  change (list_omap A C k l) with (omap k l).
  rewrite (H x) by left.
  rewrite IH by (intros y Hy; apply H; right; exact Hy). reflexivity.
Qed.

Lemma length_omap_filter {A B} (k : A -> option B) (P : A -> Prop)
    `{forall x, Decision (P x)} (l : list A) :
  (forall x, is_Some (k x) <-> P x) ->
  length (omap k l) = length (filter P l).
Proof.
  intros Hk. induction l as [| x l IH]; [reflexivity |].
  cbn [omap list_omap]. change (list_omap A B k l) with (omap k l).
  rewrite filter_cons.
  destruct (decide (P x)) as [Hp | Hp].
  - apply Hk in Hp as [y ->]. simpl. rewrite IH. reflexivity.
  - destruct (k x) as [y |] eqn:E.
    + exfalso. apply Hp, Hk. rewrite E. eauto.
    + exact IH.
Qed.

(** X17.  When the records of a frame come without a risk (as the tracker
    hands them over), the overlay of step 9 after [update_metrics] puts
    exactly one text for each player of the frame that has a speed, and
    nothing else: the texts it puts are, up to their order and counted with
    repetition, one per item of the track set with a speed, and there are
    as many of them as there are such items.  The text of a player is the
    formatted stored Risk Value, 60 pixels below the top-left corner of
    the box (coordinates truncated), in the colour of that value; a NaN
    value is drawn green. *)
Theorem overlay_labels_players_with_speed
    (fmt : fval R -> string) self f_idx (tracks : frame) :
  (forall pid trk, tracks !! pid = Some trk -> Track.risk trk = None) ->
  let self' := (update_metrics self f_idx tracks).1 in
  let tracks' := (update_metrics self f_idx tracks).2 in
  overlay_frame fmt tracks'
  ≡ₚ omap (fun item : Z * Track.t =>
             match Track.speed item.2 with
             | Some _ =>
                 let '(x, y, _, _) := Track.bbox item.2 in
                 let r := risk_of self' item.1 in
                 Some (mk_put_text (fmt r ++ "% risk")%string
                                   (py_int x, py_int (y + 60)%Q)
                                   (draw_color r))
             | None => None
             end)
          (map_to_list tracks)
  /\ length (overlay_frame fmt tracks')
     = length (filter (fun item : Z * Track.t => is_Some (Track.speed item.2))
                      (map_to_list tracks))
  /\ draw_color NaN = (0, 200, 0).
Proof.
  intros Hnone self' tracks'.
  set (G := fun item : Z * Track.t =>
             match Track.speed item.2 with
             | Some _ =>
                 let '(x, y, _, _) := Track.bbox item.2 in
                 let r := risk_of self' item.1 in
                 Some (mk_put_text (fmt r ++ "% risk")%string
                                   (py_int x, py_int (y + 60)%Q)
                                   (draw_color r))
             | None => None
             end).
  assert (HP : overlay_frame fmt tracks' ≡ₚ omap G (map_to_list tracks)).
  { unfold overlay_frame.
    rewrite (map_to_list_pointwise
               (fun pid trk => written (risk_of self' pid) trk)
               tracks tracks')
      by (intros pid; unfold tracks', self'; apply update_metrics_written).
    rewrite (omap_fmap_ext _ _ G); [reflexivity |].
    intros [pid trk] Hin. apply elem_of_map_to_list in Hin.
    pose proof (Hnone _ _ Hin) as Hr. unfold G, written. simpl.
    destruct (Track.speed trk) as [spd |] eqn:Hs.
    - reflexivity.
    - rewrite Hr. reflexivity. }
  split; [exact HP |]. split; [| reflexivity].
  rewrite HP. apply length_omap_filter.
  intros [pid trk]. unfold G. simpl.
  destruct (Track.speed trk) as [spd |].
  - destruct (Track.bbox trk) as [[[x y] w] h]. split; eauto.
  - split; intros [? ?]; discriminate.
Qed.

Lemma overlay_labels_players_with_speed_witness :
  let tracks : frame :=
    {[ 4 := Track.mk (10, 20, 30, 40)%Q (Some 5%Q) (Some 1%Q)
              None None None None ]} in
  (forall pid trk, tracks !! pid = Some trk -> Track.risk trk = None) /\
  length (overlay_frame (fun _ => " 0.0"%string)
            (update_metrics (FatigueRiskEstimator.init 24) 0 tracks).2)
  = length (filter (fun item : Z * Track.t => is_Some (Track.speed item.2))
                   (map_to_list tracks)).
Proof.
  assert (H : forall pid trk,
             ({[ 4 := Track.mk (10, 20, 30, 40)%Q (Some 5%Q) (Some 1%Q)
                        None None None None ]} : frame) !! pid = Some trk ->
             Track.risk trk = None).
  { intros pid trk Hp. apply lookup_singleton_Some in Hp as [_ <-].
    reflexivity. }
  split; [exact H |].
  exact (proj1 (proj2 (overlay_labels_players_with_speed
                         (fun _ => " 0.0"%string)
                         (FatigueRiskEstimator.init 24) 0 _ H))).
Defined.

(* ===================================================================== *)
(** ** Instances                                                         *)
(* ===================================================================== *)

Lemma update_metrics_keeps_entries_witness :
  let self := FatigueRiskEstimator.init 24 in
  has_speed (∅ : frame) 4 = false /\
  history (update_metrics self 0 (∅ : frame)).1 !! 4 = history self !! 4 /\
  risk (update_metrics self 0 (∅ : frame)).1 !! 4 = risk self !! 4.
Proof.
  assert (H : has_speed (∅ : frame) 4 = false) by reflexivity.
  split; [exact H |].
  exact (proj1 (update_metrics_keeps_entries
                  (FatigueRiskEstimator.init 24) 0 (∅ : frame) 4) H).
Defined.

Lemma update_metrics_touches_risk_only_witness :
  let self := FatigueRiskEstimator.init 24 in
  let trk := Track.mk (10, 20, 30, 40)%Q None None None None None None in
  let tracks : frame := {[ 4 := trk ]} in
  (update_metrics self 0 tracks).2 !! 4 = Some trk /\
  exists trk0, tracks !! 4 = Some trk0 /\ Track.bbox trk = Track.bbox trk0.
Proof.
  assert (H : (update_metrics (FatigueRiskEstimator.init 24) 0
                 ({[ 4 := Track.mk (10, 20, 30, 40)%Q
                            None None None None None None ]} : frame)).2 !! 4
              = Some (Track.mk (10, 20, 30, 40)%Q
                        None None None None None None)).
  { rewrite update_metrics_written. reflexivity. }
  split; [exact H |].
  destruct (proj2 (update_metrics_touches_risk_only
                     (FatigueRiskEstimator.init 24) 0 _) 4 _ H)
    as (trk0 & H0 & Hb & _).
  exists trk0. split; [exact H0 | exact Hb].
Defined.

Lemma roster_name_by_id_witness :
  py_str 3 = py_str 3 /\ 3 = 3.
Proof.
  split; [reflexivity |].
  exact (proj2 (roster_name_by_id ["Ali"; "Ben"]%string 3 "P3"%string)
               3 eq_refl).
Defined.
